(** * Opus-in-WebM job handler ([wordle_sonar/scripts/opus.wasm.js])

    A shallow embedding of the EBML walker and PCM assembler that sit in
    front of the WebAssembly Opus decoder, followed by the properties of the
    written specification that concern them.

    After those come further properties of the walker, of the helpers of
    the runtime around the native module, and of the offline cache of the
    service worker that the file ends with.

    Conventions.
    - JavaScript integers are [Z]; the 32-bit operators ([<<], [>>], [&],
      [|]) are written with their [ToInt32] wrap-around.
    - JavaScript doubles that are not integers by construction are
      [spec_float] values of IEEE binary64 ([SpecFloat], precision 53).
    - The module-level variables of the script are the fields of [State];
      every function is a computation in the state-and-exception monad [M].
    - The native decoder is opaque: the state keeps the history of native
      calls, and two oracles give the value each call returns and the
      content of the WebAssembly heap after a given history. *)

From Stdlib Require Import ZArith List Lia Bool QArith Qabs Qround.
From Stdlib Require Import Strings.Byte.
From Stdlib Require Import Floats.SpecFloat.
From Stdlib Require Strings.String.
Import ListNotations.
Local Open Scope Z_scope.

(** ** JavaScript numbers *)
Module JS.

(** [ToInt32]: reduction modulo 2^32 into the signed range. *)
Definition ToInt32 (z : Z) : Z := (z + 2 ^ 31) mod 2 ^ 32 - 2 ^ 31.

(** [v << n], [v >> n], [a & b], [a | b] on integer-valued numbers. *)
Definition shl (v n : Z) : Z := ToInt32 (Z.shiftl (ToInt32 v) n).
Definition sar (v n : Z) : Z := Z.shiftr (ToInt32 v) n.
Definition band (a b : Z) : Z := Z.land (ToInt32 a) (ToInt32 b).
Definition bor (a b : Z) : Z := Z.lor (ToInt32 a) (ToInt32 b).

(** Doubles. *)
Definition prec : Z := 53.
Definition emax : Z := 1024.
Definition number : Type := spec_float.

Definition of_Z (z : Z) : number := binary_normalize prec emax z 0 false.
Definition add (x y : number) : number := SFadd prec emax x y.
Definition mul (x y : number) : number := SFmul prec emax x y.
Definition div (x y : number) : number := SFdiv prec emax x y.

(** The literal [0.000048]: the double nearest to 48/10^6,
    0x1.92a737110e454p-15. *)
Definition lit_0_000048 : number :=
  S754_finite false 0x192a737110e454 (-67).

(** [Math.floor] of a finite double, as an integer; [None] for NaN and the
    infinities, which are no integers. *)
Definition Math_floor (x : number) : option Z :=
  match x with
  | S754_zero _ => Some 0
  | S754_finite s m e =>
      let n := if s then Z.neg m else Z.pos m in
      Some (if 0 <=? e then n * 2 ^ e else n / 2 ^ (- e))
  | S754_infinity _ | S754_nan => None
  end.

(** [ToIndex], as applied by [new Float32Array(length)]: NaN is 0, the
    fraction is dropped, and a result outside [0, 2^53 - 1] raises
    [RangeError] ([None]).  The engine's own limit on the size of an
    allocation is not modelled. *)
Definition ToIndex (x : number) : option Z :=
  match x with
  | S754_nan | S754_zero _ => Some 0
  | S754_infinity _ => None
  | S754_finite s m e =>
      let a := if 0 <=? e then Z.pos m * 2 ^ e else Z.pos m / 2 ^ (- e) in
      if s then (if a =? 0 then Some 0 else None)
      else if a <=? 2 ^ 53 - 1 then Some a else None
  end.

(** The exact rational value of a finite double. *)
Definition to_Q (x : number) : option Q :=
  match x with
  | S754_zero _ => Some 0%Q
  | S754_finite s m e =>
      let n := if s then Z.neg m else Z.pos m in
      Some (if 0 <=? e then inject_Z (n * 2 ^ e)
            else Qmake n (Z.to_pos (2 ^ (- e))))
  | S754_infinity _ | S754_nan => None
  end.

(** The value of an IEEE interchange encoding with [mw] fraction bits and
    [ew] exponent bits, as a double.  Every binary32 value is a binary64
    value, so [getFloat32] loses nothing. *)
Definition of_bits (mw ew : Z) (bits : Z) : number :=
  let s := Z.testbit bits (mw + ew) in
  let e := Z.land (Z.shiftr bits mw) (2 ^ ew - 1) in
  let m := Z.land bits (2 ^ mw - 1) in
  let bias := 2 ^ (ew - 1) - 1 in
  if e =? 2 ^ ew - 1 then (if m =? 0 then S754_infinity s else S754_nan)
  else if e =? 0 then
    binary_normalize prec emax (if s then - m else m) (1 - bias - mw) s
  else
    binary_normalize prec emax
      (if s then - (m + 2 ^ mw) else m + 2 ^ mw) (e - bias - mw) s.

End JS.

(** ** Constant tables *)

(** [VINT_SIZES[b]]: the byte length announced by the leading byte [b] of a
    variable-length integer (0 for the reserved marker [0x00]). *)
Definition VINT_SIZES : list Z :=
  [
     0; 8; 7; 7; 6; 6; 6; 6; 5; 5; 5; 5; 5; 5; 5; 5; 4; 4; 4; 4; 4; 4; 4; 4; 4; 4; 4; 4; 4; 4; 4; 4;
     3; 3; 3; 3; 3; 3; 3; 3; 3; 3; 3; 3; 3; 3; 3; 3; 3; 3; 3; 3; 3; 3; 3; 3; 3; 3; 3; 3; 3; 3; 3; 3;
     2; 2; 2; 2; 2; 2; 2; 2; 2; 2; 2; 2; 2; 2; 2; 2; 2; 2; 2; 2; 2; 2; 2; 2; 2; 2; 2; 2; 2; 2; 2; 2;
     2; 2; 2; 2; 2; 2; 2; 2; 2; 2; 2; 2; 2; 2; 2; 2; 2; 2; 2; 2; 2; 2; 2; 2; 2; 2; 2; 2; 2; 2; 2; 2;
     1; 1; 1; 1; 1; 1; 1; 1; 1; 1; 1; 1; 1; 1; 1; 1; 1; 1; 1; 1; 1; 1; 1; 1; 1; 1; 1; 1; 1; 1; 1; 1;
     1; 1; 1; 1; 1; 1; 1; 1; 1; 1; 1; 1; 1; 1; 1; 1; 1; 1; 1; 1; 1; 1; 1; 1; 1; 1; 1; 1; 1; 1; 1; 1;
     1; 1; 1; 1; 1; 1; 1; 1; 1; 1; 1; 1; 1; 1; 1; 1; 1; 1; 1; 1; 1; 1; 1; 1; 1; 1; 1; 1; 1; 1; 1; 1;
     1; 1; 1; 1; 1; 1; 1; 1; 1; 1; 1; 1; 1; 1; 1; 1; 1; 1; 1; 1; 1; 1; 1; 1; 1; 1; 1; 1; 1; 1; 1; 1
  ].

Definition VINT_MASKS : list Z := [255; 127; 63; 31; 15; 7; 3; 1; 0].

(** ["A_OPUS"] *)
Definition OPUS_SIG : list Z := [65; 95; 79; 80; 85; 83].

(** Table lookup [table[i]].  Every index used by the script is in range
    (a byte for [VINT_SIZES], an entry of [VINT_SIZES] for [VINT_MASKS], a
    loop counter below 6 for [OPUS_SIG]). *)
Definition index (table : list Z) (i : Z) : Z := nth (Z.to_nat i) table 0.

(** ** [DataView] over the job's [ArrayBuffer]

    A read outside the buffer raises [RangeError]; here it is [None].
    Multi-byte reads are big-endian, the default of the [DataView] getters. *)
Module DataView.

Definition t : Type := list byte.

Definition byteLength (data : t) : Z := Z.of_nat (length data).

Definition getUint8 (data : t) (position : Z) : option Z :=
  if 0 <=? position then
    option_map (fun b => Z.of_N (Byte.to_N b))
               (nth_error data (Z.to_nat position))
  else None.

(** Two's-complement reading of a [w]-bit unsigned value. *)
Definition signed (w u : Z) : Z := if u <? 2 ^ (w - 1) then u else u - 2 ^ w.

(** Big-endian unsigned value of [n] bytes from [position]. *)
Fixpoint getUintBE (n : nat) (data : t) (position acc : Z) : option Z :=
  match n with
  | O => Some acc
  | S n' =>
      match getUint8 data position with
      | Some b => getUintBE n' data (position + 1) (acc * 256 + b)
      | None => None
      end
  end.

Definition getInt8 (data : t) (position : Z) : option Z :=
  option_map (signed 8) (getUint8 data position).
Definition getInt16 (data : t) (position : Z) : option Z :=
  option_map (signed 16) (getUintBE 2 data position 0).
Definition getInt32 (data : t) (position : Z) : option Z :=
  option_map (signed 32) (getUintBE 4 data position 0).
Definition getFloat32 (data : t) (position : Z) : option JS.number :=
  option_map (JS.of_bits 23 8) (getUintBE 4 data position 0).
Definition getFloat64 (data : t) (position : Z) : option JS.number :=
  option_map (JS.of_bits 52 11) (getUintBE 8 data position 0).

(** [new Uint8Array(data.buffer, position, size)]: the view must lie inside
    the buffer, else [RangeError]. *)
Definition subarray (data : t) (position size : Z) : option (list byte) :=
  if (0 <=? position) && (0 <=? size) && (position + size <=? byteLength data)
  then Some (firstn (Z.to_nat size) (skipn (Z.to_nat position) data))
  else None.

End DataView.

(** ** The module state and the native interface *)

(** An element of a [Float32Array], as its binary32 bit pattern. *)
Definition sample : Type := Z.

(** Calls into the WebAssembly module.  [_decode_frame] carries the frame
    that [Module.HEAPU8.set(data, _inputPointer)] has just copied into the
    heap. *)
Inductive call : Type :=
| _malloc (size : Z)
| _create_decoder (frequency channels : Z)
| _destroy_decoder (decoder : option Z)
| _decode_frame (decoder : option Z) (input : list byte)
                (inputPointer : option Z) (length : Z)
                (outputPointer : option Z) (maxOutput : Z).

(** The [let] variables of the script ([None] is [null]) and the native
    calls made so far, most recent first.  [_outputBuffer] is the scratch
    view, kept as its length in elements. *)
Record State : Type := mkState {
  _decoder : option Z;
  _audioBuffer : option (list sample);
  _inputPointer : option Z;
  _outputBuffer : option Z;
  _outputPointer : option Z;
  _outputOffset : Z;
  calls : list call
}.

Definition initial : State := mkState None None None None None 0 [].

Definition set_decoder (v : option Z) (s : State) : State :=
  mkState v (_audioBuffer s) (_inputPointer s) (_outputBuffer s)
          (_outputPointer s) (_outputOffset s) (calls s).
Definition set_audioBuffer (v : option (list sample)) (s : State) : State :=
  mkState (_decoder s) v (_inputPointer s) (_outputBuffer s)
          (_outputPointer s) (_outputOffset s) (calls s).
Definition set_inputPointer (v : option Z) (s : State) : State :=
  mkState (_decoder s) (_audioBuffer s) v (_outputBuffer s)
          (_outputPointer s) (_outputOffset s) (calls s).
Definition set_outputBuffer (v : option Z) (s : State) : State :=
  mkState (_decoder s) (_audioBuffer s) (_inputPointer s) v
          (_outputPointer s) (_outputOffset s) (calls s).
Definition set_outputPointer (v : option Z) (s : State) : State :=
  mkState (_decoder s) (_audioBuffer s) (_inputPointer s) (_outputBuffer s)
          v (_outputOffset s) (calls s).
Definition set_outputOffset (v : Z) (s : State) : State :=
  mkState (_decoder s) (_audioBuffer s) (_inputPointer s) (_outputBuffer s)
          (_outputPointer s) v (calls s).
Definition add_call (c : call) (s : State) : State :=
  mkState (_decoder s) (_audioBuffer s) (_inputPointer s) (_outputBuffer s)
          (_outputPointer s) (_outputOffset s) (c :: calls s).

(** The exceptions of the script, and the two built-in ones it can run
    into. *)
Inductive error : Type :=
| InvalidTagLength (tagLength : Z)  (* "Invalid tag length " + tagLength *)
| InvalidSizeLength                 (* "Invalid size length" *)
| InvalidSize                       (* "Invalid size" *)
| FailedToCreateDecoder             (* "Failed to create decoder" *)
| BufferOverflow                    (* "Buffer overflow" *)
| FailedToParseFrame                (* "Failed to parse frame" *)
| LacingNotSupported                (* "Lacing not supported" *)
| CannotDiscardLeading              (* "Cannot discard leading block data" *)
| NonOpusData                       (* "Contains non opus data" *)
| RangeError
| TypeError.

(** What a computation comes to: a value, an exception (the state is the one
    the exception leaves behind: the variables are module-level and survive
    it), no answer within the given fuel, or a step this development does
    not model: the cursor becoming NaN, which no job comes to
    ([OpusDecode_modelled] below). *)
Inductive outcome (A : Type) : Type :=
| Return (a : A) (s : State)
| Throw (e : error) (s : State)
| OutOfFuel
| NotModelled.
Arguments Return {A} a s.
Arguments Throw {A} e s.
Arguments OutOfFuel {A}.
Arguments NotModelled {A}.

Definition M (A : Type) : Type := State -> outcome A.

Definition ret {A} (a : A) : M A := fun s => Return a s.
Definition bind {A B} (c : M A) (k : A -> M B) : M B :=
  fun s =>
    match c s with
    | Return a s' => k a s'
    | Throw e s' => Throw e s'
    | OutOfFuel => OutOfFuel
    | NotModelled => NotModelled
    end.
Definition throw {A} (e : error) : M A := fun s => Throw e s.
Definition get {A} (f : State -> A) : M A := fun s => Return (f s) s.
Definition modify (f : State -> State) : M unit := fun s => Return tt (f s).
(** A [DataView] or typed-array operation that raises [RangeError]. *)
Definition ranged {A} (o : option A) : M A :=
  match o with Some a => ret a | None => throw RangeError end.
(** Dereferencing a variable that may be [null]. *)
Definition nonnull {A} (o : option A) : M A :=
  match o with Some a => ret a | None => throw TypeError end.
(** A number that has to be finite to stay within the model. *)
Definition finite {A} (o : option A) : M A :=
  match o with Some a => ret a | None => fun _ => NotModelled end.

Declare Scope js_scope.
Delimit Scope js_scope with js.
Notation "x <- c ;; k" := (bind c (fun x => k))
  (at level 100, c at next level, right associativity) : js_scope.
Notation "c ;; k" := (bind c (fun _ => k))
  (at level 100, right associativity) : js_scope.
Local Open Scope js_scope.

(** ** Typed arrays and array buffers *)

(** [target.set(source, offset)] on typed arrays; [RangeError] when the
    source does not fit. *)
Definition TypedArray_set (target source : list sample) (offset : Z)
  : option (list sample) :=
  if (0 <=? offset)
     && (offset + Z.of_nat (length source) <=? Z.of_nat (length target))
  then Some (firstn (Z.to_nat offset) target ++ source
             ++ skipn (Z.to_nat offset + length source) target)
  else None.

(** The byte range [first, final) selected by
    [ArrayBuffer.prototype.slice(begin, end)] on a buffer of [len] bytes: a
    negative bound counts from the end of the buffer. *)
Definition slice_bounds (len begin end_ : Z) : Z * Z :=
  let first := if begin <? 0 then Z.max (len + begin) 0 else Z.min begin len in
  let final := if end_ <? 0 then Z.max (len + end_) 0 else Z.min end_ len in
  (first, final).

(** [audio.buffer.slice(begin, end)] for a [Float32Array] over its own whole
    buffer (4 bytes per element) and bounds that are multiples of 4, which
    is how the script calls it; the new buffer is given by the samples it
    holds. *)
Definition ArrayBuffer_slice (audio : list sample) (begin end_ : Z)
  : list sample :=
  let '(first, final) := slice_bounds (4 * Z.of_nat (length audio)) begin end_ in
  let newLen := Z.max (final - first) 0 in
  firstn (Z.to_nat (newLen / 4)) (skipn (Z.to_nat (first / 4)) audio).

Definition byteLength (buffer : list sample) : Z := 4 * Z.of_nat (length buffer).

(** Truthiness of a variable holding an object or [null], and of one holding
    a number or [null]. *)
Definition truthy_object {A} (o : option A) : bool :=
  match o with Some _ => true | None => false end.
Definition truthy_number (o : option Z) : bool :=
  match o with Some n => negb (n =? 0) | None => false end.
(** [null] in arithmetic and as a byte offset is 0. *)
Definition ToNumber (o : option Z) : Z :=
  match o with Some n => n | None => 0 end.

(** [switch] labels. *)
Definition is_case (id : Z) (labels : list Z) : bool := existsb (Z.eqb id) labels.

(** ** The script *)
Section Program.

(** The WebAssembly module: the value a native call returns after a given
    history of calls, and the float stored at a byte address of
    [Module.HEAPU8.buffer] after a given history.  The heap is taken to be
    large enough for every view the script opens on it and every frame it
    copies into it, and the pointers it is given to be aligned. *)
Variable returns : list call -> call -> Z.
Variable HEAPF32 : list call -> Z -> sample.

Definition native (c : call) : M Z :=
  fun s => Return (returns (calls s) c) (add_call c s).

(** [new Float32Array(Module.HEAPU8.buffer, byteOffset, length)], by the
    elements it shows. *)
Definition Float32Array_on_heap (byteOffset length : Z) : M (list sample) :=
  if length <? 0 then throw RangeError
  else fun s =>
    Return (map (fun i => HEAPF32 (calls s) (byteOffset + 4 * Z.of_nat i))
                (seq 0 (Z.to_nat length))) s.

(** [for (let i = 1; i < length; i++)
       value = (value << 8) + data.getUint8(position + i)] *)
Fixpoint ReadVInt_loop (n : nat) (data : DataView.t) (position i value : Z)
  : option Z :=
  match n with
  | O => Some value
  | S n' =>
      match DataView.getUint8 data (position + i) with
      | Some b => ReadVInt_loop n' data position (i + 1) (JS.shl value 8 + b)
      | None => None
      end
  end.

Definition ReadVInt (data : DataView.t) (position length initialMask : Z)
  : option Z :=
  match DataView.getUint8 data position with
  | Some b =>
      ReadVInt_loop (Z.to_nat (length - 1)) data position 1
                    (JS.band b initialMask)
  | None => None
  end.

Definition ReadInt24 (data : DataView.t) (position : Z) : option Z :=
  match DataView.getInt8 data position, DataView.getUint8 data position with
  | Some first, Some b =>
      let sign := JS.sar first 7 in
      let value := JS.band first 127 in
      let value := JS.bor (JS.shl value 8) b in
      let value := JS.bor (JS.shl value 8) b in
      Some (if sign =? 1 then - value else value)
  | _, _ => None
  end.

Definition ParseIntTag (data : DataView.t) (position size : Z) : M Z :=
  if size =? 1 then ranged (DataView.getInt8 data position)
  else if size =? 2 then ranged (DataView.getInt16 data position)
  else if size =? 3 then ranged (ReadInt24 data position)
  else if size =? 4 then ranged (DataView.getInt32 data position)
  else throw InvalidSize.

Definition CalculateAudioBufferSize (rate channels duration : JS.number)
  : JS.number :=
  JS.mul (JS.mul (JS.div rate (JS.of_Z 1000)) channels) duration.

Definition CreateDecoder (duration : JS.number) : M unit :=
  let frequency := 48000 in
  let channels := 1 in
  let bufferSize := 2048 in
  let length :=
    CalculateAudioBufferSize (JS.of_Z frequency) (JS.of_Z channels)
                             (JS.add duration (JS.of_Z 120)) in
  n <- ranged (JS.ToIndex length) ;;
  modify (set_audioBuffer (Some (repeat 0 (Z.to_nat n)))) ;;
  outputBuffer <- get _outputBuffer ;;
  (if truthy_object outputBuffer then ret tt
   else
     p <- native (_malloc (JS.shl bufferSize 2)) ;;
     modify (set_outputPointer (Some p)) ;;
     modify (set_outputBuffer (Some bufferSize))) ;;
  inputPointer <- get _inputPointer ;;
  (if truthy_number inputPointer then ret tt
   else
     p <- native (_malloc bufferSize) ;;
     modify (set_inputPointer (Some p))) ;;
  d <- native (_create_decoder frequency channels) ;;
  modify (set_decoder (Some d)) ;;
  if d <? 0 then throw FailedToCreateDecoder else ret tt.

Definition DestroyDecoder : M unit :=
  decoder <- get _decoder ;;
  native (_destroy_decoder decoder) ;;
  modify (set_decoder None) ;;
  modify (set_outputOffset 0).

Definition WriteOutput (ret_ : Z) : M unit :=
  offset <- get _outputOffset ;;
  (if 0 <? ret_ + offset then
     outputPointer <- get _outputPointer ;;
     tempBuffer <-
       (if offset <? 0 then
          let trim := - offset in
          Float32Array_on_heap (ToNumber outputPointer + trim * 4)
                               (ret_ - trim)
        else Float32Array_on_heap (ToNumber outputPointer) ret_) ;;
     let writePosition := if offset <? 0 then 0 else offset in
     audio <- get _audioBuffer ;;
     audioBuffer <- nonnull audio ;;
     if Z.of_nat (length audioBuffer)
        <? writePosition + Z.of_nat (length tempBuffer)
     then throw BufferOverflow
     else
       written <- ranged (TypedArray_set audioBuffer tempBuffer writePosition) ;;
       modify (set_audioBuffer (Some written))
   else ret tt) ;;
  offset <- get _outputOffset ;;
  modify (set_outputOffset (offset + ret_)).

Definition ParseFrame (data : list byte) : M unit :=
  let length := Z.of_nat (length data) in
  decoder <- get _decoder ;;
  inputPointer <- get _inputPointer ;;
  outputPointer <- get _outputPointer ;;
  ret_ <- native (_decode_frame decoder data inputPointer length
                                outputPointer 4096) ;;
  if 0 <? ret_ then WriteOutput ret_ else throw FailedToParseFrame.

Definition ParseBlock (data : DataView.t) (position size : Z) : M unit :=
  firstByte <- ranged (DataView.getUint8 data position) ;;
  let tagLength := index VINT_SIZES firstByte in
  let position := position + tagLength in
  let position := position + 2 in
  flags <- ranged (DataView.getUint8 data position) ;;
  let position := position + 1 in
  let size := size - (tagLength + 3) in
  let lacing := JS.band flags 6 in
  if negb (lacing =? 0) then throw LacingNotSupported
  else
    frame <- ranged (DataView.subarray data position size) ;;
    ParseFrame frame.

Definition ParseDuration (data : DataView.t) (position size : Z) : M unit :=
  duration <-
    (if size =? 4 then ranged (DataView.getFloat32 data position)
     else if size =? 8 then ranged (DataView.getFloat64 data position)
     else throw InvalidSize) ;;
  CreateDecoder duration.

(** [Math.floor(discardDuration * 0.000048)] *)
Definition frames_of_ns (discardDuration : Z) : option Z :=
  JS.Math_floor (JS.mul (JS.of_Z discardDuration) JS.lit_0_000048).

Definition ParseDiscard (data : DataView.t) (position size : Z) : M unit :=
  discardDuration <- ParseIntTag data position size ;;
  if discardDuration <? 0 then throw CannotDiscardLeading
  else
    discardFrames <- finite (frames_of_ns discardDuration) ;;
    offset <- get _outputOffset ;;
    modify (set_outputOffset (offset - discardFrames)).

Definition ParseDelay (data : DataView.t) (position size : Z) : M unit :=
  discardDuration <- ranged (ReadVInt data position size 255) ;;
  discardFrames <- finite (frames_of_ns discardDuration) ;;
  modify (set_outputOffset (- discardFrames)).

(** [for (let i = 0, l = 6; i < l; i++) ...] *)
Fixpoint TestOpus_loop (n : nat) (data : DataView.t) (position i : Z)
  : M unit :=
  match n with
  | O => ret tt
  | S n' =>
      b <- ranged (DataView.getUint8 data (position + i)) ;;
      if negb (b =? index OPUS_SIG i) then throw NonOpusData
      else TestOpus_loop n' data position (i + 1)
  end.

Definition TestOpus (data : DataView.t) (position : Z) : M unit :=
  TestOpus_loop 6 data position 0.

(** [while (cond(position)) position = body(position)]; every iteration
    takes one unit of fuel. *)
Fixpoint while_loop (fuel : nat) (cond : Z -> bool) (body : Z -> M Z)
         (position : Z) {struct fuel} : M unit :=
  if cond position then
    match fuel with
    | O => fun _ => OutOfFuel
    | S fuel' =>
        position' <- body position ;;
        while_loop fuel' cond body position'
    end
  else ret tt.

(** The [switch (id)] of [ParseMaster]; [recurse] is [ParseMaster]
    itself. *)
Definition ParseMaster_switch (recurse : DataView.t -> Z -> Z -> M unit)
           (data : DataView.t) (id position size : Z) : M unit :=
  if is_case id [408125543 (* Segment *); 357149030 (* Info *);
                 524531317 (* Cluster *); 374648427 (* Tracks *);
                 174 (* TrackEntry *); 160 (* BlockGroup *)]
  then recurse data position size
  else if id =? 17545 (* Duration *)
  then ParseDuration data position size
  else if id =? 22186 (* CodecDelay *)
  then ParseDelay data position size
  else if id =? 30114 (* DiscardPadding *)
  then ParseDiscard data position size
  else if id =? 134 (* CodecID *)
  then TestOpus data position
  else if is_case id [161 (* Block *); 163 (* SimpleBlock *)]
  then ParseBlock data position size
  else ret tt.

(** One iteration of the loop of [ParseMaster], from [position] at the
    first byte of an element to the value of [position] at the end of the
    iteration. *)
Definition ParseMaster_body (recurse : DataView.t -> Z -> Z -> M unit)
           (data : DataView.t) (position : Z) : M Z :=
  firstByte <- ranged (DataView.getUint8 data position) ;;
  let tagLength := index VINT_SIZES firstByte in
  if (4 <? tagLength) || (tagLength =? 0)
  then throw (InvalidTagLength tagLength)
  else
    id <- ranged (ReadVInt data position tagLength 255) ;;
    let position := position + tagLength in
    firstByte <- ranged (DataView.getUint8 data position) ;;
    let sizeLength := index VINT_SIZES firstByte in
    let mask := index VINT_MASKS sizeLength in
    if sizeLength =? 0 then throw InvalidSizeLength
    else
      size <- ranged (ReadVInt data position sizeLength mask) ;;
      let position := position + sizeLength in
      ParseMaster_switch recurse data id position size ;;
      ret (position + size).

(** The recursion of [ParseMaster] is not bounded by the input (a size
    field can decode to a negative number and send the cursor backwards),
    so the function takes fuel: a nested call and a loop iteration each
    take one unit. *)
Fixpoint ParseMaster (fuel : nat) (data : DataView.t) (position length : Z)
  : M unit :=
  match fuel with
  | O => fun _ => OutOfFuel
  | S fuel' =>
      let end_ := position + length in
      while_loop fuel' (fun position => position <? end_)
                 (ParseMaster_body (ParseMaster fuel') data) position
  end.

(** The job handler, after [await readyPromise]; the value is the
    [result] field of the object it returns. *)
Definition OpusDecode (fuel : nat) (arrayBuffer : list byte)
  : M (list sample) :=
  ParseMaster fuel arrayBuffer 0 (DataView.byteLength arrayBuffer) ;;
  end_ <- get _outputOffset ;;
  DestroyDecoder ;;
  audio <- get _audioBuffer ;;
  audioBuffer <- nonnull audio ;;
  let outputBuffer := ArrayBuffer_slice audioBuffer 0 (end_ * 4) in
  modify (set_audioBuffer None) ;;
  ret outputBuffer.

End Program.

Arguments native returns c s /.

(** ** A stand-in native module

    Used to run the script on concrete containers.  A frame whose first
    byte is [b] decodes to [48 * b] samples (its duration in milliseconds at
    48 kHz); an empty frame is an error.  Allocations are laid out one after
    the other, and the float at a heap address is numbered after it. *)
Module Stub.

Fixpoint allocated (history : list call) : Z :=
  match history with
  | [] => 0
  | _malloc size :: h => size + allocated h
  | _ :: h => allocated h
  end.

Definition returns (history : list call) (c : call) : Z :=
  match c with
  | _malloc _ => 65536 + allocated history
  | _create_decoder _ _ => 1048576
  | _destroy_decoder _ => 0
  | _decode_frame _ input _ _ _ _ =>
      match input with
      | [] => -1
      | b :: _ => 48 * Z.of_N (Byte.to_N b)
      end
  end.

Definition HEAPF32 (history : list call) (address : Z) : sample :=
  1000000 * Z.of_nat (length history) + address / 4.

Definition OpusDecode := OpusDecode returns HEAPF32.
Definition ParseMaster := ParseMaster returns HEAPF32.

End Stub.

(** * The runtime around the native module

    Numbers here are integers throughout; sums and products stay far below
    2^53, where doubles are exact. *)

(** [ToUint32], and [v >>> n] for a shift count below 32. *)
Definition ToUint32 (z : Z) : Z := z mod 2 ^ 32.
Definition ushr (v n : Z) : Z := Z.shiftr (ToUint32 v) n.

(** The stand-in installed for [Math.imul] where the engine has none. *)
Definition imul (a b : Z) : Z :=
  let ah := ushr a 16 in
  let al := JS.band a 65535 in
  let bh := ushr b 16 in
  let bl := JS.band b 65535 in
  JS.bor (al * bl + JS.shl (ah * bl + al * bh) 16) 0.

(** The stand-in installed for [Math.clz32]:
    [for (let i = 0; i < 32; i++) if (x & 1 << 31 - i) return i] *)
Fixpoint clz32_loop (n : nat) (x i : Z) : Z :=
  match n with
  | O => 32
  | S n' =>
      if negb (JS.band x (JS.shl 1 (31 - i)) =? 0) then i
      else clz32_loop n' x (i + 1)
  end.

Definition clz32 (x : Z) : Z :=
  let x := ushr x 0 in
  clz32_loop 32 x 0.

(** [Runtime.stackAlloc] and [Runtime.staticAlloc], with [STACKTOP] and
    [STATICTOP] passed in and handed back beside the address returned. *)
Module Runtime.

Definition stackAlloc (size STACKTOP : Z) : Z * Z :=
  let ret := STACKTOP in
  let STACKTOP := JS.bor (STACKTOP + size) 0 in
  let STACKTOP := JS.band (STACKTOP + 15) (-16) in
  (ret, STACKTOP).

Definition staticAlloc (size STATICTOP : Z) : Z * Z :=
  let ret := STATICTOP in
  let STATICTOP := JS.bor (STATICTOP + size) 0 in
  let STATICTOP := JS.band (STATICTOP + 15) (-16) in
  (ret, STATICTOP).

End Runtime.

(** [alignUp]; the remainder [%] takes the sign of the dividend and is NaN
    for a zero divisor, which no comparison holds of. *)
Definition alignUp (x multiple : Z) : Z :=
  if multiple =? 0 then x
  else if 0 <? Z.rem x multiple then x + (multiple - Z.rem x multiple)
  else x.

(** ** Strings as UTF-16 code units *)

(** [String.fromCharCode] keeps the low 16 bits of each code. *)
Definition fromCharCode (codes : list Z) : list Z :=
  map (fun code => code mod 2 ^ 16) codes.

Definition createUTF16Pair (u0 : Z) : list Z :=
  if u0 <? 65536 then fromCharCode [u0]
  else
    let ch := u0 - 65536 in
    fromCharCode [JS.bor 55296 (JS.sar ch 10); JS.bor 56320 (JS.band ch 1023)].

(** The code point [lengthBytesUTF8] makes of a surrogate [u] and the code
    unit after it; past the end of the string [charCodeAt] is NaN, which
    [&] takes for 0. *)
Definition surrogate_pair_value (u : Z) (next : option Z) : Z :=
  JS.bor (65536 + JS.shl (JS.band u 1023) 10)
         (match next with Some v => JS.band v 1023 | None => 0 end).

(** The loop of [lengthBytesUTF8] from index [i] on, [str] being the code
    units from that index. *)
Fixpoint lengthBytesUTF8_loop (str : list Z) (len : Z) : Z :=
  let count u :=
    if u <=? 127 then len + 1
    else if u <=? 2047 then len + 2
    else if u <=? 65535 then len + 3
    else if u <=? 2097151 then len + 4
    else if u <=? 67108863 then len + 5
    else len + 6 in
  match str with
  | [] => len
  | u :: rest =>
      if (55296 <=? u) && (u <=? 57343) then
        match rest with
        | [] => count (surrogate_pair_value u None)
        | next :: rest' =>
            lengthBytesUTF8_loop rest' (count (surrogate_pair_value u (Some next)))
        end
      else lengthBytesUTF8_loop rest (count u)
  end.

Definition lengthBytesUTF8 (str : list Z) : Z := lengthBytesUTF8_loop str 0.

(** ** UTF-8 in the heap *)

(** [u8Array[i]]; [None] is [undefined], the value of an index outside the
    array. *)
Definition element (u8Array : list Z) (i : Z) : option Z :=
  if i <? 0 then None else nth_error u8Array (Z.to_nat i).

(** An element under [&]: [undefined] is taken for 0. *)
Definition operand (o : option Z) : Z :=
  match o with Some v => v | None => 0 end.

(** [while (u8Array[endPtr]) ++endPtr]; the loop ends at the end of the
    array at the latest, which the fuel allows for. *)
Fixpoint findStringEnd_loop (n : nat) (u8Array : list Z) (endPtr : Z) : Z :=
  match n with
  | O => endPtr
  | S n' =>
      match element u8Array endPtr with
      | Some v =>
          if v =? 0 then endPtr else findStringEnd_loop n' u8Array (endPtr + 1)
      | None => endPtr
      end
  end.

Definition findStringEnd (u8Array : list Z) (idx : Z) : Z :=
  findStringEnd_loop (length u8Array) u8Array idx.

(** [idx] is the index after the byte [u0]. *)
Definition decodeCodePoint (u8Array : list Z) (u0 idx : Z) : list Z :=
  if JS.band u0 128 =? 0 then fromCharCode [u0]
  else
    let u1 := JS.band (operand (element u8Array idx)) 63 in
    if JS.band u0 224 =? 192
    then fromCharCode [JS.bor (JS.shl (JS.band u0 31) 6) u1]
    else
      let u2 := JS.band (operand (element u8Array (idx + 1))) 63 in
      let u0 :=
        if JS.band u0 240 =? 224
        then JS.bor (JS.bor (JS.shl (JS.band u0 15) 12) (JS.shl u1 6)) u2
        else
          let u3 := JS.band (operand (element u8Array (idx + 2))) 63 in
          if JS.band u0 248 =? 240
          then JS.bor (JS.bor (JS.bor (JS.shl (JS.band u0 7) 18)
                                      (JS.shl u1 12)) (JS.shl u2 6)) u3
          else
            let u4 := JS.band (operand (element u8Array (idx + 3))) 63 in
            if JS.band u0 252 =? 248
            then JS.bor (JS.bor (JS.bor (JS.bor (JS.shl (JS.band u0 3) 24)
                                                (JS.shl u1 18))
                                        (JS.shl u2 12)) (JS.shl u3 6)) u4
            else
              let u5 := JS.band (operand (element u8Array (idx + 4))) 63 in
              JS.bor (JS.bor (JS.bor (JS.bor (JS.bor
                        (JS.shl (JS.band u0 1) 30) (JS.shl u1 24))
                        (JS.shl u2 18)) (JS.shl u3 12)) (JS.shl u4 6)) u5 in
      createUTF16Pair u0.

(** The loop of [decodeUTF8], which runs at most [endPtr - idx] times:
    [decodeCodePoint] has its own copy of [idx], so that the loop moves on
    by one byte whatever the length of the sequence that was decoded. *)
Fixpoint decodeUTF8_loop (n : nat) (u8Array : list Z) (idx : Z)
         (str : list Z) : list Z :=
  match n with
  | O => str
  | S n' =>
      match element u8Array idx with
      | Some u0 =>
          if u0 =? 0 then str
          else decodeUTF8_loop n' u8Array (idx + 1)
                 (str ++ decodeCodePoint u8Array u0 (idx + 1))
      | None => str
      end
  end.

Definition decodeUTF8 (u8Array : list Z) (idx endPtr : Z) : list Z :=
  decodeUTF8_loop (Z.to_nat (endPtr - idx)) u8Array idx [].

(** [UTF8ArrayToString]; [UTF8Decoder] tells whether the array has a
    [subarray] method and the engine a [TextDecoder], which a string of more
    than 16 bytes then goes to; that decoder is outside this development
    ([None]). *)
Definition UTF8ArrayToString (UTF8Decoder : bool) (u8Array : list Z) (idx : Z)
  : option (list Z) :=
  let endPtr := findStringEnd u8Array idx in
  if (16 <? endPtr - idx) && UTF8Decoder then None
  else Some (decodeUTF8 u8Array idx endPtr).

(** * The offline cache of the service worker

    The part of the file after the runtime.  Promises are taken in the
    order their callbacks run; [self.registration.scope], the keys of
    [caches] and the clients reported by [clients.matchAll] are
    arguments. *)
Module ServiceWorker.

Import Stdlib.Strings.String.
Local Open Scope string_scope.

Definition CACHE_NAME_PREFIX : string := "c2offline".

Definition GetCacheBaseName (scope : string) : string :=
  CACHE_NAME_PREFIX ++ "-" ++ scope.

(** [version] is the version as [+] writes it into the name. *)
Definition GetCacheVersionName (scope version : string) : string :=
  GetCacheBaseName scope ++ "-v" ++ version.

(** [cacheNames] is what [caches.keys()] resolves to. *)
Definition GetAvailableCacheNames (scope : string) (cacheNames : list string)
  : list string :=
  let cacheBaseName := GetCacheBaseName scope in
  filter (fun n => prefix cacheBaseName n) cacheNames.

Definition IsUpdatePending (scope : string) (cacheNames : list string) : bool :=
  (2 <=? List.length (GetAvailableCacheNames scope cacheNames))%nat.

(** The URLs of the clients, in the order of [clients.matchAll]. *)
Fixpoint GetMainPageUrl (scope : string) (clients : list string) : string :=
  match clients with
  | [] => ""
  | c :: clients' =>
      let url := c in
      let url :=
        if prefix scope url
        then substring (length scope) (length url - length scope) url
        else url in
      if negb (url =? "") && negb (url =? "/")
      then (if prefix "?" url then "/" ++ url else url)
      else GetMainPageUrl scope clients'
  end.

(** The content of the array [fileList] when [prepareFileList] returns. *)
Definition prepareFileList (fileList : list string) (mainPageUrl : string)
  : list string :=
  let fileList := "./" :: fileList in
  if negb (mainPageUrl =? "")
     && negb (existsb (String.eqb mainPageUrl) fileList)
  then mainPageUrl :: fileList
  else fileList.

(** The names [deleteOldCaches] hands to [caches.delete]:
    [availableCacheNames.slice(0, -1)]. *)
Definition deleteOldCaches (availableCacheNames : list string) : list string :=
  removelast availableCacheNames.

(** The name [resolveCacheName] resolves to ([None] for [undefined]) and the
    names it has deleted by then; [clients] is the number of clients
    [clients.matchAll()] reports. *)
Definition resolveCacheName (availableCacheNames : list string)
           (isNavigateRequest : bool) (clients : nat)
  : option string * list string :=
  if (List.length availableCacheNames =? 1)%nat || negb isNavigateRequest
  then (nth_error availableCacheNames 0, [])
  else if (1 <? clients)%nat
  then (nth_error availableCacheNames 0, [])
  else
    let latestCacheName :=
      nth_error availableCacheNames (List.length availableCacheNames - 1) in
    (latestCacheName, deleteOldCaches availableCacheNames).

End ServiceWorker.

(** * Notions used in the statements *)

(** ** Element headers *)

(** The header the walker decodes at [position]: an ID of [tagLength]
    bytes and a size field of [sizeLength] bytes, both accepted by the
    walker's checks. *)
Definition header_at (data : DataView.t)
           (position tagLength id sizeLength size : Z) : Prop :=
  exists idByte sizeByte,
    DataView.getUint8 data position = Some idByte
    /\ tagLength = index VINT_SIZES idByte
    /\ 1 <= tagLength <= 4
    /\ ReadVInt data position tagLength 255 = Some id
    /\ DataView.getUint8 data (position + tagLength) = Some sizeByte
    /\ sizeLength = index VINT_SIZES sizeByte
    /\ sizeLength <> 0
    /\ ReadVInt data (position + tagLength) sizeLength
                (index VINT_MASKS sizeLength) = Some size.

(** ** Decoded samples *)

(** The [count] floats that follow the first [first] floats of the scratch
    area at [_outputPointer], as the heap holds them in state [s]. *)
Definition scratch (HEAPF32 : list call -> Z -> sample) (s : State)
           (first count : Z) : list sample :=
  map (fun i => HEAPF32 (calls s)
                  (ToNumber (_outputPointer s) + first * 4 + 4 * Z.of_nat i))
      (seq 0 (Z.to_nat count)).

(** The call [ParseFrame] makes in state [s], and the number of samples
    the decoder reports for it. *)
Definition decode_call (frame : list byte) (s : State) : call :=
  _decode_frame (_decoder s) frame (_inputPointer s)
                (Z.of_nat (length frame)) (_outputPointer s) 4096.
Definition decoded_count (returns : list call -> call -> Z)
           (frame : list byte) (s : State) : Z :=
  returns (calls s) (decode_call frame s).

(** ** Reference readings

    Written after the specification, to be compared with the script. *)

(** The signed big-endian integer of [size] bytes at [position], in two's
    complement. *)
Definition spec_signed_BE (data : DataView.t) (position size : Z) : option Z :=
  option_map (DataView.signed (8 * size))
             (DataView.getUintBE (Z.to_nat size) data position 0).

(** ** The states of [CreateDecoder]

    The state after each of the four steps of [CreateDecoder], for a buffer
    of [n] floats: the allocation of the output buffer, of the scratch area,
    of the input area, and the creation of the decoder. *)
Definition with_audio (n : Z) (s : State) : State :=
  set_audioBuffer (Some (repeat 0 (Z.to_nat n))) s.
Definition with_scratch (returns : list call -> call -> Z) (s : State)
  : State :=
  if truthy_object (_outputBuffer s) then s
  else set_outputBuffer (Some 2048)
         (set_outputPointer (Some (returns (calls s) (_malloc 8192)))
            (add_call (_malloc 8192) s)).
Definition with_input (returns : list call -> call -> Z) (s : State)
  : State :=
  if truthy_number (_inputPointer s) then s
  else set_inputPointer (Some (returns (calls s) (_malloc 2048)))
         (add_call (_malloc 2048) s).
Definition with_decoder (returns : list call -> call -> Z) (s : State)
  : State :=
  set_decoder (Some (returns (calls s) (_create_decoder 48000 1)))
              (add_call (_create_decoder 48000 1) s).

(** The length asked of [new Float32Array] for a duration, as a double:
    [48000 / 1e3 * 1 * (duration + 120)] is [48 * (duration + 120)]. *)
Definition buffer_length (duration : JS.number) : JS.number :=
  JS.mul (JS.of_Z 48) (JS.add duration (JS.of_Z 120)).

(** ** Resources across a walk *)

Definition is_destroy (c : call) : bool :=
  match c with _destroy_decoder _ => true | _ => false end.
Definition is_create (c : call) : bool :=
  match c with _create_decoder _ _ => true | _ => false end.

(** [s'] comes after [s] in a walk that has kept what it holds: the calls
    made in between include no [_destroy_decoder], and a decoder or an
    output buffer that [s] had, or that was created in between, is still in
    its variable. *)
Definition keeps_resources (s s' : State) : Prop :=
  exists new,
    calls s' = new ++ calls s
    /\ existsb is_destroy new = false
    /\ (existsb is_create new = true \/ _decoder s <> None ->
        _decoder s' <> None)
    /\ (existsb is_create new = true \/ _audioBuffer s <> None ->
        _audioBuffer s' <> None).

(** A computation that stays within the model and every outcome of which
    keeps the resources. *)
Definition preserves {A} (c : M A) : Prop :=
  forall s,
    match c s with
    | Return _ s' | Throw _ s' => keeps_resources s s'
    | OutOfFuel => True
    | NotModelled => False
    end.

(** ** Mantissas under rounding *)

(** A shifted mantissa that is not negative and has at most [k] binary
    digits. *)
Definition short (k : Z) (mrs : shr_record) : Prop :=
  0 <= shr_m mrs /\ Zdigits2 (shr_m mrs) <= k.

(** ** Elements with a case

    The IDs the [switch] of [ParseMaster] names. *)
Definition known_ids : list Z :=
  [408125543; 357149030; 524531317; 374648427; 174; 160;
   17545; 22186; 30114; 134; 161; 163].

(** ** Ends of walks *)

(** A computation that has an outcome in every state. *)
Definition halts {A} (c : M A) : Prop := forall s, c s <> OutOfFuel.

(** No size field of more than 4 bytes that can be read anywhere in [data]
    decodes to a negative number. *)
Definition long_sizes_nonneg (data : DataView.t) : Prop :=
  forall position sizeByte size,
    DataView.getUint8 data position = Some sizeByte ->
    4 < index VINT_SIZES sizeByte ->
    ReadVInt data position (index VINT_SIZES sizeByte)
             (index VINT_MASKS (index VINT_SIZES sizeByte)) = Some size ->
    0 <= size.

(** ** Steps of a walk *)

Definition is_malloc (c : call) : bool :=
  match c with _malloc _ => true | _ => false end.

(** [s'] comes after [s] in a walk: calls were added; a scratch area or an
    input area that [s] had is where it was; with both in place nothing was
    allocated; and unless a decoder was created in between, the decoder,
    the two areas and the length of the output buffer are those of [s]. *)
Definition walk_frame (s s' : State) : Prop :=
  exists new,
    calls s' = new ++ calls s
    /\ (_outputBuffer s <> None ->
        _outputBuffer s' = _outputBuffer s
        /\ _outputPointer s' = _outputPointer s)
    /\ (truthy_number (_inputPointer s) = true ->
        _inputPointer s' = _inputPointer s)
    /\ (_outputBuffer s <> None -> truthy_number (_inputPointer s) = true ->
        existsb is_malloc new = false)
    /\ (existsb is_create new = false ->
        _decoder s' = _decoder s
        /\ _outputBuffer s' = _outputBuffer s
        /\ _outputPointer s' = _outputPointer s
        /\ _inputPointer s' = _inputPointer s
        /\ option_map (@length sample) (_audioBuffer s')
           = option_map (@length sample) (_audioBuffer s)).

Definition respects (R : State -> State -> Prop) {A} (c : M A) : Prop :=
  forall s,
    match c s with
    | Return _ s' | Throw _ s' => R s s'
    | OutOfFuel | NotModelled => True
    end.

(** ** Elements met by a walk *)

(** The IDs of the master elements, which [ParseMaster] walks into. *)
Definition master_ids : list Z :=
  [408125543; 357149030; 524531317; 374648427; 174; 160].

(** [meets returns HEAPF32 data q t n position end_ s]: the loop of
    [ParseMaster] that starts at [position] in state [s] and goes up to
    [end_] comes to an iteration at [q] in state [t], in the loop itself or
    in the walk of a master element that it enters, however deep.  Either
    the loop starts at [q]; or its first iteration returns and the loop
    goes on from there; or its first iteration is at a master element, and
    the walk of the payload of that element comes to [q].  [n] bounds the
    iterations and the nested calls on the way. *)
Inductive meets (returns : list call -> call -> Z)
          (HEAPF32 : list call -> Z -> sample) (data : DataView.t)
          (q : Z) (t : State) : nat -> Z -> Z -> State -> Prop :=
| meets_here end_ :
    q < end_ -> meets returns HEAPF32 data q t 1 q end_ t
| meets_after n fuel position end_ s position' s' :
    position < end_ ->
    ParseMaster_body returns HEAPF32 (ParseMaster returns HEAPF32 fuel)
                     data position s = Return position' s' ->
    meets returns HEAPF32 data q t n position' end_ s' ->
    meets returns HEAPF32 data q t (S (Nat.max fuel n)) position end_ s
| meets_inside n position end_ s tagLength id sizeLength size :
    position < end_ ->
    header_at data position tagLength id sizeLength size ->
    In id master_ids ->
    meets returns HEAPF32 data q t n
          (position + tagLength + sizeLength)
          (position + tagLength + sizeLength + size) s ->
    meets returns HEAPF32 data q t (S n) position end_ s.

(** The job on [data], begun in state [s0], comes to the element at [q] in
    state [t]. *)
Definition job_meets (returns : list call -> call -> Z)
           (HEAPF32 : list call -> Z -> sample) (data : DataView.t)
           (n : nat) (s0 : State) (q : Z) (t : State) : Prop :=
  meets returns HEAPF32 data q t n 0 (DataView.byteLength data) s0.

(** The job on [data], begun in state [s0], fails with [e] in state [s']:
    so does its walk, with any fuel above [n]. *)
Definition job_fails (returns : list call -> call -> Z)
           (HEAPF32 : list call -> Z -> sample) (data : DataView.t)
           (n : nat) (s0 : State) (e : error) (s' : State) : Prop :=
  forall fuel,
    (n < fuel)%nat ->
    ParseMaster returns HEAPF32 fuel data 0 (DataView.byteLength data) s0
    = Throw e s'
    /\ OpusDecode returns HEAPF32 fuel data s0 = Throw e s'.

(** The Block or SimpleBlock element at [position] holds [frame]: its
    flags byte has no lacing, and [frame] is what follows the track number,
    the timecode and the flags up to the end of the element. *)
Definition block_at (data : DataView.t) (position : Z) (frame : list byte)
  : Prop :=
  exists tagLength id sizeLength size trackByte flags,
    header_at data position tagLength id sizeLength size
    /\ (id = 161 \/ id = 163)
    /\ DataView.getUint8 data (position + tagLength + sizeLength)
       = Some trackByte
    /\ DataView.getUint8 data (position + tagLength + sizeLength
                               + index VINT_SIZES trackByte + 2)
       = Some flags
    /\ Z.land flags 6 = 0
    /\ DataView.subarray data
         (position + tagLength + sizeLength + index VINT_SIZES trackByte + 3)
         (size - (index VINT_SIZES trackByte + 3))
       = Some frame.

(** * Properties *)

(** ** Numbers and reads *)

Lemma ToInt32_small (z : Z) : - 2 ^ 31 <= z < 2 ^ 31 -> JS.ToInt32 z = z.
Proof.
  intros Hz. unfold JS.ToInt32.
  rewrite Z.mod_small by lia. lia.
Qed.

Lemma getUint8_range (data : DataView.t) (position b : Z) :
  DataView.getUint8 data position = Some b -> 0 <= b <= 255.
Proof.
  unfold DataView.getUint8.
  destruct (0 <=? position); [|discriminate].
  destruct (nth_error data (Z.to_nat position)) as [x|]; [|discriminate].
  simpl. intros [= <-].
  pose proof (Byte.to_N_bounded x). lia.
Qed.

Lemma band_byte (b mask : Z) :
  0 <= b <= 255 -> 0 <= mask <= 255 -> JS.band b mask = Z.land b mask.
Proof.
  intros Hb Hm. unfold JS.band.
  now rewrite !ToInt32_small by lia.
Qed.

Lemma shl_8_small (v : Z) : 0 <= v -> v * 256 < 2 ^ 31 -> JS.shl v 8 = v * 256.
Proof.
  intros H0 H1. unfold JS.shl.
  rewrite (ToInt32_small v) by lia.
  rewrite Z.shiftl_mul_pow2 by lia. change (2 ^ 8) with 256.
  apply ToInt32_small. lia.
Qed.

Lemma getUintBE_ge n data position acc v :
  0 <= acc -> DataView.getUintBE n data position acc = Some v -> acc <= v.
Proof.
  revert position acc.
  induction n as [|n IH]; intros position acc Hacc; cbn [DataView.getUintBE].
  - intros [= <-]. lia.
  - destruct (DataView.getUint8 data position) as [b|] eqn:Eb; [|discriminate].
    intros H. pose proof (getUint8_range _ _ _ Eb).
    apply IH in H; lia.
Qed.

(** The loop of [ReadVInt] computes the big-endian value as long as that
    value stays below 2^31, where the 32-bit shift does not wrap. *)
Lemma ReadVInt_loop_big_endian n data position i acc v :
  0 <= acc ->
  DataView.getUintBE n data (position + i) acc = Some v ->
  v < 2 ^ 31 ->
  ReadVInt_loop n data position i acc = Some v.
Proof.
  revert i acc.
  induction n as [|n IH]; intros i acc Hacc;
    cbn [DataView.getUintBE ReadVInt_loop]; [trivial|].
  destruct (DataView.getUint8 data (position + i)) as [b|] eqn:Eb;
    [|discriminate].
  intros H Hv. pose proof (getUint8_range _ _ _ Eb).
  assert (acc * 256 + b <= v) by (eapply getUintBE_ge; [|exact H]; lia).
  rewrite shl_8_small by lia.
  apply IH; [lia | | exact Hv].
  now rewrite Z.add_assoc.
Qed.

(** With the mask [0xFF], as for an element ID or a CodecDelay payload,
    [ReadVInt] reads the unsigned big-endian integer of [size] bytes when
    that integer is below 2^31. *)
Lemma ReadVInt_big_endian data position size v :
  1 <= size ->
  DataView.getUintBE (Z.to_nat size) data position 0 = Some v ->
  v < 2 ^ 31 ->
  ReadVInt data position size 255 = Some v.
Proof.
  intros Hsize.
  replace (Z.to_nat size) with (S (Z.to_nat (size - 1))) by lia.
  cbn [DataView.getUintBE]. unfold ReadVInt.
  destruct (DataView.getUint8 data position) as [b|] eqn:Eb; [|discriminate].
  pose proof (getUint8_range _ _ _ Eb) as Hb.
  rewrite band_byte by lia.
  change 255 with (Z.ones 8). rewrite Z.land_ones by lia.
  rewrite Z.mod_small by (change (2 ^ 8) with 256; lia).
  change (0 * 256 + b) with b.
  apply ReadVInt_loop_big_endian. lia.
Qed.

(** *** Doubles stay finite

    The roundings of [SpecFloat] by the length of the mantissa and the
    exponent they start from: enough to see that the products the script
    forms are numbers. *)

Lemma Zdigits2_nonneg m : 0 <= Zdigits2 m.
Proof. destruct m; cbn; lia. Qed.

Lemma digits2_pos_lt p : Z.pos p < 2 ^ Z.pos (digits2_pos p).
Proof.
  induction p as [p IH|p IH|]; cbn [digits2_pos];
    rewrite ?Pos2Z.inj_succ, ?Z.pow_succ_r by lia; lia.
Qed.

Lemma digits2_pos_le p k : Z.pos p < 2 ^ k -> Z.pos (digits2_pos p) <= k.
Proof.
  revert k. induction p as [p IH|p IH|]; intros k Hk; cbn [digits2_pos].
  - assert (0 < k) by (destruct k; cbn in Hk; lia).
    replace k with (Z.succ (k - 1)) in Hk by lia.
    rewrite Z.pow_succ_r in Hk by lia.
    rewrite Pos2Z.inj_succ. specialize (IH (k - 1)). lia.
  - assert (0 < k) by (destruct k; cbn in Hk; lia).
    replace k with (Z.succ (k - 1)) in Hk by lia.
    rewrite Z.pow_succ_r in Hk by lia.
    rewrite Pos2Z.inj_succ. specialize (IH (k - 1)). lia.
  - destruct k; cbn in Hk; lia.
Qed.

Lemma Zdigits2_le m k : 0 <= m < 2 ^ k -> 0 <= k -> Zdigits2 m <= k.
Proof.
  destruct m as [|p|p]; cbn [Zdigits2]; intros H Hk; [lia| |lia].
  apply digits2_pos_le. lia.
Qed.

Lemma Zdigits2_lt m : 0 <= m -> m < 2 ^ Zdigits2 m.
Proof.
  destruct m as [|p|p]; cbn [Zdigits2]; intros H; [reflexivity| |lia].
  apply digits2_pos_lt.
Qed.

Lemma Zdigits2_succ m : 0 <= m -> Zdigits2 (m + 1) <= Zdigits2 m + 1.
Proof.
  intros H. pose proof (Zdigits2_lt m H). pose proof (Zdigits2_nonneg m).
  apply Zdigits2_le; [|lia].
  rewrite Z.pow_add_r by lia. lia.
Qed.

Lemma Zdigits2_mul a b :
  Zdigits2 (Z.pos (a * b)) <= Zdigits2 (Z.pos a) + Zdigits2 (Z.pos b).
Proof.
  pose proof (Zdigits2_lt (Z.pos a) ltac:(lia)).
  pose proof (Zdigits2_lt (Z.pos b) ltac:(lia)).
  pose proof (Zdigits2_nonneg (Z.pos a)). pose proof (Zdigits2_nonneg (Z.pos b)).
  apply Zdigits2_le; [|lia].
  rewrite Z.pow_add_r by lia. rewrite Pos2Z.inj_mul. nia.
Qed.

Lemma shr_1_short k mrs : short k mrs -> short k (shr_1 mrs).
Proof.
  destruct mrs as [m r s]. unfold short. cbn [shr_m].
  intros [H0 Hk].
  destruct m as [|[p|p|]|p]; cbn [shr_1 shr_m Zdigits2 digits2_pos] in *;
    rewrite ?Pos2Z.inj_succ in Hk; lia.
Qed.

Lemma iter_shr_1_short k p mrs :
  short k mrs -> short k (iter_pos shr_1 p mrs).
Proof.
  revert mrs. induction p as [p IH|p IH|]; intros mrs H; cbn [iter_pos].
  - apply IH, IH, shr_1_short, H.
  - apply IH, IH, H.
  - apply shr_1_short, H.
Qed.

Lemma shr_record_of_loc_m m l : shr_m (shr_record_of_loc m l) = m.
Proof. destruct l as [|[| |]]; reflexivity. Qed.

Lemma shr_fexp_bounds m e l :
  0 <= m ->
  let '(mrs, e') := shr_fexp 53 1024 m e l in
  short (Zdigits2 m) mrs
  /\ e' <= Z.max e (- 1074) + Z.max 0 (Zdigits2 m - 53).
Proof.
  intros Hm. unfold shr_fexp, shr.
  assert (Hrec : short (Zdigits2 m) (shr_record_of_loc m l))
    by (unfold short; rewrite shr_record_of_loc_m; lia).
  unfold fexp, emin.
  destruct (Z.max (Zdigits2 m + e - 53) (3 - 1024 - 53) - e) as [|p|p] eqn:En.
  - split; [exact Hrec | lia].
  - split; [now apply iter_shr_1_short | lia].
  - split; [exact Hrec | lia].
Qed.

Lemma round_nearest_even_bounds m l :
  0 <= m ->
  0 <= round_nearest_even m l
  /\ Zdigits2 (round_nearest_even m l) <= Zdigits2 m + 1.
Proof.
  intros Hm. pose proof (Zdigits2_succ m Hm).
  unfold round_nearest_even.
  destruct l as [|[| |]]; try destruct (Z.even m); split; lia.
Qed.

(** The outcome of a rounding, by the length of the mantissa and the
    exponent it starts from. *)
Lemma binary_round_aux_bounds sx mx ex lx :
  0 <= mx ->
  let bound := Z.max ex (- 1074) + 2 * Z.max 0 (Zdigits2 mx - 52) in
  match binary_round_aux 53 1024 sx mx ex lx with
  | S754_zero _ => True
  | S754_finite _ m e =>
      Zdigits2 (Z.pos m) <= Zdigits2 mx + 1 /\ e <= bound
  | S754_infinity _ => 971 < bound
  | S754_nan => False
  end.
Proof.
  intros Hmx bound. unfold binary_round_aux.
  pose proof (shr_fexp_bounds mx ex lx Hmx) as H1.
  destruct (shr_fexp 53 1024 mx ex lx) as [mrs' e'].
  destruct H1 as [[H1m H1d] H1e].
  pose proof (round_nearest_even_bounds (shr_m mrs') (loc_of_shr_record mrs')
                H1m) as [H2m H2d].
  set (m1 := round_nearest_even (shr_m mrs') (loc_of_shr_record mrs')) in *.
  pose proof (shr_fexp_bounds m1 e' loc_Exact H2m) as H3.
  destruct (shr_fexp 53 1024 m1 e' loc_Exact) as [mrs'' e''].
  destruct H3 as [[H3m H3d] H3e].
  assert (He : e'' <= bound) by (unfold bound; lia).
  destruct (shr_m mrs'') as [|m|m] eqn:Em; [exact I| |lia].
  change (1024 - 53) with 971.
  destruct (Z.leb_spec e'' 971); [split; lia | lia].
Qed.

Lemma digits2_pos_iter_xO p d :
  Z.pos (digits2_pos (Pos.iter xO p d)) = Z.pos (digits2_pos p) + Z.pos d.
Proof.
  induction d as [|d IH] using Pos.peano_ind.
  - cbn. rewrite Pos2Z.inj_succ. lia.
  - rewrite Pos.iter_succ. cbn [digits2_pos].
    rewrite !Pos2Z.inj_succ, IH. lia.
Qed.

Lemma binary_round_bounds sx p :
  Z.pos p < 2 ^ 53 ->
  match binary_round 53 1024 sx p 0 with
  | S754_zero _ => True
  | S754_finite _ m e => Zdigits2 (Z.pos m) <= 54 /\ e <= 2
  | S754_infinity _ | S754_nan => False
  end.
Proof.
  intros Hp. unfold binary_round, shl_align, fexp, emin.
  pose proof (digits2_pos_le p 53 Hp) as Hd.
  set (dp := Z.pos (digits2_pos p)) in *.
  assert (Hshift : exists mz ez,
             (let '(mz, ez) :=
                match Z.max (dp + 0 - 53) (3 - 1024 - 53) - 0 with
                | Z.neg d => (Pos.iter xO p d, Z.max (dp + 0 - 53) (3 - 1024 - 53))
                | _ => (p, 0)
                end in (mz, ez)) = (mz, ez)
             /\ Zdigits2 (Z.pos mz) <= 53 /\ ez <= 0).
  { destruct (Z.max (dp + 0 - 53) (3 - 1024 - 53) - 0) as [|d|d] eqn:Ed.
    - exists p, 0. cbn [Zdigits2]. fold dp. repeat split; lia.
    - exists p, 0. cbn [Zdigits2]. fold dp. repeat split; lia.
    - exists (Pos.iter xO p d), (Z.max (dp + 0 - 53) (3 - 1024 - 53)).
      cbn [Zdigits2]. rewrite digits2_pos_iter_xO. fold dp.
      repeat split; lia. }
  destruct Hshift as (mz & ez & E & Hmz & Hez).
  destruct (match Z.max (dp + 0 - 53) (3 - 1024 - 53) - 0 with
            | Z.neg d => _ | _ => _ end) as [mz' ez'].
  injection E as -> ->.
  pose proof (binary_round_aux_bounds sx (Z.pos mz) ez loc_Exact ltac:(lia))
    as H.
  cbv zeta in H.
  destruct (binary_round_aux 53 1024 sx (Z.pos mz) ez loc_Exact); lia.
Qed.

Lemma of_Z_bounds (D : Z) :
  - 2 ^ 53 < D < 2 ^ 53 ->
  match JS.of_Z D with
  | S754_zero _ => True
  | S754_finite _ m e => Zdigits2 (Z.pos m) <= 54 /\ e <= 2
  | S754_infinity _ | S754_nan => False
  end.
Proof.
  intros HD. unfold JS.of_Z, binary_normalize.
  destruct D as [|p|p]; [exact I| |]; apply binary_round_bounds; lia.
Qed.

(** [Math.floor(discardDuration * 0.000048)] is a number for every integer
    the script can have read. *)
Lemma frames_of_ns_defined (D : Z) :
  - 2 ^ 53 < D < 2 ^ 53 -> exists k, frames_of_ns D = Some k.
Proof.
  intros HD. unfold frames_of_ns, JS.mul, JS.lit_0_000048.
  pose proof (of_Z_bounds D HD) as H.
  destruct (JS.of_Z D) as [s| | |s m e]; try contradiction.
  - cbn. now exists 0.
  - destruct H as [Hm He]. unfold SFmul.
    pose proof (binary_round_aux_bounds (xorb s false)
                  (Z.pos (m * 0x192a737110e454)) (e + -67) loc_Exact
                  ltac:(lia)) as H.
    cbv zeta in H.
    pose proof (Zdigits2_mul m 0x192a737110e454) as Hmul.
    change (Zdigits2 (Z.pos 0x192a737110e454)) with 53 in Hmul.
    destruct (binary_round_aux JS.prec JS.emax (xorb s false)
                (Z.pos (m * 0x192a737110e454)) (e + -67) loc_Exact)
      as [s'|s'| |s' m' e'] eqn:E;
      unfold JS.prec, JS.emax in E; rewrite E in H.
    + now exists 0.
    + lia.
    + contradiction.
    + cbn [JS.Math_floor]. eexists. reflexivity.
Qed.

Lemma binary_round_aux_sign sx mx ex lx :
  match binary_round_aux 53 1024 sx mx ex lx with
  | S754_zero s | S754_infinity s | S754_finite s _ _ => s = sx
  | S754_nan => True
  end.
Proof.
  unfold binary_round_aux.
  destruct (shr_fexp 53 1024 mx ex lx) as [mrs' e'].
  destruct (shr_fexp 53 1024 _ e' loc_Exact) as [mrs'' e''].
  destruct (shr_m mrs''); [reflexivity| |exact I].
  now destruct (e'' <=? 1024 - 53).
Qed.

Lemma frames_of_ns_nonneg (D k : Z) :
  0 <= D -> frames_of_ns D = Some k -> 0 <= k.
Proof.
  intros HD. unfold frames_of_ns, JS.mul, JS.lit_0_000048, JS.of_Z.
  destruct D as [|p|p]; [cbn; intros [= <-]; lia| |lia].
  cbn [binary_normalize]. unfold binary_round.
  destruct (shl_align p 0 _) as [mz ez].
  pose proof (binary_round_aux_sign false (Z.pos mz) ez loc_Exact) as H1.
  unfold JS.prec, JS.emax.
  destruct (binary_round_aux 53 1024 false (Z.pos mz) ez loc_Exact)
    as [s1|s1| |s1 m1 e1]; cbn [SFmul]; try discriminate.
  - intros [= <-]. lia.
  - subst s1. cbn [xorb].
    pose proof (binary_round_aux_sign false (Z.pos (m1 * 0x192a737110e454))
                  (e1 + -67) loc_Exact) as H2.
    destruct (binary_round_aux 53 1024 false _ (e1 + -67) loc_Exact)
      as [s2|s2| |s2 m2 e2]; cbn [JS.Math_floor]; try discriminate.
    + intros [= <-]. lia.
    + subst s2. pose proof (Pos2Z.is_pos m2) as Hm.
      generalize dependent (Z.pos m2). intros z Hz.
      destruct (Z.leb_spec 0 e2); intros [= <-].
      * apply Z.mul_nonneg_nonneg; [lia | apply Z.pow_nonneg; lia].
      * apply Z.div_pos; [lia|]. apply Z.pow_pos_nonneg; lia.
Qed.

Lemma ToInt32_range (z : Z) : - 2 ^ 31 <= JS.ToInt32 z < 2 ^ 31.
Proof.
  unfold JS.ToInt32.
  pose proof (Z.mod_pos_bound (z + 2 ^ 31) (2 ^ 32) ltac:(lia)). lia.
Qed.

Lemma ReadVInt_loop_range n data position i value v :
  ReadVInt_loop n data position i value = Some v ->
  - 2 ^ 31 <= value < 2 ^ 31 + 256 ->
  - 2 ^ 31 <= v < 2 ^ 31 + 256.
Proof.
  revert i value. induction n as [|n IH]; intros i value;
    cbn [ReadVInt_loop].
  - now intros [= <-].
  - destruct (DataView.getUint8 data (position + i)) as [b|] eqn:Eb;
      [|discriminate].
    intros H _. apply IH in H; [exact H|].
    pose proof (getUint8_range _ _ _ Eb).
    pose proof (ToInt32_range (Z.shiftl (JS.ToInt32 value) 8)).
    unfold JS.shl. lia.
Qed.

Lemma land_byte_range (b y : Z) : 0 <= b <= 255 -> 0 <= Z.land b y < 256.
Proof.
  intros Hb.
  assert (E : Z.land b y = Z.land b y mod 2 ^ 8).
  { rewrite <- (Z.land_ones (Z.land b y) 8) by lia.
    rewrite <- Z.land_assoc, (Z.land_comm y), Z.land_assoc.
    rewrite (Z.land_ones b 8) by lia.
    now rewrite (Z.mod_small b) by (change (2 ^ 8) with 256; lia). }
  rewrite E. change (2 ^ 8) with 256. apply Z.mod_pos_bound. lia.
Qed.

(** Whatever the mask and the length, [ReadVInt] returns an integer of 32
    bits or a little more. *)
Lemma ReadVInt_range data position length mask v :
  ReadVInt data position length mask = Some v ->
  - 2 ^ 31 <= v < 2 ^ 31 + 256.
Proof.
  unfold ReadVInt.
  destruct (DataView.getUint8 data position) as [b|] eqn:Eb; [|discriminate].
  intros H. apply ReadVInt_loop_range in H; [exact H|].
  pose proof (getUint8_range _ _ _ Eb) as Hb.
  unfold JS.band. rewrite (ToInt32_small b) by lia.
  pose proof (land_byte_range b (JS.ToInt32 mask) Hb). lia.
Qed.

Lemma getUintBE_range n data position acc v :
  DataView.getUintBE n data position acc = Some v ->
  0 <= acc ->
  0 <= v < (acc + 1) * 256 ^ Z.of_nat n.
Proof.
  revert position acc. induction n as [|n IH]; intros position acc;
    cbn [DataView.getUintBE].
  - intros [= <-] H. cbn. lia.
  - destruct (DataView.getUint8 data position) as [b|] eqn:Eb; [|discriminate].
    intros H Hacc. pose proof (getUint8_range _ _ _ Eb).
    apply IH in H; [|lia].
    rewrite Nat2Z.inj_succ, Z.pow_succ_r by lia.
    assert (0 < 256 ^ Z.of_nat n) by (apply Z.pow_pos_nonneg; lia).
    nia.
Qed.

(** The literal is the double nearest to 48/10^6: it is within half a unit
    in the last place (2^-68) of it. *)
Lemma lit_0_000048_nearest :
  match JS.to_Q JS.lit_0_000048 with
  | Some q => (Qabs (q - (48 # 1000000)) <= (1 # 2 ^ 68))%Q
  | None => False
  end.
Proof. vm_compute. intros H; discriminate H. Qed.

(** ** Wrap-around of 32-bit values *)

Lemma ToInt32_congr (x y : Z) :
  - 2 ^ 31 <= x < 2 ^ 31 -> x mod 2 ^ 32 = y mod 2 ^ 32 -> JS.ToInt32 y = x.
Proof.
  intros Hx E. unfold JS.ToInt32.
  rewrite Zplus_mod, <- E, <- Zplus_mod.
  rewrite Z.mod_small by lia. lia.
Qed.

Lemma ToInt32_mod (z : Z) : JS.ToInt32 z mod 2 ^ 32 = z mod 2 ^ 32.
Proof.
  unfold JS.ToInt32.
  rewrite Zminus_mod, Z.mod_mod by lia.
  rewrite <- Zminus_mod. f_equal. lia.
Qed.

(** One turn of the loop of [ReadVInt] on a value that is the 32-bit
    reduction of [A]. *)
Lemma shl_8_add_byte (acc A b : Z) :
  - 2 ^ 31 <= acc < 2 ^ 31 ->
  acc mod 2 ^ 32 = A mod 2 ^ 32 ->
  0 <= b <= 255 ->
  - 2 ^ 31 <= JS.shl acc 8 + b < 2 ^ 31
  /\ (JS.shl acc 8 + b) mod 2 ^ 32 = (A * 256 + b) mod 2 ^ 32.
Proof.
  intros Hacc E Hb. unfold JS.shl.
  rewrite (ToInt32_small acc) by lia.
  rewrite Z.shiftl_mul_pow2 by lia. change (2 ^ 8) with 256.
  set (t := JS.ToInt32 (acc * 256)).
  pose proof (ToInt32_range (acc * 256)) as Ht. fold t in Ht.
  pose proof (ToInt32_mod (acc * 256)) as Em. fold t in Em.
  assert (Hdiv : t mod 256 = 0).
  { assert (Hd : (256 | 2 ^ 32)) by (exists (2 ^ 24); reflexivity).
    rewrite <- (Z.mod_mod_divide t _ _ Hd), Em, (Z.mod_mod_divide _ _ _ Hd).
    apply Z.mod_mul. lia. }
  apply Z.mod_divide in Hdiv; [|lia]. destruct Hdiv as [k Hk].
  split; [lia|].
  rewrite Zplus_mod, Em, <- Zplus_mod.
  rewrite (Zplus_mod (A * 256)), (Zmult_mod A), <- E, <- Zmult_mod, <- Zplus_mod.
  reflexivity.
Qed.

Lemma ReadVInt_loop_wrapped n data position i acc A :
  - 2 ^ 31 <= acc < 2 ^ 31 ->
  acc mod 2 ^ 32 = A mod 2 ^ 32 ->
  ReadVInt_loop n data position i acc
  = option_map JS.ToInt32 (DataView.getUintBE n data (position + i) A).
Proof.
  revert i acc A. induction n as [|n IH]; intros i acc A Hacc E;
    cbn [ReadVInt_loop DataView.getUintBE option_map].
  - f_equal. symmetry. now apply ToInt32_congr.
  - destruct (DataView.getUint8 data (position + i)) as [b|] eqn:Eb;
      [|reflexivity].
    pose proof (getUint8_range _ _ _ Eb) as Hb.
    destruct (shl_8_add_byte acc A b Hacc E Hb) as [H1 H2].
    rewrite (IH (i + 1) _ (A * 256 + b) H1 H2).
    now rewrite Z.add_assoc.
Qed.

Lemma ReadVInt_as_getUintBE data position length mask :
  ReadVInt data position length mask
  = match DataView.getUint8 data position with
    | Some b =>
        option_map JS.ToInt32
          (DataView.getUintBE (Z.to_nat (length - 1)) data (position + 1)
                              (JS.band b mask))
    | None => None
    end.
Proof.
  unfold ReadVInt.
  destruct (DataView.getUint8 data position) as [b|] eqn:Eb; [|reflexivity].
  pose proof (getUint8_range _ _ _ Eb) as Hb.
  apply ReadVInt_loop_wrapped; [|reflexivity].
  unfold JS.band. rewrite (ToInt32_small b) by lia.
  pose proof (land_byte_range b (JS.ToInt32 mask) Hb). lia.
Qed.

(** ** The monad *)

Lemma bind_Return {A B} (c : M A) (k : A -> M B) (s s' : State) (a : A) :
  c s = Return a s' -> bind c k s = k a s'.
Proof. unfold bind. now intros ->. Qed.

Lemma bind_Throw {A B} (c : M A) (k : A -> M B) (s s' : State) (e : error) :
  c s = Throw e s' -> bind c k s = Throw e s'.
Proof. unfold bind. now intros ->. Qed.

Lemma bind_inv_Return {A B} (c : M A) (k : A -> M B) (s s2 : State) (b : B) :
  bind c k s = Return b s2 ->
  exists a s1, c s = Return a s1 /\ k a s1 = Return b s2.
Proof.
  unfold bind. destruct (c s) as [a s1| | |]; try discriminate.
  intros H. now exists a, s1.
Qed.

(** Equations for running a computation from a given state. *)
Lemma bind_bind {A B C} (c : M A) (k : A -> M B) (k' : B -> M C) s :
  bind (bind c k) k' s = bind c (fun a => bind (k a) k') s.
Proof. unfold bind. now destruct (c s). Qed.

Lemma bind_ret {A B} (a : A) (k : A -> M B) s : bind (ret a) k s = k a s.
Proof. reflexivity. Qed.

Lemma bind_get {A B} (f : State -> A) (k : A -> M B) s :
  bind (get f) k s = k (f s) s.
Proof. reflexivity. Qed.

Lemma bind_modify {B} (f : State -> State) (k : unit -> M B) s :
  bind (modify f) k s = k tt (f s).
Proof. reflexivity. Qed.

Lemma bind_throw {A B} (e : error) (k : A -> M B) s :
  bind (throw e) k s = Throw e s.
Proof. reflexivity. Qed.

Lemma bind_native {B} returns (c : call) (k : Z -> M B) s :
  bind (native returns c) k s = k (returns (calls s) c) (add_call c s).
Proof. reflexivity. Qed.

Create Rewrite HintDb run.
#[local] Hint Rewrite @bind_bind @bind_ret @bind_get @bind_modify @bind_throw
  @bind_native : run.

Ltac run :=
  repeat progress (autorewrite with run; cbn [ranged nonnull finite]).

Lemma while_loop_first fuel cond body position s :
  cond position = true ->
  while_loop (S fuel) cond body position s
  = bind (body position) (fun p => while_loop fuel cond body p) s.
Proof.
  intros H. simpl. now rewrite H.
Qed.

(** An exception raised by the first iteration of the walker is the
    outcome of the walker. *)
Lemma ParseMaster_first_Throw returns HEAPF32 fuel data position length s e s' :
  0 < length ->
  ParseMaster_body returns HEAPF32 (ParseMaster returns HEAPF32 (S fuel))
                   data position s = Throw e s' ->
  ParseMaster returns HEAPF32 (S (S fuel)) data position length s = Throw e s'.
Proof.
  intros Hlen Hbody.
  change (ParseMaster returns HEAPF32 (S (S fuel)) data position length s)
    with (while_loop (S fuel) (fun p => p <? position + length)
            (ParseMaster_body returns HEAPF32
               (ParseMaster returns HEAPF32 (S fuel)) data) position s).
  rewrite while_loop_first by (apply Z.ltb_lt; lia).
  now apply bind_Throw.
Qed.

(** An exception raised by the walker is the outcome of the job: nothing in
    [OpusDecode] catches it. *)
Lemma OpusDecode_Throw returns HEAPF32 fuel arrayBuffer s e s' :
  ParseMaster returns HEAPF32 fuel arrayBuffer 0
              (DataView.byteLength arrayBuffer) s = Throw e s' ->
  OpusDecode returns HEAPF32 fuel arrayBuffer s = Throw e s'.
Proof. intros H. unfold OpusDecode. now apply bind_Throw. Qed.

(** ** Blocks *)

Section Blocks.

Variable returns : list call -> call -> Z.
Variable HEAPF32 : list call -> Z -> sample.

Lemma ParseBlock_lacing data position size s firstByte flags :
  DataView.getUint8 data position = Some firstByte ->
  DataView.getUint8 data (position + index VINT_SIZES firstByte + 2)
  = Some flags ->
  Z.land flags 6 <> 0 ->
  ParseBlock returns HEAPF32 data position size s
  = Throw LacingNotSupported s.
Proof.
  intros Hfirst Hflags Hlacing.
  unfold ParseBlock.
  rewrite (bind_Return _ _ s s firstByte) by now rewrite Hfirst.
  rewrite (bind_Return _ _ s s flags) by now rewrite Hflags.
  rewrite band_byte by (pose proof (getUint8_range _ _ _ Hflags); lia).
  destruct (Z.eqb_spec (Z.land flags 6) 0) as [E|_]; [contradiction|].
  reflexivity.
Qed.

End Blocks.

(** ** Element headers *)

Section Headers.

Variable returns : list call -> call -> Z.
Variable HEAPF32 : list call -> Z -> sample.
Variable recurse : DataView.t -> Z -> Z -> M unit.

(** At an accepted header the iteration runs the [switch] on the payload
    and leaves the cursor [size] bytes after the header. *)
Lemma body_at_header data position tagLength id sizeLength size s :
  header_at data position tagLength id sizeLength size ->
  ParseMaster_body returns HEAPF32 recurse data position s
  = bind (ParseMaster_switch returns HEAPF32 recurse data id
            (position + tagLength + sizeLength) size)
         (fun _ => ret (position + tagLength + sizeLength + size)) s.
Proof.
  intros (idByte & sizeByte & Hid & Etl & Htl & Hrid & Hsz & Esl & Hsl & Hrsz).
  subst tagLength sizeLength.
  unfold ParseMaster_body.
  rewrite (bind_Return _ _ s s idByte) by now rewrite Hid.
  replace ((4 <? index VINT_SIZES idByte) || (index VINT_SIZES idByte =? 0))
    with false
    by (symmetry; apply orb_false_iff; split;
        [apply Z.ltb_ge | apply Z.eqb_neq]; lia).
  rewrite (bind_Return _ _ s s id) by now rewrite Hrid.
  rewrite (bind_Return _ _ s s sizeByte) by now rewrite Hsz.
  replace (index VINT_SIZES sizeByte =? 0) with false
    by (symmetry; now apply Z.eqb_neq).
  rewrite (bind_Return _ _ s s size) by now rewrite Hrsz.
  reflexivity.
Qed.

(** Conversely an iteration that returns has decoded an accepted header,
    run the [switch], and moved the cursor to the end of the header plus
    [size], whatever the [switch] did. *)
Lemma body_Return_inv data position s position' s' :
  ParseMaster_body returns HEAPF32 recurse data position s
  = Return position' s' ->
  exists tagLength id sizeLength size,
    header_at data position tagLength id sizeLength size
    /\ ParseMaster_switch returns HEAPF32 recurse data id
         (position + tagLength + sizeLength) size s
       = Return tt s'
    /\ position' = position + tagLength + sizeLength + size.
Proof.
  unfold ParseMaster_body. intros H.
  apply bind_inv_Return in H as (idByte & s1 & Hid & H).
  destruct (DataView.getUint8 data position) as [b|] eqn:Eid;
    [|discriminate Hid].
  injection Hid as -> ->.
  destruct ((4 <? index VINT_SIZES idByte) || (index VINT_SIZES idByte =? 0))
    eqn:Etl; [discriminate H|].
  apply orb_false_iff in Etl as [Etl1 Etl2].
  apply Z.ltb_ge in Etl1. apply Z.eqb_neq in Etl2.
  apply bind_inv_Return in H as (id & s2 & Hrid & H).
  destruct (ReadVInt data position (index VINT_SIZES idByte) 255) as [v|]
    eqn:Erid; [|discriminate Hrid].
  injection Hrid as -> ->.
  apply bind_inv_Return in H as (sizeByte & s3 & Hsz & H).
  destruct (DataView.getUint8 data (position + index VINT_SIZES idByte))
    as [b|] eqn:Esz; [|discriminate Hsz].
  injection Hsz as -> ->.
  destruct (index VINT_SIZES sizeByte =? 0) eqn:Esl; [discriminate H|].
  apply Z.eqb_neq in Esl.
  apply bind_inv_Return in H as (size & s4 & Hrsz & H).
  destruct (ReadVInt data (position + index VINT_SIZES idByte)
                     (index VINT_SIZES sizeByte)
                     (index VINT_MASKS (index VINT_SIZES sizeByte)))
    as [v|] eqn:Ersz; [|discriminate Hrsz].
  injection Hrsz as -> ->.
  apply bind_inv_Return in H as ([] & s5 & Hsw & H).
  injection H as <- <-.
  exists (index VINT_SIZES idByte), id, (index VINT_SIZES sizeByte), size.
  split; [|split; [exact Hsw|reflexivity]].
  exists idByte, sizeByte.
  assert (0 <= index VINT_SIZES idByte).
  { pose proof (getUint8_range _ _ _ Eid) as Hb. unfold index.
    assert (Hall : Forall (fun z => 0 <= z) VINT_SIZES)
      by (repeat constructor; lia).
    rewrite Forall_forall in Hall.
    destruct (nth_in_or_default (Z.to_nat idByte) VINT_SIZES 0) as [Hin | ->];
      [now apply Hall | lia]. }
  repeat split; try assumption; lia.
Qed.

End Headers.

(** ** Fuel

    More fuel does not change the outcome of a walk that has one. *)

Lemma bind_mono {A B} (c c' : M A) (k k' : A -> M B) s o :
  (forall o1, c s = o1 -> o1 <> OutOfFuel -> c' s = o1) ->
  (forall a s1 o2, k a s1 = o2 -> o2 <> OutOfFuel -> k' a s1 = o2) ->
  bind c k s = o -> o <> OutOfFuel -> bind c' k' s = o.
Proof.
  intros Hc Hk. unfold bind.
  destruct (c s) as [a s1|e s1| |] eqn:Ec.
  - rewrite (Hc _ eq_refl) by discriminate. apply Hk.
  - rewrite (Hc _ eq_refl) by discriminate. trivial.
  - intros <- H. now elim H.
  - rewrite (Hc _ eq_refl) by discriminate. trivial.
Qed.

Section FuelMonotone.

Variable returns : list call -> call -> Z.
Variable HEAPF32 : list call -> Z -> sample.

Lemma switch_mono recurse recurse' data id position size s o :
  (forall o1, recurse data position size s = o1 -> o1 <> OutOfFuel ->
              recurse' data position size s = o1) ->
  ParseMaster_switch returns HEAPF32 recurse data id position size s = o ->
  o <> OutOfFuel ->
  ParseMaster_switch returns HEAPF32 recurse' data id position size s = o.
Proof.
  intros Hrec. unfold ParseMaster_switch.
  destruct (is_case id _); [apply Hrec | trivial].
Qed.

Lemma body_mono recurse recurse' data position s o :
  (forall p n s1 o1, recurse data p n s1 = o1 -> o1 <> OutOfFuel ->
                     recurse' data p n s1 = o1) ->
  ParseMaster_body returns HEAPF32 recurse data position s = o ->
  o <> OutOfFuel ->
  ParseMaster_body returns HEAPF32 recurse' data position s = o.
Proof.
  intros Hrec. unfold ParseMaster_body.
  apply bind_mono; [trivial|]. intros firstByte s1 o1.
  destruct (_ || _); [trivial|].
  apply bind_mono; [trivial|]. intros id s2 o2.
  apply bind_mono; [trivial|]. intros sizeByte s3 o3.
  destruct (_ =? 0); [trivial|].
  apply bind_mono; [trivial|]. intros size s4 o4.
  apply bind_mono; [|trivial].
  intros o5. apply switch_mono. apply Hrec.
Qed.

Lemma while_loop_mono fuel fuel' cond (body body' : Z -> M Z) position s o :
  (fuel <= fuel')%nat ->
  (forall p s1 o1, body p s1 = o1 -> o1 <> OutOfFuel -> body' p s1 = o1) ->
  while_loop fuel cond body position s = o ->
  o <> OutOfFuel ->
  while_loop fuel' cond body' position s = o.
Proof.
  intros Hle Hbody. revert fuel' Hle position s o.
  induction fuel as [|fuel IH]; intros fuel' Hle position s o;
    destruct fuel' as [|fuel']; try lia; cbn [while_loop];
    destruct (cond position); trivial.
  - intros <- H. exfalso. apply H. reflexivity.
  - apply bind_mono; [apply Hbody|].
    intros p s1 o1. apply IH. lia.
Qed.

Lemma ParseMaster_mono fuel fuel' data position length s o :
  (fuel <= fuel')%nat ->
  ParseMaster returns HEAPF32 fuel data position length s = o ->
  o <> OutOfFuel ->
  ParseMaster returns HEAPF32 fuel' data position length s = o.
Proof.
  revert fuel' data position length s o.
  induction fuel as [|fuel IH]; intros fuel' data position length s o Hle.
  - cbn. intros <- H. now elim H.
  - destruct fuel' as [|fuel']; [lia|]. cbn [ParseMaster].
    apply while_loop_mono; [lia|].
    intros p s1 o1. apply body_mono.
    intros p' n s2 o2 H. generalize H. revert o2 H.
    intros o2 _. apply IH. lia.
Qed.

End FuelMonotone.

Lemma OpusDecode_mono returns HEAPF32 fuel fuel' data s :
  (fuel <= fuel')%nat ->
  ParseMaster returns HEAPF32 fuel data 0 (DataView.byteLength data) s
  <> OutOfFuel ->
  OpusDecode returns HEAPF32 fuel' data s
  = OpusDecode returns HEAPF32 fuel data s.
Proof.
  intros Hle H. unfold OpusDecode, bind at 1 3.
  now rewrite (ParseMaster_mono returns HEAPF32 fuel fuel' data 0 _ s _
                 Hle eq_refl H).
Qed.

(** ** Exceptions on the way

    An exception raised in the iteration at an element is the outcome of
    every walk that comes to the element, and of the job. *)

Section Propagation.

Variable returns : list call -> call -> Z.
Variable HEAPF32 : list call -> Z -> sample.

Lemma master_is_case id :
  In id master_ids ->
  is_case id [408125543; 357149030; 524531317; 374648427; 174; 160] = true.
Proof.
  intros H. unfold is_case. apply existsb_exists. exists id.
  split; [exact H | apply Z.eqb_refl].
Qed.

(** At a master element the iteration is the walk of the payload. *)
Lemma body_at_master recurse data position tagLength id sizeLength size s :
  header_at data position tagLength id sizeLength size ->
  In id master_ids ->
  ParseMaster_body returns HEAPF32 recurse data position s
  = bind (recurse data (position + tagLength + sizeLength) size)
         (fun _ => ret (position + tagLength + sizeLength + size)) s.
Proof.
  intros Hheader Hid.
  rewrite (body_at_header _ _ _ _ _ _ _ _ _ _ Hheader).
  unfold ParseMaster_switch. now rewrite (master_is_case id Hid).
Qed.

Lemma meets_Throw data q t e t' :
  (forall recurse,
      ParseMaster_body returns HEAPF32 recurse data q t = Throw e t') ->
  forall n position end_ s,
    meets returns HEAPF32 data q t n position end_ s ->
    forall m fuel,
      (n <= m)%nat -> (n <= fuel)%nat ->
      while_loop m (fun p => p <? end_)
                 (ParseMaster_body returns HEAPF32
                    (ParseMaster returns HEAPF32 fuel) data) position s
      = Throw e t'.
Proof.
  intros Hbody n position end_ s Hmeets.
  induction Hmeets as [end_ Hq
                      |n f position end_ s position' s' Hp Hfirst _ IH
                      |n position end_ s tl id sl size Hp Hheader Hid _ IH];
    intros m fuel Hm Hfuel;
    (destruct m as [|m]; [lia|]);
    rewrite while_loop_first by (apply Z.ltb_lt; lia).
  - apply bind_Throw, Hbody.
  - rewrite (bind_Return _ _ s s' position').
    + apply IH; lia.
    + apply (body_mono returns HEAPF32 (ParseMaster returns HEAPF32 f));
        [|exact Hfirst|discriminate].
      intros p len s1 o1. apply ParseMaster_mono. lia.
  - apply bind_Throw.
    rewrite (body_at_master _ _ _ _ _ _ _ _ Hheader Hid).
    apply bind_Throw.
    destruct fuel as [|fuel]; [lia|]. cbn [ParseMaster].
    apply IH; lia.
Qed.

(** An exception raised at an element the job comes to is the outcome of
    the job. *)
Lemma job_meets_Throw data n s0 q t e t' :
  job_meets returns HEAPF32 data n s0 q t ->
  (forall recurse,
      ParseMaster_body returns HEAPF32 recurse data q t = Throw e t') ->
  job_fails returns HEAPF32 data n s0 e t'.
Proof.
  intros Hmeets Hbody fuel Hfuel.
  assert (H : ParseMaster returns HEAPF32 fuel data 0
                (DataView.byteLength data) s0 = Throw e t').
  { destruct fuel as [|fuel]; [lia|]. cbn [ParseMaster].
    apply (meets_Throw data q t e t' Hbody n); [exact Hmeets| |]; lia. }
  split; [exact H | now apply OpusDecode_Throw].
Qed.

(** At a block without lacing the iteration is [ParseFrame] on the frame
    of the block. *)
Lemma body_at_block recurse data position frame s :
  block_at data position frame ->
  exists next,
    ParseMaster_body returns HEAPF32 recurse data position s
    = bind (ParseFrame returns HEAPF32 frame) (fun _ => ret next) s.
Proof.
  intros (tl & id & sl & size & trackByte & flags
          & Hheader & Hid & Htrack & Hflags & Hlacing & Hframe).
  exists (position + tl + sl + size).
  rewrite (body_at_header _ _ _ _ _ _ _ _ _ _ Hheader).
  assert (Hblock : ParseMaster_switch returns HEAPF32 recurse data id
                     (position + tl + sl) size
                   = ParseBlock returns HEAPF32 data (position + tl + sl) size)
    by (destruct Hid as [-> | ->]; reflexivity).
  rewrite Hblock. unfold ParseBlock. run.
  rewrite Htrack. run. rewrite Hflags. run.
  rewrite band_byte by (pose proof (getUint8_range _ _ _ Hflags); lia).
  rewrite Hlacing. cbn [Z.eqb negb].
  replace (position + tl + sl + index VINT_SIZES trackByte + 2 + 1)
    with (position + tl + sl + index VINT_SIZES trackByte + 3) by lia.
  rewrite Hframe. now run.
Qed.

End Propagation.

(** ** Malformed variable-length integers *)

(** C6, as the walker has it.  In an iteration of the walker, a length
    marker of the element ID that maps to 0 or to more than 4 bytes raises
    "Invalid tag length", and a length marker of the size field that maps to
    0 raises "Invalid size length", both before anything is decoded or the
    state touched; and the job fails with that exception, in the state the
    header was reached in, wherever it comes to the header: inside master
    elements, however deep, and after other elements.  A size-field marker
    that maps to 5, 6, 7 or 8 bytes is not rejected: the field is decoded
    with its entry of [VINT_MASKS] and the element is dispatched like any
    other. *)
Theorem malformed_varint_rejected
        returns HEAPF32 recurse data position s idByte :
  DataView.getUint8 data position = Some idByte ->
  let tagLength := index VINT_SIZES idByte in
  let body := ParseMaster_body returns HEAPF32 recurse in
  (tagLength = 0 \/ 4 < tagLength ->
   body data position s = Throw (InvalidTagLength tagLength) s
   /\ forall n s0,
        job_meets returns HEAPF32 data n s0 position s ->
        job_fails returns HEAPF32 data n s0 (InvalidTagLength tagLength) s)
  /\ (forall id sizeByte,
         1 <= tagLength <= 4 ->
         ReadVInt data position tagLength 255 = Some id ->
         DataView.getUint8 data (position + tagLength) = Some sizeByte ->
         index VINT_SIZES sizeByte = 0 ->
         body data position s = Throw InvalidSizeLength s
         /\ forall n s0,
              job_meets returns HEAPF32 data n s0 position s ->
              job_fails returns HEAPF32 data n s0 InvalidSizeLength s)
  /\ (forall id sizeLength size,
         header_at data position tagLength id sizeLength size ->
         5 <= sizeLength <= 8 ->
         body data position s
         = bind (ParseMaster_switch returns HEAPF32 recurse data id
                   (position + tagLength + sizeLength) size)
                (fun _ => ret (position + tagLength + sizeLength + size)) s).
Proof.
  intros Hid tagLength body. split; [|split].
  - intros Hbad.
    assert (Hbody : forall recurse',
               ParseMaster_body returns HEAPF32 recurse' data position s
               = Throw (InvalidTagLength tagLength) s).
    { intros recurse'. unfold ParseMaster_body.
      rewrite (bind_Return _ _ s s idByte) by now rewrite Hid.
      fold tagLength.
      replace ((4 <? tagLength) || (tagLength =? 0)) with true;
        [reflexivity|].
      symmetry. apply orb_true_iff.
      destruct Hbad as [-> | Hbig]; [now right | left; now apply Z.ltb_lt]. }
    split; [apply Hbody|].
    intros n s0 Hmeets.
    exact (job_meets_Throw returns HEAPF32 data n s0 position s _ _
             Hmeets Hbody).
  - intros id sizeByte Htl Hrid Hsz Hzero.
    assert (Hbody : forall recurse',
               ParseMaster_body returns HEAPF32 recurse' data position s
               = Throw InvalidSizeLength s).
    { intros recurse'. unfold ParseMaster_body.
      rewrite (bind_Return _ _ s s idByte) by now rewrite Hid.
      fold tagLength.
      replace ((4 <? tagLength) || (tagLength =? 0)) with false
        by (symmetry; apply orb_false_iff; split;
            [apply Z.ltb_ge | apply Z.eqb_neq]; lia).
      rewrite (bind_Return _ _ s s id) by now rewrite Hrid.
      rewrite (bind_Return _ _ s s sizeByte) by now rewrite Hsz.
      now rewrite Hzero. }
    split; [apply Hbody|].
    intros n s0 Hmeets.
    exact (job_meets_Throw returns HEAPF32 data n s0 position s _ _
             Hmeets Hbody).
  - intros id sizeLength size Hheader _.
    now apply body_at_header.
Qed.

Lemma malformed_varint_rejected_witness :
  let data :=
    [xec; x80;
     x18; x53; x80; x67; x83;
     x0f; x81; x00]%byte in
  DataView.getUint8 data 7 = Some 15
  /\ index VINT_SIZES 15 = 5
  /\ job_meets Stub.returns Stub.HEAPF32 data 3 initial 7 initial
  /\ Stub.OpusDecode 4 data initial = Throw (InvalidTagLength 5) initial.
Proof.
  intros data.
  assert (Hmeets : job_meets Stub.returns Stub.HEAPF32 data 3 initial 7
                             initial).
  { apply (meets_after _ _ _ _ _ 2 0 0 _ initial 2 initial);
      [reflexivity | reflexivity |].
    apply (meets_inside _ _ _ _ _ 1 2 _ initial 4 408125543 1 3);
      [reflexivity
      | exists 24, 131; vm_compute; repeat split; discriminate
      | cbn; tauto
      |].
    apply meets_here. reflexivity. }
  split; [reflexivity|]. split; [reflexivity|]. split; [exact Hmeets|].
  destruct (proj1 (malformed_varint_rejected Stub.returns Stub.HEAPF32
                     (Stub.ParseMaster 1) data 7 initial 15 eq_refl))
    as [_ Hjob]; [right; vm_compute; reflexivity|].
  apply (Hjob 3%nat initial Hmeets 4%nat). lia.
Defined.

(** C6 fails as stated: the size field below announces 5 bytes (marker
    [0x08]), and the walker decodes it (to 1) and returns. *)
Lemma size_field_of_5_bytes_accepted :
  let data := [xec; x08; x00; x00; x00; x01; x00]%byte in
  DataView.getUint8 data 1 = Some 8
  /\ index VINT_SIZES 8 = 5
  /\ ParseMaster_body Stub.returns Stub.HEAPF32 (Stub.ParseMaster 1) data 0
                      initial
     = Return 7 initial
  /\ Stub.ParseMaster 2 data 0 7 initial = Return tt initial.
Proof. vm_compute. repeat split. Qed.

(** C7.  When the walker is at a Block or SimpleBlock element whose flags
    byte (after the track number and the two timecode bytes) has a nonzero
    value in bits 1-2, [ParseBlock] raises "Lacing not supported", and so
    does the iteration of the walker at the element, whatever it would
    recurse with.  So does a walk that starts at the element; and so does
    the job, wherever it comes to the element: inside master elements,
    however deep, and after other elements.  The state is the one the
    element was reached in: no call to the decoder has been made for the
    block and the output buffer is as it was. *)
Theorem laced_block_fails_job
        returns HEAPF32 data position
        tagLength id sizeLength size trackByte flags s :
  header_at data position tagLength id sizeLength size ->
  id = 161 \/ id = 163 ->
  let payload := position + tagLength + sizeLength in
  DataView.getUint8 data payload = Some trackByte ->
  DataView.getUint8 data (payload + index VINT_SIZES trackByte + 2)
  = Some flags ->
  Z.land flags 6 <> 0 ->
  ParseBlock returns HEAPF32 data payload size s = Throw LacingNotSupported s
  /\ (forall recurse,
         ParseMaster_body returns HEAPF32 recurse data position s
         = Throw LacingNotSupported s)
  /\ (forall fuel length,
         0 < length ->
         ParseMaster returns HEAPF32 (S (S fuel)) data position length s
         = Throw LacingNotSupported s)
  /\ (forall n s0,
         job_meets returns HEAPF32 data n s0 position s ->
         job_fails returns HEAPF32 data n s0 LacingNotSupported s).
Proof.
  intros Hheader Hid payload Htrack Hflags Hlacing.
  pose proof (ParseBlock_lacing returns HEAPF32 data payload size s
                trackByte flags Htrack Hflags Hlacing) as Hblock.
  assert (Hbody : forall recurse,
             ParseMaster_body returns HEAPF32 recurse data position s
             = Throw LacingNotSupported s).
  { intros recurse.
    rewrite (body_at_header _ _ _ _ _ _ _ _ _ _ Hheader).
    apply bind_Throw. fold payload.
    destruct Hid as [-> | ->]; exact Hblock. }
  split; [exact Hblock|]. split; [exact Hbody|]. split.
  - intros fuel length Hlen.
    apply ParseMaster_first_Throw; [exact Hlen | apply Hbody].
  - intros n s0 Hmeets.
    exact (job_meets_Throw returns HEAPF32 data n s0 position s _ _
             Hmeets Hbody).
Qed.

Lemma laced_block_fails_job_witness :
  let data :=
    [xec; x80;
     x1f; x43; xb6; x75; x87;
     xa3; x85; x81; x00; x00; x02; x14]%byte in
  header_at data 7 1 163 1 5
  /\ Z.land 2 6 <> 0
  /\ job_meets Stub.returns Stub.HEAPF32 data 3 initial 7 initial
  /\ Stub.OpusDecode 4 data initial = Throw LacingNotSupported initial.
Proof.
  intros data.
  assert (Hheader : header_at data 7 1 163 1 5).
  { exists 163, 133. vm_compute. repeat split; discriminate. }
  assert (Hlacing : Z.land 2 6 <> 0) by (vm_compute; discriminate).
  assert (Hmeets : job_meets Stub.returns Stub.HEAPF32 data 3 initial 7
                             initial).
  { apply (meets_after _ _ _ _ _ 2 0 0 _ initial 2 initial);
      [reflexivity | reflexivity |].
    apply (meets_inside _ _ _ _ _ 1 2 _ initial 4 524531317 1 7);
      [reflexivity
      | exists 31, 135; vm_compute; repeat split; discriminate
      | cbn; tauto
      |].
    apply meets_here. reflexivity. }
  split; [exact Hheader|]. split; [exact Hlacing|]. split; [exact Hmeets|].
  destruct (laced_block_fails_job Stub.returns Stub.HEAPF32 data 7
              1 163 1 5 129 2 initial Hheader)
    as (_ & _ & _ & Hjob);
    [now right | reflexivity | reflexivity | exact Hlacing |].
  apply (Hjob 3%nat initial Hmeets 4%nat). lia.
Defined.

(** ** Writing decoded samples *)

Section Writes.

Variable returns : list call -> call -> Z.
Variable HEAPF32 : list call -> Z -> sample.

Lemma scratch_length s first count :
  length (scratch HEAPF32 s first count) = Z.to_nat count.
Proof. unfold scratch. now rewrite length_map, length_seq. Qed.

Lemma Float32Array_on_heap_scratch s first count :
  0 <= count ->
  Float32Array_on_heap HEAPF32
    (ToNumber (_outputPointer s) + first * 4) count s
  = Return (scratch HEAPF32 s first count) s.
Proof.
  intros Hc. unfold Float32Array_on_heap.
  destruct (Z.ltb_spec count 0); [lia|]. reflexivity.
Qed.

(** What [WriteOutput(ret)] does, case by case. *)
Lemma WriteOutput_run ret_ s :
  let offset := _outputOffset s in
  let trim := Z.max 0 (- offset) in
  let writePosition := Z.max 0 offset in
  let tempBuffer := scratch HEAPF32 s trim (ret_ - trim) in
  WriteOutput HEAPF32 ret_ s =
  if 0 <? ret_ + offset then
    if (offset <? 0) || (0 <=? ret_) then
      match _audioBuffer s with
      | None => Throw TypeError s
      | Some audioBuffer =>
          if Z.of_nat (length audioBuffer) <? offset + ret_
          then Throw BufferOverflow s
          else
            Return tt
              (set_outputOffset (offset + ret_)
                 (set_audioBuffer
                    (Some (firstn (Z.to_nat writePosition) audioBuffer
                           ++ tempBuffer
                           ++ skipn (Z.to_nat writePosition
                                     + length tempBuffer) audioBuffer))
                    s))
      end
    else Throw RangeError s
  else Return tt (set_outputOffset (offset + ret_) s).
Proof.
  intros offset trim writePosition tempBuffer.
  unfold WriteOutput. rewrite bind_get. fold offset.
  destruct (Z.ltb_spec 0 (ret_ + offset)) as [Hpos|Hneg];
    [|now run].
  run.
  destruct (Z.ltb_spec offset 0) as [Hlt|Hge]; cbn [orb].
  - (* part of the frame lies before index 0 *)
    assert (Etrim : trim = - offset) by (unfold trim; lia).
    assert (Ewp : writePosition = 0) by (unfold writePosition; lia).
    replace (ret_ - - offset) with (ret_ - trim) by lia.
    rewrite <- Etrim.
    rewrite (bind_Return _ _ s s tempBuffer)
      by now apply Float32Array_on_heap_scratch; lia.
    run.
    destruct (_audioBuffer s) as [audioBuffer|]; [|reflexivity].
    run.
    assert (Elen : Z.of_nat (length tempBuffer) = ret_ + offset).
    { unfold tempBuffer. rewrite scratch_length. lia. }
    rewrite Elen, Ewp.
    replace (0 + (ret_ + offset)) with (offset + ret_) by lia.
    destruct (Z.ltb_spec (Z.of_nat (length audioBuffer)) (offset + ret_));
      [now run|].
    unfold TypedArray_set. rewrite Elen.
    replace ((0 <=? 0) && (0 + (ret_ + offset)
                           <=? Z.of_nat (length audioBuffer)))
      with true by (symmetry; apply andb_true_iff; split;
                    [reflexivity | apply Z.leb_le; lia]).
    now run.
  - (* the frame is written at the cursor *)
    assert (Etrim : trim = 0) by (unfold trim; lia).
    assert (Ewp : writePosition = offset) by (unfold writePosition; lia).
    destruct (Z.leb_spec 0 ret_) as [Hret|Hret].
    + replace (ToNumber (_outputPointer s))
        with (ToNumber (_outputPointer s) + trim * 4) at 1 by lia.
      replace ret_ with (ret_ - trim) at 1 by lia.
      rewrite (bind_Return _ _ s s tempBuffer)
        by now apply Float32Array_on_heap_scratch; lia.
      run.
      destruct (_audioBuffer s) as [audioBuffer|]; [|reflexivity].
      run.
      assert (Elen : Z.of_nat (length tempBuffer) = ret_).
      { unfold tempBuffer. rewrite scratch_length. lia. }
      rewrite Elen, Ewp.
      destruct (Z.ltb_spec (Z.of_nat (length audioBuffer)) (offset + ret_));
        [now run|].
      unfold TypedArray_set. rewrite Elen.
      replace ((0 <=? offset) && (offset + ret_
                                  <=? Z.of_nat (length audioBuffer)))
        with true by (symmetry; apply andb_true_iff; split;
                      apply Z.leb_le; lia).
      now run.
    + apply bind_Throw. unfold Float32Array_on_heap.
      destruct (Z.ltb_spec ret_ 0); [reflexivity|lia].
Qed.

End Writes.

(** ** Submitting a frame *)

Section Frames.

Variable returns : list call -> call -> Z.
Variable HEAPF32 : list call -> Z -> sample.

Lemma ParseFrame_run frame s :
  ParseFrame returns HEAPF32 frame s
  = if 0 <? decoded_count returns frame s
    then WriteOutput HEAPF32 (decoded_count returns frame s)
                     (add_call (decode_call frame s) s)
    else Throw FailedToParseFrame (add_call (decode_call frame s) s).
Proof.
  unfold ParseFrame. run.
  fold (decode_call frame s). fold (decoded_count returns frame s).
  now destruct (0 <? decoded_count returns frame s).
Qed.

Lemma length_written (audioBuffer tempBuffer : list sample) (wp : nat) :
  (wp + length tempBuffer <= length audioBuffer)%nat ->
  length (firstn wp audioBuffer ++ tempBuffer
          ++ skipn (wp + length tempBuffer) audioBuffer)
  = length audioBuffer.
Proof.
  intros H. rewrite !length_app, length_firstn, length_skipn. lia.
Qed.

End Frames.

(** C3.  A frame whose samples would end beyond the length of the output
    buffer makes [ParseFrame] raise "Buffer overflow"; the state it leaves
    differs from the one it was called in by the recorded call to the
    decoder only, so the buffer and the cursor are as they were.  The job
    fails with that exception and in that state, wherever it comes to the
    block that holds the frame: inside master elements, however deep, and
    after other elements.  And after every call of [ParseFrame] that
    returns, the cursor is at most the length of the buffer. *)
Theorem frame_write_bounds returns HEAPF32 frame s :
  let c := decode_call frame s in
  let N := decoded_count returns frame s in
  (forall audioBuffer,
      _audioBuffer s = Some audioBuffer ->
      0 < N ->
      Z.of_nat (length audioBuffer) < _outputOffset s + N ->
      ParseFrame returns HEAPF32 frame s = Throw BufferOverflow (add_call c s)
      /\ _audioBuffer (add_call c s) = Some audioBuffer
      /\ _outputOffset (add_call c s) = _outputOffset s
      /\ forall data n s0 position,
           job_meets returns HEAPF32 data n s0 position s ->
           block_at data position frame ->
           job_fails returns HEAPF32 data n s0 BufferOverflow (add_call c s))
  /\ (forall s' audioBuffer',
         ParseFrame returns HEAPF32 frame s = Return tt s' ->
         _audioBuffer s' = Some audioBuffer' ->
         _outputOffset s' <= Z.of_nat (length audioBuffer')).
Proof.
  intros c N. split.
  - intros audioBuffer Haudio HN Hover.
    assert (Hframe : ParseFrame returns HEAPF32 frame s
                     = Throw BufferOverflow (add_call c s)).
    { rewrite ParseFrame_run. fold N c.
      destruct (Z.ltb_spec 0 N); [|lia].
      rewrite WriteOutput_run.
      change (_outputOffset (add_call c s)) with (_outputOffset s).
      change (_audioBuffer (add_call c s)) with (_audioBuffer s).
      rewrite Haudio.
      destruct (Z.ltb_spec 0 (N + _outputOffset s)); [|lia].
      replace ((_outputOffset s <? 0) || (0 <=? N)) with true
        by (symmetry; apply orb_true_iff; right; apply Z.leb_le; lia).
      destruct (Z.ltb_spec (Z.of_nat (length audioBuffer))
                           (_outputOffset s + N));
        [reflexivity | lia]. }
    split; [exact Hframe|]. split; [exact Haudio|]. split; [reflexivity|].
    intros data n s0 position Hmeets Hblock.
    apply (job_meets_Throw returns HEAPF32 data n s0 position s);
      [exact Hmeets|].
    intros recurse.
    destruct (body_at_block returns HEAPF32 recurse data position frame s
                Hblock) as [next ->].
    now apply bind_Throw.
  - intros s' audioBuffer' Hrun Haudio'.
    rewrite ParseFrame_run in Hrun. fold N c in Hrun.
    destruct (Z.ltb_spec 0 N) as [HN|]; [|discriminate Hrun].
    rewrite WriteOutput_run in Hrun.
    change (_outputOffset (add_call c s)) with (_outputOffset s) in Hrun.
    change (_audioBuffer (add_call c s)) with (_audioBuffer s) in Hrun.
    destruct (Z.ltb_spec 0 (N + _outputOffset s)) as [Hpos|Hneg].
    + destruct ((_outputOffset s <? 0) || (0 <=? N)); [|discriminate Hrun].
      destruct (_audioBuffer s) as [audioBuffer|]; [|discriminate Hrun].
      destruct (Z.ltb_spec (Z.of_nat (length audioBuffer))
                           (_outputOffset s + N)) as [|Hfit];
        [discriminate Hrun|].
      injection Hrun as <-. cbn in Haudio'. injection Haudio' as <-.
      cbn [_outputOffset set_outputOffset].
      rewrite length_written; [lia|].
      rewrite scratch_length. lia.
    + injection Hrun as <-. cbn [_outputOffset set_outputOffset]. lia.
Qed.

Lemma frame_write_bounds_witness :
  let data :=
    [x44; x89; x84; x00; x00; x00; x00;
     x1f; x43; xb6; x75; x87;
     xa3; x85; x81; x00; x00; x00; xff]%byte in
  let s := mkState (Some 1048576) (Some (repeat 0 (Z.to_nat 5760)))
                   (Some 73728) (Some 2048) (Some 65536) 0
                   [_create_decoder 48000 1; _malloc 2048; _malloc 8192] in
  let frame := [xff]%byte in
  decoded_count Stub.returns frame s = 12240
  /\ job_meets Stub.returns Stub.HEAPF32 data 3 initial 12 s
  /\ block_at data 12 frame
  /\ Stub.OpusDecode 4 data initial
     = Throw BufferOverflow (add_call (decode_call frame s) s)
  /\ _audioBuffer (add_call (decode_call frame s) s)
     = Some (repeat 0 (Z.to_nat 5760)).
Proof.
  intros data s frame.
  assert (HN : 0 < decoded_count Stub.returns frame s) by reflexivity.
  assert (Hover : Z.of_nat (length (repeat 0 (Z.to_nat 5760)))
                  < _outputOffset s + decoded_count Stub.returns frame s)
    by (rewrite repeat_length; vm_compute; reflexivity).
  assert (Hmeets : job_meets Stub.returns Stub.HEAPF32 data 3 initial 12 s).
  { apply (meets_after _ _ _ _ _ 2 0 0 _ initial 7 s);
      [reflexivity | vm_compute; reflexivity |].
    apply (meets_inside _ _ _ _ _ 1 7 _ s 4 524531317 1 7);
      [reflexivity
      | exists 31, 135; vm_compute; repeat split; discriminate
      | cbn; tauto
      |].
    apply meets_here. reflexivity. }
  assert (Hblock : block_at data 12 frame).
  { exists 1, 163, 1, 5, 129, 0. vm_compute.
    repeat split; try discriminate; auto.
    exists 163, 133. repeat split; discriminate. }
  destruct (proj1 (frame_write_bounds Stub.returns Stub.HEAPF32 frame s)
              (repeat 0 (Z.to_nat 5760)) eq_refl HN Hover)
    as (_ & Haudio & _ & Hjob).
  split; [reflexivity|]. split; [exact Hmeets|]. split; [exact Hblock|].
  split; [|exact Haudio].
  apply (Hjob data 3%nat initial 12 Hmeets Hblock 4%nat). lia.
Defined.

(** ** Codec delay *)





(** The end-to-end example of the specification: 120000000 ns are 5760
    samples; and 6500000 ns are 312. *)
Lemma frames_of_ns_examples :
  frames_of_ns 120000000 = Some 5760
  /\ frames_of_ns 6500000 = Some 312
  /\ frames_of_ns 0 = Some 0.
Proof. vm_compute. repeat split. Qed.


(** ** Discard padding *)

(** For the widths other than 3 [ParseDiscard] does what the specification
    says: 1, 2 and 4 bytes are read as signed big-endian integers, a negative
    one is refused and the frames of any other are taken off the cursor;
    a width outside 1..4 is refused. *)
Lemma ParseIntTag_widths_1_2_4 data position size :
  size = 1 \/ size = 2 \/ size = 4 ->
  forall s,
    ParseIntTag data position size s
    = ranged (spec_signed_BE data position size) s.
Proof.
  intros [-> | [-> | ->]] s; unfold ParseIntTag, spec_signed_BE;
    [|reflexivity|reflexivity].
  change (Z.to_nat 1) with 1%nat.
  unfold DataView.getInt8, DataView.getUintBE.
  now destruct (DataView.getUint8 data position).
Qed.

Lemma ParseDiscard_widths_1_2_4 data position size P s :
  size = 1 \/ size = 2 \/ size = 4 ->
  spec_signed_BE data position size = Some P ->
  ParseDiscard data position size s
  = if P <? 0 then Throw CannotDiscardLeading s
    else match frames_of_ns P with
         | Some k => Return tt (set_outputOffset (_outputOffset s - k) s)
         | None => NotModelled
         end.
Proof.
  intros Hsize HP. unfold ParseDiscard.
  rewrite (bind_Return _ _ s s P)
    by (rewrite ParseIntTag_widths_1_2_4 by exact Hsize; now rewrite HP).
  destruct (P <? 0); [reflexivity|].
  destruct (frames_of_ns P); now run.
Qed.

Lemma ParseDiscard_other_widths data position size s :
  size <> 1 -> size <> 2 -> size <> 3 -> size <> 4 ->
  ParseDiscard data position size s = Throw InvalidSize s.
Proof.
  intros H1 H2 H3 H4. unfold ParseDiscard. apply bind_Throw.
  unfold ParseIntTag.
  destruct (Z.eqb_spec size 1); [contradiction|].
  destruct (Z.eqb_spec size 2); [contradiction|].
  destruct (Z.eqb_spec size 3); [contradiction|].
  destruct (Z.eqb_spec size 4); [contradiction|].
  reflexivity.
Qed.

Lemma getUint8_byte data position b :
  DataView.getUint8 data position = Some b ->
  exists x : byte, b = Z.of_N (Byte.to_N x).
Proof.
  unfold DataView.getUint8.
  destruct (0 <=? position); [|discriminate].
  destruct (nth_error data (Z.to_nat position)) as [x|]; [|discriminate].
  intros [= <-]. now exists x.
Qed.

(** [ReadInt24] depends on the byte at [position] only, which it reads
    three times, and is never negative. *)
Lemma ReadInt24_first_byte_only data position :
  ReadInt24 data position
  = option_map (fun b => Z.land b 127 * 65536 + b * 256 + b)
               (DataView.getUint8 data position).
Proof.
  unfold ReadInt24, DataView.getInt8.
  destruct (DataView.getUint8 data position) as [b|] eqn:Eb; [|reflexivity].
  apply getUint8_byte in Eb as [x ->]. cbn [option_map].
  destruct x; vm_compute; reflexivity.
Qed.

Lemma ReadInt24_range data position v :
  ReadInt24 data position = Some v -> 0 <= v < 2 ^ 23.
Proof.
  rewrite ReadInt24_first_byte_only.
  destruct (DataView.getUint8 data position) as [b|] eqn:Eb; [|discriminate].
  intros [= <-]. pose proof (getUint8_range _ _ _ Eb) as Hb.
  assert (0 <= Z.land b 127 <= 127).
  { change 127 with (Z.ones 7) at 1 2. rewrite Z.land_ones by lia.
    pose proof (Z.mod_pos_bound b (2 ^ 7) ltac:(lia)). lia. }
  lia.
Qed.

(** C2 does not hold for the 3-byte width: [ReadInt24] reads the first
    byte three times and never negates.  The payload [FF FF FF] is -1 ns in
    two's complement and has to be refused; the script reads 8388607 and
    takes 402 frames off the cursor.  The payload [01 86 A0] is 100000 ns,
    4 frames; the script reads 65793, 3 frames. *)
Theorem ReadInt24_misreads :
  let minus_one := [xff; xff; xff]%byte in
  let hundred_thousand := [x01; x86; xa0]%byte in
  spec_signed_BE minus_one 0 3 = Some (- 1)
  /\ ReadInt24 minus_one 0 = Some 8388607
  /\ ParseDiscard minus_one 0 3 initial
     = Return tt (set_outputOffset (- 402) initial)
  /\ spec_signed_BE hundred_thousand 0 3 = Some 100000
  /\ frames_of_ns 100000 = Some 4
  /\ ReadInt24 hundred_thousand 0 = Some 65793
  /\ ParseDiscard hundred_thousand 0 3 initial
     = Return tt (set_outputOffset (- 3) initial).
Proof. vm_compute. repeat split. Qed.

(** ** The walk over the elements *)

(** An iteration moves the cursor forward whenever the size it has decoded
    is not negative. *)
Lemma body_moves_forward returns HEAPF32 recurse data position s position' s' :
  ParseMaster_body returns HEAPF32 recurse data position s
  = Return position' s' ->
  exists tagLength id sizeLength size,
    header_at data position tagLength id sizeLength size
    /\ position' = position + tagLength + sizeLength + size
    /\ (0 <= size -> position + 2 <= position').
Proof.
  intros H.
  apply body_Return_inv in H as (tl & id & sl & size & Hh & _ & ->).
  exists tl, id, sl, size. split; [exact Hh|]. split; [reflexivity|].
  destruct Hh as (idByte & sizeByte & _ & _ & Htl & _ & Hsz & Esl & Hsl & _).
  assert (0 <= sl).
  { subst sl. unfold index.
    assert (Hall : Forall (fun z => 0 <= z) VINT_SIZES)
      by (repeat constructor; lia).
    rewrite Forall_forall in Hall.
    destruct (nth_in_or_default (Z.to_nat sizeByte) VINT_SIZES 0)
      as [Hin | ->]; [now apply Hall | lia]. }
  lia.
Qed.

(** C5 does not hold on the container below.  Its second element has a
    size field of 5 bytes, [08 FF FF FF F7], which [ReadVInt] decodes with
    32-bit shifts to -9: the iteration leaves the cursor at 2, inside the
    first element, and the third iteration consumes bytes 2 to 10 again.
    The walker returns. *)
Theorem walker_revisits_bytes :
  let data :=
    [xec; x83; xec; x87; x00; xec; x08; xff; xff; xff; xf7]%byte in
  let body :=
    ParseMaster_body Stub.returns Stub.HEAPF32 (Stub.ParseMaster 3) data in
  body 0 initial = Return 5 initial
  /\ ReadVInt data 6 5 (index VINT_MASKS 5) = Some (- 9)
  /\ body 5 initial = Return 2 initial
  /\ body 2 initial = Return 11 initial
  /\ Stub.ParseMaster 4 data 0 11 initial = Return tt initial.
Proof. vm_compute. repeat split. Qed.

(** The same wrap-around can keep the walker going for ever, which is why
    [ParseMaster] takes fuel: below, the second element has size -10 and
    sends the cursor back to the first. *)
Lemma walker_can_run_forever returns HEAPF32 fuel s :
  let data := [xec; x82; x00; x00; xec; x08; xff; xff; xff; xf6]%byte in
  ParseMaster returns HEAPF32 fuel data 0 10 s = OutOfFuel.
Proof.
  intros data. destruct fuel as [|fuel]; [reflexivity|].
  cbn [ParseMaster].
  generalize (ParseMaster returns HEAPF32 fuel). intros recurse.
  set (body := ParseMaster_body returns HEAPF32 recurse data).
  set (cond := fun position => position <? 0 + 10).
  assert (H0 : body 0 s = Return 4 s) by (vm_compute; reflexivity).
  assert (H4 : body 4 s = Return 0 s) by (vm_compute; reflexivity).
  assert (Hloop : forall n,
             while_loop n cond body 0 s = OutOfFuel
             /\ while_loop n cond body 4 s = OutOfFuel).
  { induction n as [|n [IH0 IH4]]; [split; reflexivity|].
    split; rewrite while_loop_first by reflexivity.
    - now rewrite (bind_Return _ _ s s 4).
    - now rewrite (bind_Return _ _ s s 0). }
  apply Hloop.
Qed.

(** ** The scratch buffer *)

(** C9 does not hold: the scratch area is 2048 floats (8192 bytes), and the
    decoder is told it may write 4096.  A frame of 60 ms decodes to 2880
    samples, which the script copies from the heap at the scratch
    pointer. *)
Theorem scratch_smaller_than_decode_bound :
  let container :=
    [x44; x89; x84; x42; x20; x00; x00;
     xa3; x85; x81; x00; x00; x00; x3c]%byte in
  exists result s,
    Stub.OpusDecode 3 container initial = Return result s
    /\ calls s
       = [_destroy_decoder (Some 1048576);
          _decode_frame (Some 1048576) [x3c]%byte (Some 73728) 1
                        (Some 65536) 4096;
          _create_decoder 48000 1; _malloc 2048; _malloc 8192]
    /\ _outputBuffer s = Some 2048
    /\ _outputPointer s = Some 65536
    /\ Z.of_nat (length result) = 2880
    /\ 2048 < 2880 <= 4096
    /\ nth 2879 result 0 = Stub.HEAPF32 (tl (calls s)) (65536 + 4 * 2879)
    /\ 65536 + 8192 <= 65536 + 4 * 2879.
Proof.
  intros container. do 2 eexists.
  split; [vm_compute; reflexivity|].
  vm_compute. repeat split; discriminate.
Qed.

(** ** Finalization *)

(** [slice(0, 4 * c)] of a buffer of [L] floats, for a negative [c]: the
    first [L + c] floats, none when [L + c <= 0]. *)
Lemma ArrayBuffer_slice_negative_end (audio : list sample) (c : Z) :
  c < 0 ->
  ArrayBuffer_slice audio 0 (c * 4)
  = firstn (Z.to_nat (Z.of_nat (length audio) + c)) audio.
Proof.
  intros Hc. unfold ArrayBuffer_slice, slice_bounds.
  set (L := Z.of_nat (length audio)).
  destruct (Z.ltb_spec 0 0); [lia|].
  destruct (Z.ltb_spec (c * 4) 0); [|lia].
  replace (Z.min 0 (4 * L)) with 0 by lia.
  change (0 / 4) with 0. cbn [Z.to_nat skipn].
  f_equal.
  destruct (Z.le_gt_cases (L + c) 0) as [Hempty|Hsome].
  - replace (Z.max (Z.max (4 * L + c * 4) 0 - 0) 0) with 0 by lia.
    change (0 / 4) with 0. lia.
  - replace (Z.max (Z.max (4 * L + c * 4) 0 - 0) 0) with ((L + c) * 4) by lia.
    now rewrite Z.div_mul by lia.
Qed.

(** C10, as the code has it.  When the walk returns with a negative cursor
    [c] and an output buffer of [L] floats, the job returns: its result is
    the first [L + c] floats of the buffer, [max 0 (4 L + 4 c)] bytes, which
    is nothing at all when [L + c <= 0]; the decoder has been destroyed and
    the variables reset. *)
Theorem negative_cursor_at_end returns HEAPF32 fuel data s s1 audio :
  ParseMaster returns HEAPF32 fuel data 0 (DataView.byteLength data) s
  = Return tt s1 ->
  _outputOffset s1 < 0 ->
  _audioBuffer s1 = Some audio ->
  let L := Z.of_nat (length audio) in
  let c := _outputOffset s1 in
  let result := firstn (Z.to_nat (L + c)) audio in
  exists s2,
    OpusDecode returns HEAPF32 fuel data s = Return result s2
    /\ byteLength result = Z.max 0 (4 * L + 4 * c)
    /\ calls s2 = _destroy_decoder (_decoder s1) :: calls s1
    /\ _decoder s2 = None
    /\ _audioBuffer s2 = None
    /\ _outputOffset s2 = 0.
Proof.
  intros Hwalk Hneg Haudio L c result.
  eexists. split; [|split].
  - unfold OpusDecode.
    rewrite (bind_Return _ _ s s1 tt) by exact Hwalk.
    unfold DestroyDecoder. run.
    cbn [_audioBuffer set_outputOffset set_decoder add_call].
    rewrite Haudio. run.
    rewrite ArrayBuffer_slice_negative_end by exact Hneg.
    reflexivity.
  - unfold byteLength, result. rewrite length_firstn. fold L. lia.
  - repeat split.
Qed.

Lemma negative_cursor_at_end_witness :
  let data :=
    [x44; x89; x84; x00; x00; x00; x00; x56; xaa; x83; x63; x2e; xa0]%byte in
  exists s1 s2,
    Stub.ParseMaster 3 data 0 13 initial = Return tt s1
    /\ _outputOffset s1 = - 312
    /\ _audioBuffer s1 = Some (repeat 0 (Z.to_nat 5760))
    /\ Stub.OpusDecode 3 data initial
       = Return (firstn (Z.to_nat (5760 + - 312)) (repeat 0 (Z.to_nat 5760)))
                s2.
Proof.
  intros data.
  assert (Hwalk : Stub.ParseMaster 3 data 0 (DataView.byteLength data) initial
                  = Return tt
                      (mkState (Some 1048576) (Some (repeat 0 (Z.to_nat 5760)))
                         (Some 73728) (Some 2048) (Some 65536) (- 312)
                         [_create_decoder 48000 1; _malloc 2048; _malloc 8192]))
    by (vm_compute; reflexivity).
  destruct (negative_cursor_at_end Stub.returns Stub.HEAPF32 3 data initial
              _ (repeat 0 (Z.to_nat 5760)) Hwalk)
    as (s2 & Hjob & _); [reflexivity | reflexivity |].
  do 2 eexists.
  split; [exact Hwalk|]. split; [reflexivity|]. split; [reflexivity|].
  exact Hjob.
Defined.

(** C10 fails as stated in three ways.  The result is empty when the
    magnitude of the cursor is at least the length of the buffer (a Duration
    of 0 ms gives 5760 floats, a CodecDelay of 2147483647 ns a cursor of
    -103079).  The result is the head of the buffer, not its tail, and the
    buffer may have been written: a frame of 960 samples followed by a
    DiscardPadding of 40000000 ns leaves the cursor at -960, and the 4800
    floats returned start with the samples of the frame.  And without a
    Duration element there is no buffer to slice: the job fails. *)
Lemma negative_cursor_results :
  let long_delay :=
    [x44; x89; x84; x00; x00; x00; x00;
     x56; xaa; x84; x7f; xff; xff; xff]%byte in
  let late_discard :=
    [x44; x89; x84; x00; x00; x00; x00;
     xa3; x85; x81; x00; x00; x00; x14;
     x75; xa2; x84; x02; x62; x5a; x00]%byte in
  let no_duration := [x56; xaa; x83; x63; x2e; xa0]%byte in
  (exists s1 s2,
      Stub.ParseMaster 3 long_delay 0 14 initial = Return tt s1
      /\ _outputOffset s1 = - 103079
      /\ option_map byteLength (_audioBuffer s1) = Some 23040
      /\ Stub.OpusDecode 3 long_delay initial = Return [] s2)
  /\ (exists s1 audio result s2,
         Stub.ParseMaster 4 late_discard 0 21 initial = Return tt s1
         /\ _outputOffset s1 = - 960
         /\ _audioBuffer s1 = Some audio
         /\ Stub.OpusDecode 4 late_discard initial = Return result s2
         /\ result = firstn 4800 audio
         /\ result <> skipn 960 audio
         /\ nth 0 result 0 = Stub.HEAPF32 (calls s1) 65536)
  /\ (exists s1 s2,
         Stub.ParseMaster 3 no_duration 0 6 initial = Return tt s1
         /\ _outputOffset s1 = - 312
         /\ Stub.OpusDecode 3 no_duration initial = Throw TypeError s2).
Proof.
  intros long_delay late_discard no_duration. split; [|split].
  - do 2 eexists. split; [vm_compute; reflexivity|].
    vm_compute. repeat split.
  - do 4 eexists. split; [vm_compute; reflexivity|].
    split; [reflexivity|]. split; [reflexivity|].
    split; [vm_compute; reflexivity|].
    split; [vm_compute; reflexivity|].
    split; [|vm_compute; reflexivity].
    vm_compute. discriminate.
  - do 2 eexists. split; [vm_compute; reflexivity|].
    split; [reflexivity|]. vm_compute. reflexivity.
Qed.

(** ** Duration and the output buffer *)

Section Durations.

Variable returns : list call -> call -> Z.
Variable HEAPF32 : list call -> Z -> sample.

Lemma CalculateAudioBufferSize_48 duration :
  CalculateAudioBufferSize (JS.of_Z 48000) (JS.of_Z 1)
                           (JS.add duration (JS.of_Z 120))
  = buffer_length duration.
Proof. reflexivity. Qed.

(** What [CreateDecoder(duration)] does. *)
Lemma CreateDecoder_run duration s :
  CreateDecoder returns duration s
  = match JS.ToIndex (buffer_length duration) with
    | None => Throw RangeError s
    | Some n =>
        let s' :=
          with_decoder returns
            (with_input returns (with_scratch returns (with_audio n s))) in
        if match _decoder s' with Some d => d <? 0 | None => false end
        then Throw FailedToCreateDecoder s'
        else Return tt s'
    end.
Proof.
  unfold CreateDecoder. rewrite CalculateAudioBufferSize_48.
  destruct (JS.ToIndex (buffer_length duration)) as [n|]; [|reflexivity].
  run. fold (with_audio n s).
  set (s1 := with_audio n s).
  assert (E2 : forall (k : unit -> M unit),
             bind (if truthy_object (_outputBuffer s1) then ret tt
                   else
                     p <- native returns (_malloc (JS.shl 2048 2)) ;;
                     modify (set_outputPointer (Some p)) ;;
                     modify (set_outputBuffer (Some 2048))) k s1
             = k tt (with_scratch returns s1)).
  { intros k. unfold with_scratch.
    destruct (truthy_object (_outputBuffer s1)); now run. }
  rewrite E2. run.
  set (s2 := with_scratch returns s1).
  assert (E3 : forall (k : unit -> M unit),
             bind (if truthy_number (_inputPointer s2) then ret tt
                   else
                     p <- native returns (_malloc 2048) ;;
                     modify (set_inputPointer (Some p))) k s2
             = k tt (with_input returns s2)).
  { intros k. unfold with_input.
    destruct (truthy_number (_inputPointer s2)); now run. }
  rewrite E3. run.
  set (s3 := with_input returns s2).
  fold (with_decoder returns s3).
  cbn [with_decoder _decoder set_decoder].
  now destruct (returns (calls s3) (_create_decoder 48000 1) <? 0).
Qed.

Lemma with_steps_audio n s :
  _audioBuffer
    (with_decoder returns
       (with_input returns (with_scratch returns (with_audio n s))))
  = Some (repeat 0 (Z.to_nat n)).
Proof.
  unfold with_decoder, with_input, with_scratch.
  destruct (truthy_object _), (truthy_number _); reflexivity.
Qed.

End Durations.

(** Whatever the native module, [CreateDecoder] asks for 8192 bytes of
    scratch when there is none yet and records a view of 2048 floats on
    them, and [ParseFrame] tells the decoder that 4096 samples fit. *)
Lemma CreateDecoder_scratch returns duration s s' :
  _outputBuffer s = None ->
  CreateDecoder returns duration s = Return tt s' ->
  _outputBuffer s' = Some 2048
  /\ _outputPointer s' = Some (returns (calls s) (_malloc 8192))
  /\ In (_malloc 8192) (calls s')
  /\ forall frame, exists decoder inputPointer length outputPointer,
        decode_call frame s'
        = _decode_frame decoder frame inputPointer length outputPointer 4096.
Proof.
  intros Hnone Hrun. rewrite CreateDecoder_run in Hrun.
  destruct (JS.ToIndex (buffer_length duration)) as [n|];
    [|discriminate Hrun].
  cbv zeta in Hrun.
  destruct (match _decoder _ with Some d => d <? 0 | None => false end);
    [discriminate Hrun|].
  injection Hrun as <-.
  unfold with_decoder, with_input, with_scratch, with_audio.
  cbn [_outputBuffer set_audioBuffer]. rewrite Hnone. cbn [truthy_object].
  destruct (truthy_number _); cbn; repeat split; auto;
    intros frame; unfold decode_call; now do 4 eexists.
Qed.

(** The integer part kept by [ToIndex] is the floor of a value that is not
    negative. *)
Lemma ToIndex_Qfloor (x : JS.number) (n : Z) (q : Q) :
  JS.ToIndex x = Some n -> JS.to_Q x = Some q -> (0 <= q)%Q -> n = Qfloor q.
Proof.
  destruct x as [sz|si| |s m e]; unfold JS.ToIndex, JS.to_Q;
    try discriminate.
  - intros [= <-] [= <-] _. reflexivity.
  - pose proof (Pos2Z.neg_is_neg m) as Hneg.
    pose proof (Pos2Z.is_pos m) as Hpos.
    destruct s.
    + (* a negative value has no floor to speak of here *)
      intros _ Hq Hle. exfalso.
      generalize dependent (Z.neg m). intros z Hz Hq.
      destruct (Z.leb_spec 0 e) as [He|He]; injection Hq as <-;
        unfold Qle, inject_Z in Hle; cbn [Qnum Qden] in Hle.
      * assert (0 < 2 ^ e) by (apply Z.pow_pos_nonneg; lia). nia.
      * lia.
    + generalize dependent (Z.pos m). intros z Hz.
      destruct (Z.leb_spec 0 e) as [He|He].
      * destruct (z * 2 ^ e <=? 2 ^ 53 - 1); [|discriminate].
        intros [= <-] [= <-] _. now rewrite Qfloor_Z.
      * assert (Hpow : 0 < 2 ^ (- e)) by (apply Z.pow_pos_nonneg; lia).
        destruct (z / 2 ^ (- e) <=? 2 ^ 53 - 1); [|discriminate].
        intros [= <-] [= <-] _. unfold Qfloor.
        now rewrite Z2Pos.id by exact Hpow.
Qed.

(** What [ToIndex] makes of a double.  When it gives an index [n], the
    double is NaN and [n] is 0, or it is a finite value [q] above -1 and
    below 2^53 and [n] is [q] with its fraction dropped: the floor of [q],
    or 0 for a [q] between -1 and 0. *)
Lemma ToIndex_Some (x : JS.number) (n : Z) :
  JS.ToIndex x = Some n ->
  0 <= n <= 2 ^ 53 - 1
  /\ match JS.to_Q x with
     | Some q => (-1 < q)%Q /\ (q < inject_Z (2 ^ 53))%Q
                 /\ n = Z.max 0 (Qfloor q)
     | None => x = S754_nan /\ n = 0
     end.
Proof.
  destruct x as [sz|si| |s m e]; unfold JS.ToIndex, JS.to_Q;
    try discriminate.
  - intros [= <-]. split; [lia|]. split; [reflexivity|].
    split; reflexivity.
  - intros [= <-]. split; [lia|]. split; reflexivity.
  - pose proof (Pos2Z.is_pos m) as Hpos.
    assert (Hneg : Z.neg m = - Z.pos m) by reflexivity.
    destruct (Z.leb_spec 0 e) as [He|He].
    + assert (Hpow : 0 < 2 ^ e) by (apply Z.pow_pos_nonneg; lia).
      destruct s.
      * destruct (Z.eqb_spec (Z.pos m * 2 ^ e) 0); [exfalso; nia | discriminate].
      * assert (Ha : 0 < Z.pos m * 2 ^ e) by nia.
        generalize dependent (Z.pos m * 2 ^ e). intros a Ha.
        destruct (Z.leb_spec a (2 ^ 53 - 1)); [|discriminate].
        intros [= <-]. split; [lia|].
        rewrite Qfloor_Z. unfold Qlt, inject_Z. cbn [Qnum Qden].
        repeat split; lia.
    + assert (Hpow : 0 < 2 ^ (- e)) by (apply Z.pow_pos_nonneg; lia).
      generalize dependent (2 ^ (- e)). intros d Hd.
      unfold Qfloor, Qlt, inject_Z. cbn [Qnum Qden].
      rewrite Z2Pos.id by exact Hd.
      destruct s.
      * destruct (Z.eqb_spec (Z.pos m / d) 0) as [E|]; [|discriminate].
        intros [= <-]. split; [lia|].
        apply Z.div_small_iff in E; [|lia].
        assert (Hm : Z.pos m < d) by lia.
        rewrite Hneg.
        assert (Hfloor : - Z.pos m / d = - 1).
        { symmetry. apply (Z.div_unique_pos _ _ _ (d - Z.pos m)); lia. }
        rewrite Hfloor. repeat split; try nia; lia.
      * destruct (Z.leb_spec (Z.pos m / d) (2 ^ 53 - 1)) as [Hle|];
          [|discriminate].
        intros [= <-].
        assert (0 <= Z.pos m / d) by (apply Z.div_pos; lia).
        split; [lia|].
        pose proof (Z.mul_succ_div_gt (Z.pos m) d Hd).
        repeat split; try nia; lia.
Qed.

(** When [ToIndex] raises [RangeError], the double is infinite, or it is a
    finite value that is -1 or less, or 2^53 or more. *)
Lemma ToIndex_None (x : JS.number) :
  JS.ToIndex x = None ->
  match JS.to_Q x with
  | Some q => (q <= -1)%Q \/ (inject_Z (2 ^ 53) <= q)%Q
  | None => exists sign, x = S754_infinity sign
  end.
Proof.
  destruct x as [sz|si| |s m e]; unfold JS.ToIndex, JS.to_Q;
    try discriminate.
  - intros _. now exists si.
  - pose proof (Pos2Z.is_pos m) as Hpos.
    assert (Hneg : Z.neg m = - Z.pos m) by reflexivity.
    destruct (Z.leb_spec 0 e) as [He|He].
    + assert (Hpow : 0 < 2 ^ e) by (apply Z.pow_pos_nonneg; lia).
      unfold Qle, inject_Z. cbn [Qnum Qden].
      destruct s.
      * intros _. left. nia.
      * destruct (Z.leb_spec (Z.pos m * 2 ^ e) (2 ^ 53 - 1));
          [discriminate|].
        intros _. right. nia.
    + assert (Hpow : 0 < 2 ^ (- e)) by (apply Z.pow_pos_nonneg; lia).
      generalize dependent (2 ^ (- e)). intros d Hd.
      unfold Qle, inject_Z. cbn [Qnum Qden].
      rewrite Z2Pos.id by exact Hd.
      destruct s.
      * destruct (Z.eqb_spec (Z.pos m / d) 0) as [|E]; [discriminate|].
        intros _. left.
        assert (~ Z.pos m < d)
          by (intros Hlt; apply E; apply Z.div_small; lia).
        nia.
      * destruct (Z.leb_spec (Z.pos m / d) (2 ^ 53 - 1)) as [|Hgt];
          [discriminate|].
        intros _. right.
        pose proof (Z.mul_div_le (Z.pos m) d Hd). nia.
Qed.

(** C4, as the code has it.  [ParseDuration] raises "Invalid size" unless
    the size of the field is 4 or 8.  When it returns, the field has been
    read as a binary32 (size 4) or binary64 (size 8) number [duration], and
    the output buffer is a fresh array of [n] floats where [n] is the double
    [48 * (duration + 120)] with its fraction dropped: for a finite value
    [q] of that double, [q] lies above -1 and below 2^53 and [n] is the
    floor of [q] when [0 <= q] and 0 when [q < 0]; for a double that is not
    finite, it is NaN and [n] is 0.  So [n] is [(duration + 120) * 48]
    itself only when that is an integer that is not negative.  When the
    double is -1 or less, 2^53 or more, or infinite, [ParseDuration] raises
    [RangeError] and the state is as it was. *)
Theorem duration_allocates_buffer returns data position size s :
  (size <> 4 -> size <> 8 ->
   ParseDuration returns data position size s = Throw InvalidSize s)
  /\ (forall s',
         ParseDuration returns data position size s = Return tt s' ->
         exists duration n,
           (size = 4 /\ DataView.getFloat32 data position = Some duration
            \/ size = 8 /\ DataView.getFloat64 data position = Some duration)
           /\ JS.ToIndex (buffer_length duration) = Some n
           /\ _audioBuffer s' = Some (repeat 0 (Z.to_nat n))
           /\ 0 <= n
           /\ (forall q, JS.to_Q (buffer_length duration) = Some q ->
                         (-1 < q)%Q /\ (q < inject_Z (2 ^ 53))%Q
                         /\ n = Z.max 0 (Qfloor q)
                         /\ ((0 <= q)%Q -> n = Qfloor q)
                         /\ ((q < 0)%Q -> n = 0))
           /\ (JS.to_Q (buffer_length duration) = None ->
               buffer_length duration = S754_nan /\ n = 0))
  /\ (forall duration,
         size = 4 /\ DataView.getFloat32 data position = Some duration
         \/ size = 8 /\ DataView.getFloat64 data position = Some duration ->
         match JS.to_Q (buffer_length duration) with
         | Some q => (q <= -1)%Q \/ (inject_Z (2 ^ 53) <= q)%Q
         | None => exists sign, buffer_length duration = S754_infinity sign
         end ->
         ParseDuration returns data position size s = Throw RangeError s).
Proof.
  split; [|split].
  - intros H4 H8. unfold ParseDuration. apply bind_Throw.
    destruct (Z.eqb_spec size 4); [contradiction|].
    destruct (Z.eqb_spec size 8); [contradiction|].
    reflexivity.
  - intros s' Hrun. unfold ParseDuration in Hrun.
    apply bind_inv_Return in Hrun as (duration & s1 & Hread & Hcreate).
    assert (Hfield :
              (size = 4 /\ DataView.getFloat32 data position = Some duration
               \/ size = 8 /\ DataView.getFloat64 data position = Some duration)
              /\ s1 = s).
    { destruct (Z.eqb_spec size 4) as [E4|_].
      - destruct (DataView.getFloat32 data position) as [d|];
          [|discriminate Hread].
        injection Hread as -> ->. split; [left|]; auto.
      - destruct (Z.eqb_spec size 8) as [E8|_]; [|discriminate Hread].
        destruct (DataView.getFloat64 data position) as [d|];
          [|discriminate Hread].
        injection Hread as -> ->. split; [right|]; auto. }
    destruct Hfield as [Hfield ->].
    rewrite CreateDecoder_run in Hcreate.
    destruct (JS.ToIndex (buffer_length duration)) as [n|] eqn:En;
      [|discriminate Hcreate].
    cbv zeta in Hcreate.
    destruct (match _decoder _ with Some d => d <? 0 | None => false end);
      [discriminate Hcreate|].
    injection Hcreate as <-.
    exists duration, n. split; [exact Hfield|]. split; [exact En|].
    split; [apply with_steps_audio|].
    destruct (ToIndex_Some _ _ En) as [Hn Hq].
    split; [lia|]. split.
    + intros q Eq. rewrite Eq in Hq. destruct Hq as (Hlow & Hhigh & Hfloor).
      split; [exact Hlow|]. split; [exact Hhigh|]. split; [exact Hfloor|].
      split.
      * intros Hle. apply (Qfloor_resp_le 0 q) in Hle.
        change (Qfloor 0) with 0 in Hle. lia.
      * intros Hlt.
        assert (Qfloor q < 0); [|lia].
        pose proof (Qfloor_le q) as Hfl.
        destruct (Z.ltb_spec (Qfloor q) 0) as [|Hge]; [assumption|].
        exfalso. apply (Qlt_irrefl 0).
        apply Qle_lt_trans with q; [|exact Hlt].
        apply Qle_trans with (inject_Z (Qfloor q)); [|exact Hfl].
        unfold Qle, inject_Z. cbn [Qnum Qden]. lia.
    + intros Eq. now rewrite Eq in Hq.
  - intros duration Hfield Hout.
    assert (Hidx : JS.ToIndex (buffer_length duration) = None).
    { destruct (JS.ToIndex (buffer_length duration)) as [n|] eqn:En;
        [|reflexivity].
      exfalso. destruct (ToIndex_Some _ _ En) as [_ Hq].
      destruct (JS.to_Q (buffer_length duration)) as [q|].
      - destruct Hq as (Hlow & Hhigh & _).
        destruct Hout as [Hout|Hout].
        + apply (Qlt_irrefl q). apply Qle_lt_trans with (-1)%Q; assumption.
        + apply (Qlt_irrefl q).
          apply Qlt_le_trans with (inject_Z (2 ^ 53)); assumption.
      - destruct Hq as [Hq _], Hout as [sign Hout]. congruence. }
    unfold ParseDuration.
    assert (Hread : (if size =? 4 then ranged (DataView.getFloat32 data position)
                     else if size =? 8
                          then ranged (DataView.getFloat64 data position)
                          else throw InvalidSize) s = Return duration s).
    { destruct Hfield as [[-> ->]|[-> ->]]; reflexivity. }
    rewrite (bind_Return _ _ _ _ _ Hread).
    rewrite CreateDecoder_run, Hidx. reflexivity.
Qed.

Lemma duration_allocates_buffer_witness :
  let data := [x44; x89; x84; x42; x20; x00; x00]%byte in
  3 <> 4 /\ 3 <> 8
  /\ ParseDuration Stub.returns data 3 3 initial = Throw InvalidSize initial
  /\ exists s' duration n,
      ParseDuration Stub.returns data 3 4 initial = Return tt s'
      /\ DataView.getFloat32 data 3 = Some duration
      /\ (exists q, JS.to_Q (buffer_length duration) = Some q
                    /\ (q == inject_Z 7680)%Q)
      /\ _audioBuffer s' = Some (repeat 0 (Z.to_nat n))
      /\ n = 7680.
Proof.
  intros data.
  assert (H4 : 3 <> 4) by discriminate.
  assert (H8 : 3 <> 8) by discriminate.
  split; [exact H4|]. split; [exact H8|].
  split.
  - exact (proj1 (duration_allocates_buffer Stub.returns data 3 3 initial)
                 H4 H8).
  - assert (Hrun : exists s',
               ParseDuration Stub.returns data 3 4 initial = Return tt s')
      by (eexists; vm_compute; reflexivity).
    destruct Hrun as [s' Hrun].
    destruct (proj1 (proj2 (duration_allocates_buffer
                              Stub.returns data 3 4 initial)) s' Hrun)
      as (duration & n & Hfield & Hidx & Hbuf & _ & Hq & _).
    exists s', duration, n.
    destruct Hfield as [[_ Hf]|[E _]]; [|discriminate E].
    split; [exact Hrun|]. split; [exact Hf|].
    vm_compute in Hf. injection Hf as <-.
    destruct (JS.to_Q (buffer_length _)) as [q|] eqn:Eq;
      [|vm_compute in Eq; discriminate Eq].
    destruct (Hq q eq_refl) as (_ & _ & Hn & _).
    vm_compute in Eq. injection Eq as <-.
    split; [eexists; split; [reflexivity | reflexivity]|].
    split; [exact Hbuf | exact Hn].
Defined.

(** C4 fails as stated for a duration whose sample count is not an
    integer.  The binary32 field [3C 80 00 00] is 1/64 ms;
    (1/64 + 120) * 48 is 5760.75, and the buffer has 5760 floats. *)
Lemma fractional_duration_truncated :
  let data := [x44; x89; x84; x3c; x80; x00; x00]%byte in
  exists duration q s' audioBuffer,
    DataView.getFloat32 data 3 = Some duration
    /\ JS.to_Q duration = Some q
    /\ (q == 1 # 64)%Q
    /\ ParseDuration Stub.returns data 3 4 initial = Return tt s'
    /\ _audioBuffer s' = Some audioBuffer
    /\ Z.of_nat (length audioBuffer) = 5760
    /\ ~ (inject_Z (Z.of_nat (length audioBuffer))
          == ((1 # 64) + 120) * 48)%Q.
Proof.
  intros data. do 4 eexists.
  split; [vm_compute; reflexivity|].
  split; [vm_compute; reflexivity|].
  split; [vm_compute; reflexivity|].
  split; [vm_compute; reflexivity|].
  split; [reflexivity|].
  split; [vm_compute; reflexivity|].
  vm_compute. discriminate.
Qed.

(** A Duration whose sample count is negative or not a number still
    succeeds: the binary32 field [C2 F0 0A 3D], about -120.02 ms, gives a
    count between -1 and 0 and a buffer of no floats, as does the NaN field
    [7F C0 00 00]; the field [C2 F2 00 00], -121 ms, gives -48 and
    [RangeError]. *)
Lemma duration_edge_cases :
  (let data := [x44; x89; x84; xc2; xf0; x0a; x3d]%byte in
   exists duration q s',
     DataView.getFloat32 data 3 = Some duration
     /\ JS.to_Q (buffer_length duration) = Some q
     /\ (-1 < q)%Q /\ (q < 0)%Q /\ Qfloor q = - 1
     /\ ParseDuration Stub.returns data 3 4 initial = Return tt s'
     /\ _audioBuffer s' = Some [])
  /\ (let data := [x44; x89; x84; x7f; xc0; x00; x00]%byte in
      exists s',
        DataView.getFloat32 data 3 = Some S754_nan
        /\ ParseDuration Stub.returns data 3 4 initial = Return tt s'
        /\ _audioBuffer s' = Some [])
  /\ (let data := [x44; x89; x84; xc2; xf2; x00; x00]%byte in
      exists duration q,
        DataView.getFloat32 data 3 = Some duration
        /\ JS.to_Q (buffer_length duration) = Some q
        /\ (q == inject_Z (- 48))%Q
        /\ ParseDuration Stub.returns data 3 4 initial
           = Throw RangeError initial).
Proof.
  split; [|split].
  - intros data. do 3 eexists.
    split; [vm_compute; reflexivity|].
    split; [vm_compute; reflexivity|].
    split; [vm_compute; reflexivity|].
    split; [vm_compute; reflexivity|].
    split; [vm_compute; reflexivity|].
    split; [vm_compute; reflexivity|].
    reflexivity.
  - intros data. eexists.
    split; [vm_compute; reflexivity|].
    split; [vm_compute; reflexivity|].
    reflexivity.
  - intros data. do 2 eexists.
    split; [vm_compute; reflexivity|].
    split; [vm_compute; reflexivity|].
    split; vm_compute; reflexivity.
Qed.

(** ** The failure path *)

Lemma keeps_refl s : keeps_resources s s.
Proof. exists []. cbn. intuition discriminate. Qed.

Lemma keeps_trans s1 s2 s3 :
  keeps_resources s1 s2 -> keeps_resources s2 s3 -> keeps_resources s1 s3.
Proof.
  intros (n1 & E1 & D1 & K1 & A1) (n2 & E2 & D2 & K2 & A2).
  exists (n2 ++ n1). rewrite E2, E1, app_assoc. split; [reflexivity|].
  rewrite !existsb_app, D1, D2. split; [reflexivity|].
  split; intros [H|H].
  - apply orb_true_iff in H as [H|H]; [apply K2; now left|].
    apply K2. right. apply K1. now left.
  - apply K2. right. apply K1. now right.
  - apply orb_true_iff in H as [H|H]; [apply A2; now left|].
    apply A2. right. apply A1. now left.
  - apply A2. right. apply A1. now right.
Qed.

(** A state that differs in the cursor only, or that has one more call
    which neither creates nor destroys a decoder. *)
Lemma keeps_offset s v : keeps_resources s (set_outputOffset v s).
Proof. exists []. cbn. intuition discriminate. Qed.

Lemma keeps_audio s audio : keeps_resources s (set_audioBuffer (Some audio) s).
Proof. exists []. cbn. intuition discriminate. Qed.

Lemma keeps_call s c :
  is_destroy c = false -> is_create c = false ->
  keeps_resources s (add_call c s).
Proof.
  intros Hd Hc. exists [c]. cbn. rewrite Hd, Hc. cbn.
  intuition discriminate.
Qed.

Section Preservation.

Variable returns : list call -> call -> Z.
Variable HEAPF32 : list call -> Z -> sample.

Lemma preserves_ret {A} (a : A) : preserves (ret a).
Proof. intros s. apply keeps_refl. Qed.

Lemma preserves_throw {A} (e : error) : preserves (@throw A e).
Proof. intros s. apply keeps_refl. Qed.

Lemma preserves_ranged {A} (o : option A) : preserves (ranged o).
Proof. intros s. destruct o; apply keeps_refl. Qed.

(** [k] need only behave on the values [c] can return. *)
Lemma preserves_bind_post {A B} (Q : A -> Prop) (c : M A) (k : A -> M B) :
  (forall s a s', c s = Return a s' -> Q a) ->
  preserves c -> (forall a, Q a -> preserves (k a)) -> preserves (bind c k).
Proof.
  intros HQ Hc Hk s. unfold bind. specialize (Hc s). specialize (HQ s).
  destruct (c s) as [a s1|e s1| |]; try exact Hc.
  specialize (Hk a (HQ a s1 eq_refl) s1).
  destruct (k a s1) as [b s2|e s2| |]; try exact Hk;
    now apply (keeps_trans s s1 s2).
Qed.

Lemma preserves_bind {A B} (c : M A) (k : A -> M B) :
  preserves c -> (forall a, preserves (k a)) -> preserves (bind c k).
Proof.
  intros Hc Hk.
  apply (preserves_bind_post (fun _ => True)); auto.
Qed.

(** The frames of a duration the script can have read are a number. *)
Lemma preserves_frames {B} (D : Z) (k : Z -> M B) :
  - 2 ^ 53 < D < 2 ^ 53 ->
  (forall n, preserves (k n)) ->
  preserves (bind (finite (frames_of_ns D)) k).
Proof.
  intros HD Hk. destruct (frames_of_ns_defined D HD) as [n ->].
  apply preserves_bind; [apply preserves_ret | exact Hk].
Qed.

Lemma preserves_set_offset (f : State -> Z) :
  preserves (bind (get f) (fun v => modify (set_outputOffset v))).
Proof. intros s. cbn. apply keeps_offset. Qed.

Lemma preserves_CreateDecoder duration :
  preserves (CreateDecoder returns duration).
Proof.
  intros s. rewrite CreateDecoder_run.
  destruct (JS.ToIndex (buffer_length duration)) as [n|];
    [|apply keeps_refl].
  cbv zeta.
  assert (H : keeps_resources s
                (with_decoder returns
                   (with_input returns
                      (with_scratch returns (with_audio n s))))).
  { unfold keeps_resources.
    rewrite (with_steps_audio returns n s).
    unfold with_decoder, with_input, with_scratch, with_audio.
    destruct (truthy_object _), (truthy_number _); cbn;
      [ exists [_create_decoder 48000 1]
      | exists [_create_decoder 48000 1; _malloc 2048]
      | exists [_create_decoder 48000 1; _malloc 8192]
      | exists [_create_decoder 48000 1; _malloc 2048; _malloc 8192] ];
      cbn; intuition discriminate. }
  now destruct (match _decoder _ with Some d => d <? 0 | None => false end).
Qed.

Lemma preserves_WriteOutput ret_ : preserves (WriteOutput HEAPF32 ret_).
Proof.
  intros s. rewrite WriteOutput_run. cbv zeta.
  destruct (0 <? ret_ + _outputOffset s); [|apply keeps_offset].
  destruct ((_outputOffset s <? 0) || (0 <=? ret_)); [|apply keeps_refl].
  destruct (_audioBuffer s) as [audio|]; [|apply keeps_refl].
  destruct (Z.of_nat (length audio) <? _outputOffset s + ret_);
    [apply keeps_refl|].
  eapply keeps_trans; [apply keeps_audio | apply keeps_offset].
Qed.

Lemma preserves_ParseFrame frame : preserves (ParseFrame returns HEAPF32 frame).
Proof.
  intros s. rewrite ParseFrame_run.
  assert (Hcall : keeps_resources s (add_call (decode_call frame s) s))
    by now apply keeps_call.
  destruct (0 <? decoded_count returns frame s); [|exact Hcall].
  pose proof (preserves_WriteOutput (decoded_count returns frame s)
                (add_call (decode_call frame s) s)) as Hw.
  destruct (WriteOutput _ _ _) as [a s1|e s1| |]; try exact Hw;
    now apply (keeps_trans s _ s1 Hcall).
Qed.

End Preservation.

Section Walk.

Variable returns : list call -> call -> Z.
Variable HEAPF32 : list call -> Z -> sample.

Create HintDb keeps.
#[local] Hint Resolve preserves_ret preserves_throw preserves_ranged
  preserves_set_offset : keeps.

Lemma preserves_ParseBlock data position size :
  preserves (ParseBlock returns HEAPF32 data position size).
Proof.
  unfold ParseBlock.
  apply preserves_bind; [auto with keeps|]. intros firstByte.
  apply preserves_bind; [auto with keeps|]. intros flags.
  destruct (negb _); [auto with keeps|].
  apply preserves_bind; [auto with keeps|]. intros frame.
  apply preserves_ParseFrame.
Qed.

Lemma preserves_ParseDuration data position size :
  preserves (ParseDuration returns data position size).
Proof.
  unfold ParseDuration. apply preserves_bind.
  - destruct (size =? 4); [auto with keeps|].
    destruct (size =? 8); auto with keeps.
  - intros duration. apply preserves_CreateDecoder.
Qed.

Lemma preserves_ParseIntTag data position size :
  preserves (ParseIntTag data position size).
Proof.
  unfold ParseIntTag.
  destruct (size =? 1); [auto with keeps|].
  destruct (size =? 2); [auto with keeps|].
  destruct (size =? 3); [auto with keeps|].
  destruct (size =? 4); auto with keeps.
Qed.

Lemma ParseIntTag_range data position size s P s' :
  ParseIntTag data position size s = Return P s' -> - 2 ^ 32 <= P < 2 ^ 32.
Proof.
  unfold ParseIntTag, DataView.getInt8, DataView.getInt16, DataView.getInt32.
  destruct (size =? 1).
  { destruct (DataView.getUint8 data position) as [u|] eqn:Eu;
      [|discriminate].
    intros [= <- _]. pose proof (getUint8_range _ _ _ Eu).
    unfold DataView.signed. destruct (u <? 2 ^ (8 - 1)); lia. }
  destruct (size =? 2).
  { destruct (DataView.getUintBE 2 data position 0) as [u|] eqn:Eu;
      [|discriminate].
    intros [= <- _]. apply getUintBE_range in Eu; [|lia].
    unfold DataView.signed. destruct (u <? 2 ^ (16 - 1)); lia. }
  destruct (size =? 3).
  { destruct (ReadInt24 data position) as [u|] eqn:Eu; [|discriminate].
    intros [= <- _]. apply ReadInt24_range in Eu. lia. }
  destruct (size =? 4); [|discriminate].
  destruct (DataView.getUintBE 4 data position 0) as [u|] eqn:Eu;
    [|discriminate].
  intros [= <- _]. apply getUintBE_range in Eu; [|lia].
  unfold DataView.signed. destruct (u <? 2 ^ (32 - 1)); lia.
Qed.

Lemma preserves_ParseDiscard data position size :
  preserves (ParseDiscard data position size).
Proof.
  unfold ParseDiscard.
  apply (preserves_bind_post (fun P => - 2 ^ 32 <= P < 2 ^ 32)).
  - intros s P s'. apply ParseIntTag_range.
  - apply preserves_ParseIntTag.
  - intros P HP.
    destruct (P <? 0); [auto with keeps|].
    apply preserves_frames; [lia|]. intros k.
    apply (preserves_set_offset (fun s => _outputOffset s - k)).
Qed.

Lemma preserves_ParseDelay data position size :
  preserves (ParseDelay data position size).
Proof.
  unfold ParseDelay.
  apply (preserves_bind_post (fun D => - 2 ^ 31 <= D < 2 ^ 31 + 256)).
  - intros s D s'.
    destruct (ReadVInt data position size 255) as [v|] eqn:Ev;
      [|discriminate].
    intros [= <- _]. now apply ReadVInt_range in Ev.
  - auto with keeps.
  - intros D HD. apply preserves_frames; [lia|]. intros k s.
    apply keeps_offset.
Qed.

Lemma preserves_TestOpus data position : preserves (TestOpus data position).
Proof.
  unfold TestOpus. generalize 0 at 1. generalize 6%nat.
  induction n as [|n IH]; intros i; cbn [TestOpus_loop];
    [auto with keeps|].
  apply preserves_bind; [auto with keeps|]. intros b.
  destruct (negb _); [auto with keeps | apply IH].
Qed.

Lemma preserves_while fuel cond (body : Z -> M Z) :
  (forall position, preserves (body position)) ->
  forall position, preserves (while_loop fuel cond body position).
Proof.
  intros Hbody. induction fuel as [|fuel IH]; intros position;
    cbn [while_loop]; (destruct (cond position); [|auto with keeps]).
  - intros s. exact I.
  - apply preserves_bind; [apply Hbody | exact IH].
Qed.

Lemma preserves_switch recurse data id position size :
  preserves (recurse data position size) ->
  preserves (ParseMaster_switch returns HEAPF32 recurse data id
                                position size).
Proof.
  intros Hrec. unfold ParseMaster_switch.
  destruct (is_case id _); [exact Hrec|].
  destruct (id =? 17545); [apply preserves_ParseDuration|].
  destruct (id =? 22186); [apply preserves_ParseDelay|].
  destruct (id =? 30114); [apply preserves_ParseDiscard|].
  destruct (id =? 134); [apply preserves_TestOpus|].
  destruct (is_case id _); [apply preserves_ParseBlock | auto with keeps].
Qed.

Lemma preserves_body recurse data position :
  (forall p n, preserves (recurse data p n)) ->
  preserves (ParseMaster_body returns HEAPF32 recurse data position).
Proof.
  intros Hrec. unfold ParseMaster_body.
  apply preserves_bind; [auto with keeps|]. intros firstByte.
  destruct (_ || _); [auto with keeps|].
  apply preserves_bind; [auto with keeps|]. intros id.
  apply preserves_bind; [auto with keeps|]. intros sizeByte.
  destruct (_ =? 0); [auto with keeps|].
  apply preserves_bind; [auto with keeps|]. intros size.
  apply preserves_bind; [|auto with keeps].
  apply preserves_switch, Hrec.
Qed.

Lemma preserves_ParseMaster fuel data position length :
  preserves (ParseMaster returns HEAPF32 fuel data position length).
Proof.
  revert position length.
  induction fuel as [|fuel IH]; intros position length.
  - intros s. exact I.
  - cbn [ParseMaster]. apply preserves_while. intros p.
    apply preserves_body. intros p' n. apply IH.
Qed.

End Walk.

(** The walk and the job stay within the model: the cursor is a number
    throughout. *)
Lemma ParseMaster_modelled returns HEAPF32 fuel data position length s :
  ParseMaster returns HEAPF32 fuel data position length s <> NotModelled.
Proof.
  pose proof (preserves_ParseMaster returns HEAPF32 fuel data position
                length s) as H.
  intros E. now rewrite E in H.
Qed.

Lemma OpusDecode_modelled returns HEAPF32 fuel arrayBuffer s :
  OpusDecode returns HEAPF32 fuel arrayBuffer s <> NotModelled.
Proof.
  unfold OpusDecode, bind at 1.
  pose proof (ParseMaster_modelled returns HEAPF32 fuel arrayBuffer 0
                (DataView.byteLength arrayBuffer) s) as H.
  destruct (ParseMaster _ _ _ _ _ _ s) as [[] s1|e s1| |];
    try discriminate; [|contradiction].
  unfold DestroyDecoder. run.
  cbn [_audioBuffer set_outputOffset set_decoder add_call].
  destruct (_audioBuffer s1); run; discriminate.
Qed.

Lemma existsb_false_not_In {A} (f : A -> bool) (l : list A) (x : A) :
  existsb f l = false -> f x = true -> ~ In x l.
Proof.
  intros Hl Hx Hin.
  assert (existsb f l = true) by (apply existsb_exists; now exists x).
  congruence.
Qed.

(** The failure path of a job.  When the walk raises an exception, so does
    the job, in the very state the walk was left in: [OpusDecode] has no handler
    that would call [DestroyDecoder] or drop the buffer.  None of the
    native calls made since the job began is a [_destroy_decoder], and if a
    decoder was created during the job, [_decoder] and [_audioBuffer] still
    hold the decoder and the buffer. *)
Theorem failed_job_keeps_decoder returns HEAPF32 fuel data s e s' :
  ParseMaster returns HEAPF32 fuel data 0 (DataView.byteLength data) s
  = Throw e s' ->
  OpusDecode returns HEAPF32 fuel data s = Throw e s'
  /\ exists new,
      calls s' = new ++ calls s
      /\ (forall decoder, ~ In (_destroy_decoder decoder) new)
      /\ (forall frequency channels,
             In (_create_decoder frequency channels) new ->
             _decoder s' <> None /\ _audioBuffer s' <> None).
Proof.
  intros Hwalk. split; [now apply OpusDecode_Throw|].
  pose proof (preserves_ParseMaster returns HEAPF32 fuel data 0
                (DataView.byteLength data) s) as H.
  rewrite Hwalk in H. destruct H as (new & Hcalls & Hd & Hk & Ha).
  exists new. split; [exact Hcalls|]. split.
  - intros decoder. now apply (existsb_false_not_In is_destroy).
  - intros frequency channels Hin.
    assert (existsb is_create new = true)
      by (apply existsb_exists; now exists (_create_decoder frequency channels)).
    split; [apply Hk | apply Ha]; now left.
Qed.

Lemma failed_job_keeps_decoder_witness :
  let data :=
    [x44; x89; x84; x42; x20; x00; x00;
     xa3; x85; x81; x00; x00; x02; x14]%byte in
  exists s',
    Stub.ParseMaster 3 data 0 14 initial = Throw LacingNotSupported s'
    /\ Stub.OpusDecode 3 data initial = Throw LacingNotSupported s'.
Proof.
  intros data. eexists.
  assert (Hwalk : Stub.ParseMaster 3 data 0 (DataView.byteLength data) initial
                  = Throw LacingNotSupported
                      (mkState (Some 1048576) (Some (repeat 0 (Z.to_nat 7680)))
                         (Some 73728) (Some 2048) (Some 65536) 0
                         [_create_decoder 48000 1; _malloc 2048; _malloc 8192]))
    by (vm_compute; reflexivity).
  split; [exact Hwalk|].
  exact (proj1 (failed_job_keeps_decoder Stub.returns Stub.HEAPF32 3 data
                  initial _ _ Hwalk)).
Defined.

(** A Duration element creates the decoder and the buffer, and the laced
    block after it fails the job: the decoder has not
    been destroyed, and [_decoder] and [_audioBuffer] still refer to it and
    to the buffer of 7680 floats. *)
Lemma failed_job_leaks_decoder :
  let data :=
    [x44; x89; x84; x42; x20; x00; x00;
     xa3; x85; x81; x00; x00; x02; x14]%byte in
  exists s',
    Stub.OpusDecode 3 data initial = Throw LacingNotSupported s'
    /\ calls s' = [_create_decoder 48000 1; _malloc 2048; _malloc 8192]
    /\ ~ In (_destroy_decoder (Some 1048576)) (calls s')
    /\ _decoder s' = Some 1048576
    /\ option_map byteLength (_audioBuffer s') = Some (4 * 7680).
Proof.
  intros data. eexists.
  split; [vm_compute; reflexivity|].
  split; [reflexivity|].
  split; [intros [H|[H|[H|[]]]]; discriminate H|].
  split; [reflexivity|]. vm_compute. reflexivity.
Qed.

(** C8: the script does not do what the claim says.  [OpusDecode] destroys
    the decoder, resets the cursor and drops the buffer only after a walk
    that returns.  A first job that creates the decoder (Duration, 40 ms),
    sets the cursor to -312 (CodecDelay, 6.5 ms) and then fails on a laced
    block leaves the decoder alive, the buffer of 7680 floats in place and
    the cursor at -312.  The next job, a Duration and a block with one frame
    of 960 samples, returns 960 floats when it starts from the initial
    state, and there the decoder is destroyed, the cursor is 0 and the
    buffer is dropped at its end; started from the state the failed job
    left, it returns 648 floats, and it has created a second decoder while
    only one was ever destroyed. *)
Lemma failed_job_corrupts_next_job :
  let failing :=
    [x44; x89; x84; x42; x20; x00; x00;
     x56; xaa; x83; x63; x2e; xa0;
     xa3; x85; x81; x00; x00; x02; x14]%byte in
  let next :=
    [x44; x89; x84; x42; x20; x00; x00;
     xa3; x85; x81; x00; x00; x00; x14]%byte in
  exists left_ result clean result' stale,
    Stub.OpusDecode 5 failing initial = Throw LacingNotSupported left_
    /\ _decoder left_ = Some 1048576
    /\ option_map byteLength (_audioBuffer left_) = Some (4 * 7680)
    /\ _outputOffset left_ = - 312
    /\ existsb is_destroy (calls left_) = false
    /\ Stub.OpusDecode 5 next initial = Return result clean
    /\ Z.of_nat (length result) = 960
    /\ _decoder clean = None
    /\ _audioBuffer clean = None
    /\ _outputOffset clean = 0
    /\ Stub.OpusDecode 5 next left_ = Return result' stale
    /\ Z.of_nat (length result') = 648
    /\ length (filter is_create (calls stale)) = 2%nat
    /\ length (filter is_destroy (calls stale)) = 1%nat.
Proof.
  intros failing next. do 5 eexists.
  split; [vm_compute; reflexivity|].
  split; [reflexivity|].
  split; [vm_compute; reflexivity|].
  split; [reflexivity|].
  split; [reflexivity|].
  split; [vm_compute; reflexivity|].
  split; [vm_compute; reflexivity|].
  split; [reflexivity|].
  split; [reflexivity|].
  split; [reflexivity|].
  split; [vm_compute; reflexivity|].
  split; [vm_compute; reflexivity|].
  split; vm_compute; reflexivity.
Qed.

(** * Further properties of the script *)

(** ** Reads within the buffer *)

Lemma getUint8_Some_iff data position :
  (exists b, DataView.getUint8 data position = Some b)
  <-> 0 <= position < DataView.byteLength data.
Proof.
  unfold DataView.getUint8, DataView.byteLength.
  destruct (Z.leb_spec 0 position) as [Hp|Hp].
  - pose proof (nth_error_Some data (Z.to_nat position)) as H.
    destruct (nth_error data (Z.to_nat position)) as [x|]; cbn [option_map].
    + split; [intros _|intros _; eauto].
      assert (Z.to_nat position < length data)%nat by (apply H; discriminate).
      lia.
    + split; [intros [b Hb]; discriminate|].
      intros Hlt. exfalso.
      assert (Z.to_nat position < length data)%nat by lia.
      apply H in H0. now apply H0.
  - split; [intros [b Hb]; discriminate | lia].
Qed.

Lemma getUintBE_Some_iff n data position acc :
  (exists v, DataView.getUintBE n data position acc = Some v)
  <-> n = 0%nat
      \/ 0 <= position /\ position + Z.of_nat n <= DataView.byteLength data.
Proof.
  revert position acc. induction n as [|n IH]; intros position acc;
    cbn [DataView.getUintBE].
  - split; [now left | eauto].
  - pose proof (getUint8_Some_iff data position) as H8.
    destruct (DataView.getUint8 data position) as [b|].
    + assert (Hp : 0 <= position < DataView.byteLength data)
        by (apply H8; eauto).
      rewrite IH. split.
      * intros [-> | H]; right; lia.
      * intros [H|H]; [discriminate|].
        destruct n; [now left | right; lia].
    + split; [intros [v Hv]; discriminate|].
      intros [H|H]; [discriminate|].
      assert (0 <= position < DataView.byteLength data) by lia.
      apply H8 in H0 as [b Hb]. discriminate.
Qed.

Lemma getUintBE_bounds n data position acc v :
  DataView.getUintBE n data position acc = Some v ->
  0 <= acc ->
  acc * 256 ^ Z.of_nat n <= v < (acc + 1) * 256 ^ Z.of_nat n.
Proof.
  revert position acc. induction n as [|n IH]; intros position acc;
    cbn [DataView.getUintBE].
  - intros [= <-] H. cbn. lia.
  - destruct (DataView.getUint8 data position) as [b|] eqn:Eb; [|discriminate].
    intros H Hacc. pose proof (getUint8_range _ _ _ Eb).
    apply IH in H; [|lia].
    rewrite Nat2Z.inj_succ, Z.pow_succ_r by lia.
    assert (0 < 256 ^ Z.of_nat n) by (apply Z.pow_pos_nonneg; lia).
    nia.
Qed.

Lemma ReadVInt_defined_iff data position length mask :
  (exists v, ReadVInt data position length mask = Some v)
  <-> 0 <= position
      /\ position + Z.max 1 length <= DataView.byteLength data.
Proof.
  rewrite ReadVInt_as_getUintBE.
  pose proof (getUint8_Some_iff data position) as H8.
  destruct (DataView.getUint8 data position) as [b|].
  - assert (Hp : 0 <= position < DataView.byteLength data)
      by (apply H8; eauto).
    pose proof (getUintBE_Some_iff (Z.to_nat (length - 1)) data (position + 1)
                  (JS.band b mask)) as HBE.
    destruct (DataView.getUintBE _ data (position + 1) (JS.band b mask))
      as [v|]; cbn [option_map].
    + split; [intros _ | eauto].
      assert (H : exists v0, Some v = Some v0) by eauto.
      apply HBE in H. lia.
    + split; [intros [v Hv]; discriminate|].
      intros H. exfalso.
      assert (Hn : Z.to_nat (length - 1) = 0%nat
                   \/ 0 <= position + 1
                      /\ position + 1 + Z.of_nat (Z.to_nat (length - 1))
                         <= DataView.byteLength data) by lia.
      apply HBE in Hn as [v Hv]. discriminate.
  - split; [intros [v Hv]; discriminate|].
    intros H. exfalso.
    assert (Hp : 0 <= position < DataView.byteLength data) by lia.
    apply H8 in Hp as [b Hb]. discriminate.
Qed.

(** The tables, byte by byte: the length is one more than the number of
    leading zero bits, and the mask of that length clears the marker bit. *)
Lemma VINT_tables_byte (x : byte) :
  let b := Z.of_N (Byte.to_N x) in
  let n := index VINT_SIZES b in
  (b = 0 /\ n = 0)
  \/ (1 <= n <= 8
      /\ 2 ^ (8 - n) <= b < 2 ^ (9 - n)
      /\ index VINT_MASKS n = 2 ^ (8 - n) - 1
      /\ Z.land b (index VINT_MASKS n) = b - 2 ^ (8 - n)).
Proof.
  destruct x; vm_compute;
    first [ left; split; reflexivity
          | right; repeat split; discriminate ].
Qed.

Lemma getUintBE_shift n data position acc d :
  DataView.getUintBE n data position (acc + d)
  = option_map (fun v => v + d * 256 ^ Z.of_nat n)
               (DataView.getUintBE n data position acc).
Proof.
  revert position acc d. induction n as [|n IH]; intros position acc d;
    cbn [DataView.getUintBE option_map].
  - f_equal. cbn. lia.
  - destruct (DataView.getUint8 data position) as [b|]; [|reflexivity].
    replace ((acc + d) * 256 + b) with (acc * 256 + b + d * 256) by lia.
    rewrite IH. destruct (DataView.getUintBE n data (position + 1) _);
      cbn [option_map]; [|reflexivity].
    f_equal. rewrite Nat2Z.inj_succ, Z.pow_succ_r by lia. lia.
Qed.

Lemma getUintBE_first n data position b :
  DataView.getUint8 data position = Some b ->
  DataView.getUintBE (S n) data position 0
  = DataView.getUintBE n data (position + 1) b.
Proof. intros H. cbn [DataView.getUintBE]. now rewrite H. Qed.

(** ** Variable-length integers, for every length *)

(** X1. [ReadVInt] keeps a 32-bit value: it returns the big-endian integer of
    the bytes it reads, the first one masked, reduced into the signed 32-bit
    range; and it reads [max 1 length] bytes, so that it returns a value
    exactly when those lie in the buffer (a [length] of 0 reads one byte). *)
Theorem ReadVInt_wrapped_big_endian data position length mask :
  ReadVInt data position length mask
  = match DataView.getUint8 data position with
    | Some b =>
        option_map JS.ToInt32
          (DataView.getUintBE (Z.to_nat (length - 1)) data (position + 1)
                              (JS.band b mask))
    | None => None
    end
  /\ ((exists v, ReadVInt data position length mask = Some v)
      <-> 0 <= position
          /\ position + Z.max 1 length <= DataView.byteLength data).
Proof.
  split; [apply ReadVInt_as_getUintBE | apply ReadVInt_defined_iff].
Qed.

(** ** The two tables *)

(** X2. For a leading byte [b] other than 0, [VINT_SIZES[b]] is one more than
    the number of leading zero bits of [b], and the mask of that length clears
    exactly the marker bit of [b]. *)
Theorem VINT_tables_agree (b : Z) :
  0 < b <= 255 ->
  let n := index VINT_SIZES b in
  1 <= n <= 8
  /\ 2 ^ (8 - n) <= b < 2 ^ (9 - n)
  /\ index VINT_MASKS n = 2 ^ (8 - n) - 1
  /\ Z.land b (index VINT_MASKS n) = b - 2 ^ (8 - n).
Proof.
  intros Hb.
  assert (Hx : exists x : byte, b = Z.of_N (Byte.to_N x)).
  { destruct (Byte.of_N (Z.to_N b)) as [x|] eqn:Ex.
    - exists x. rewrite (Byte.to_of_N _ Ex). lia.
    - apply Byte.of_N_None_iff in Ex. lia. }
  destruct Hx as [x ->].
  destruct (VINT_tables_byte x) as [[E _]|H]; [lia | exact H].
Qed.

Lemma VINT_tables_agree_witness :
  0 < 26 <= 255
  /\ index VINT_SIZES 26 = 4
  /\ index VINT_MASKS 4 = 2 ^ (8 - 4) - 1
  /\ Z.land 26 (index VINT_MASKS 4) = 26 - 2 ^ (8 - 4).
Proof.
  assert (H : 0 < 26 <= 255) by lia.
  split; [exact H|]. split; [reflexivity|].
  exact (proj2 (proj2 (VINT_tables_agree 26 H))).
Defined.

(** ** Header fields *)

Lemma id_field_value data position idByte id :
  DataView.getUint8 data position = Some idByte ->
  let tagLength := index VINT_SIZES idByte in
  1 <= tagLength <= 4 ->
  ReadVInt data position tagLength 255 = Some id ->
  DataView.getUintBE (Z.to_nat tagLength) data position 0 = Some id
  /\ 2 ^ (7 * tagLength) <= id < 2 ^ (7 * tagLength + 1).
Proof.
  intros Hid tagLength Htl Hrid.
  rewrite ReadVInt_as_getUintBE, Hid in Hrid.
  pose proof (getUint8_range _ _ _ Hid) as Hidb.
  destruct (getUint8_byte _ _ _ Hid) as [x Ex].
  pose proof (VINT_tables_byte x) as Tx. cbv zeta in Tx.
  rewrite <- Ex in Tx. fold tagLength in Tx.
  destruct Tx as [[_ Tx]|(_ & Txb & _ & _)]; [lia|].
  rewrite band_byte in Hrid by lia.
  replace (Z.land idByte 255) with idByte in Hrid
    by (change 255 with (Z.ones 8); rewrite Z.land_ones by lia;
        symmetry; apply Z.mod_small; change (2 ^ 8) with 256; lia).
  replace (Z.to_nat tagLength) with (S (Z.to_nat (tagLength - 1))) by lia.
  rewrite (getUintBE_first _ _ _ _ Hid).
  destruct (DataView.getUintBE (Z.to_nat (tagLength - 1)) data (position + 1)
                               idByte) as [V|] eqn:EV; [|discriminate].
  pose proof (getUintBE_bounds _ _ _ _ _ EV ltac:(lia)) as HV.
  injection Hrid as <-.
  assert (HVr : 2 ^ (7 * tagLength) <= V < 2 ^ (7 * tagLength + 1)).
  { assert (Hc : tagLength = 1 \/ tagLength = 2 \/ tagLength = 3
                 \/ tagLength = 4) by lia.
    destruct Hc as [E|[E|[E|E]]]; rewrite E in *; cbn in HV, Txb |- *; lia. }
  assert (V < 2 ^ 29).
  { assert (2 ^ (7 * tagLength + 1) <= 2 ^ 29)
      by (apply Z.pow_le_mono_r; lia). lia. }
  rewrite (ToInt32_small V) by lia.
  split; [reflexivity | exact HVr].
Qed.

Lemma size_field_value data position sizeByte size :
  DataView.getUint8 data position = Some sizeByte ->
  let sizeLength := index VINT_SIZES sizeByte in
  sizeLength <> 0 ->
  ReadVInt data position sizeLength (index VINT_MASKS sizeLength)
  = Some size ->
  - 2 ^ 31 <= size < 2 ^ 31
  /\ (sizeLength <= 4 ->
      DataView.getUintBE (Z.to_nat sizeLength) data position 0
      = Some (size + 2 ^ (7 * sizeLength))
      /\ 0 <= size < 2 ^ (7 * sizeLength)).
Proof.
  intros Hsz sizeLength Hsl Hrsz.
  rewrite ReadVInt_as_getUintBE, Hsz in Hrsz.
  pose proof (getUint8_range _ _ _ Hsz) as Hszb.
  destruct (getUint8_byte _ _ _ Hsz) as [y Ey].
  pose proof (VINT_tables_byte y) as Ty. cbv zeta in Ty.
  rewrite <- Ey in Ty. fold sizeLength in Ty.
  destruct Ty as [[_ Ty]|(Tyn & Tyb & Tym & Tyl)]; [lia|].
  assert (Hmask : 0 <= index VINT_MASKS sizeLength <= 255).
  { rewrite Tym. assert (0 < 2 ^ (8 - sizeLength) <= 2 ^ 7)
      by (split; [apply Z.pow_pos_nonneg | apply Z.pow_le_mono_r]; lia).
    change (2 ^ 7) with 128 in *. lia. }
  rewrite band_byte, Tyl in Hrsz by lia.
  destruct (DataView.getUintBE (Z.to_nat (sizeLength - 1)) data
              (position + 1) (sizeByte - 2 ^ (8 - sizeLength)))
    as [W|] eqn:EW; [|discriminate].
  injection Hrsz as <-.
  split; [apply ToInt32_range|].
  intros Hsl4.
  pose proof (getUintBE_bounds _ _ _ _ _ EW ltac:(lia)) as HW.
  assert (HWr : 0 <= W < 2 ^ (7 * sizeLength)).
  { assert (Hc : sizeLength = 1 \/ sizeLength = 2 \/ sizeLength = 3
                 \/ sizeLength = 4) by lia.
    destruct Hc as [E|[E|[E|E]]]; rewrite E in *; cbn in HW, Tyb |- *; lia. }
  assert (W < 2 ^ 28).
  { assert (2 ^ (7 * sizeLength) <= 2 ^ 28)
      by (apply Z.pow_le_mono_r; lia). lia. }
  rewrite (ToInt32_small W) by lia.
  split; [|exact HWr].
  replace (Z.to_nat sizeLength) with (S (Z.to_nat (sizeLength - 1))) by lia.
  rewrite (getUintBE_first _ _ _ _ Hsz).
  replace sizeByte
    with (sizeByte - 2 ^ (8 - sizeLength) + 2 ^ (8 - sizeLength)) at 1 by lia.
  rewrite getUintBE_shift, EW. cbn [option_map]. f_equal.
  rewrite Z2Nat.id by lia.
  assert (Hc : sizeLength = 1 \/ sizeLength = 2 \/ sizeLength = 3
               \/ sizeLength = 4) by lia.
  destruct Hc as [E|[E|[E|E]]]; rewrite E; reflexivity.
Qed.

(** X3. What the walker takes for the ID and the size of an element. The ID is
    the big-endian value of its bytes, marker bit included, so that an ID of
    [tagLength] bytes lies between 2^(7 tagLength) and twice that. The size is
    a signed 32-bit number; for a size field of at most 4 bytes it is the
    big-endian value of the bytes less the marker bit, hence not negative. *)
Theorem header_fields data position tagLength id sizeLength size :
  header_at data position tagLength id sizeLength size ->
  DataView.getUintBE (Z.to_nat tagLength) data position 0 = Some id
  /\ 2 ^ (7 * tagLength) <= id < 2 ^ (7 * tagLength + 1)
  /\ - 2 ^ 31 <= size < 2 ^ 31
  /\ (sizeLength <= 4 ->
      DataView.getUintBE (Z.to_nat sizeLength) data (position + tagLength) 0
      = Some (size + 2 ^ (7 * sizeLength))
      /\ 0 <= size < 2 ^ (7 * sizeLength)).
Proof.
  intros (idByte & sizeByte & Hid & Etl & Htl & Hrid & Hsz & Esl & Hsl & Hrsz).
  subst tagLength sizeLength.
  destruct (id_field_value _ _ _ _ Hid Htl Hrid) as [H1 H2].
  destruct (size_field_value _ _ _ _ Hsz Hsl Hrsz) as [H3 H4].
  auto.
Qed.

Lemma header_fields_witness :
  let data := [x1a; x45; xdf; xa3; x42; x86]%byte in
  header_at data 0 4 440786851 2 646
  /\ DataView.getUintBE 4 data 0 0 = Some 440786851
  /\ DataView.getUintBE 2 data 4 0 = Some (646 + 2 ^ 14).
Proof.
  intros data.
  assert (Hheader : header_at data 0 4 440786851 2 646).
  { exists 26, 66. vm_compute. repeat split; discriminate. }
  destruct (header_fields data 0 4 440786851 2 646 Hheader)
    as (Hid & _ & _ & Hsize).
  split; [exact Hheader|]. split; [exact Hid|].
  apply Hsize. lia.
Defined.

(** ** The codec signature *)

Lemma TestOpus_loop_run n data position i s :
  (forall j, i <= j < i + Z.of_nat n ->
             DataView.getUint8 data (position + j) = Some (index OPUS_SIG j)) ->
  TestOpus_loop n data position i s = Return tt s.
Proof.
  revert i. induction n as [|n IH]; intros i H; cbn [TestOpus_loop];
    [reflexivity|].
  rewrite (bind_Return _ _ s s (index OPUS_SIG i))
    by (rewrite H by lia; reflexivity).
  rewrite Z.eqb_refl. cbn [negb]. apply IH. intros j Hj. apply H. lia.
Qed.



(** ** Blocks and frames *)

Lemma index_VINT_SIZES_nonneg b : 0 <= index VINT_SIZES b.
Proof.
  unfold index.
  assert (Hall : Forall (fun z => 0 <= z) VINT_SIZES)
    by (repeat constructor; lia).
  rewrite Forall_forall in Hall.
  destruct (nth_in_or_default (Z.to_nat b) VINT_SIZES 0) as [Hin | ->];
    [now apply Hall | lia].
Qed.

(** X5. A block without lacing hands [ParseFrame] the bytes of its payload
    that follow the track number, the two timecode bytes and the flags byte,
    up to the end of the element, and does nothing else; a payload shorter
    than that header, or one that runs beyond the buffer, is a [RangeError]
    before any call to the decoder. The track number is taken to have the
    length its first byte announces and is not read. *)
Theorem ParseBlock_forwards_payload
        returns HEAPF32 data position size s trackByte flags :
  DataView.getUint8 data position = Some trackByte ->
  let tagLength := index VINT_SIZES trackByte in
  DataView.getUint8 data (position + tagLength + 2) = Some flags ->
  Z.land flags 6 = 0 ->
  let start := position + tagLength + 3 in
  let n := size - (tagLength + 3) in
  (0 <= n /\ start + n <= DataView.byteLength data ->
   let frame := firstn (Z.to_nat n) (skipn (Z.to_nat start) data) in
   Z.of_nat (length frame) = n
   /\ ParseBlock returns HEAPF32 data position size s
      = ParseFrame returns HEAPF32 frame s)
  /\ (n < 0 \/ DataView.byteLength data < start + n ->
      ParseBlock returns HEAPF32 data position size s = Throw RangeError s).
Proof.
  intros Htrack tagLength Hflags Hlacing start n.
  pose proof (index_VINT_SIZES_nonneg trackByte) as Htl. fold tagLength in Htl.
  assert (Hpos : 0 <= position).
  { assert (H : exists b, DataView.getUint8 data position = Some b) by eauto.
    apply getUint8_Some_iff in H. lia. }
  assert (Hrun : ParseBlock returns HEAPF32 data position size s
                 = bind (ranged (DataView.subarray data start n))
                        (ParseFrame returns HEAPF32) s).
  { unfold ParseBlock.
    rewrite (bind_Return _ _ s s trackByte) by now rewrite Htrack.
    fold tagLength.
    rewrite (bind_Return _ _ s s flags) by now rewrite Hflags.
    rewrite band_byte by (pose proof (getUint8_range _ _ _ Hflags); lia).
    rewrite Hlacing. cbn [Z.eqb negb].
    replace (position + tagLength + 2 + 1) with start by (unfold start; lia).
    reflexivity. }
  rewrite Hrun. unfold DataView.subarray. split.
  - intros [Hn Hend].
    set (frame := firstn (Z.to_nat n) (skipn (Z.to_nat start) data)).
    replace ((0 <=? start) && (0 <=? n)
             && (start + n <=? DataView.byteLength data)) with true
      by (symmetry; rewrite !andb_true_iff, !Z.leb_le; unfold start; lia).
    split; [|reflexivity].
    unfold frame. rewrite length_firstn, length_skipn.
    unfold DataView.byteLength in Hend. unfold start in *. lia.
  - intros Hbad.
    replace ((0 <=? start) && (0 <=? n)
             && (start + n <=? DataView.byteLength data)) with false;
      [reflexivity|].
    symmetry. rewrite !andb_false_iff, !Z.leb_gt. lia.
Qed.

Lemma ParseBlock_forwards_payload_witness :
  let data := [x81; x00; x00; x00; x14]%byte in
  DataView.getUint8 data 0 = Some 129
  /\ DataView.getUint8 data (0 + index VINT_SIZES 129 + 2) = Some 0
  /\ Z.land 0 6 = 0
  /\ ParseBlock Stub.returns Stub.HEAPF32 data 0 5 initial
     = ParseFrame Stub.returns Stub.HEAPF32 [x14]%byte initial.
Proof.
  intros data.
  assert (Htrack : DataView.getUint8 data 0 = Some 129) by reflexivity.
  assert (Hflags : DataView.getUint8 data (0 + index VINT_SIZES 129 + 2)
                   = Some 0) by reflexivity.
  assert (Hlacing : Z.land 0 6 = 0) by reflexivity.
  split; [exact Htrack|]. split; [exact Hflags|]. split; [exact Hlacing|].
  apply (proj1 (ParseBlock_forwards_payload Stub.returns Stub.HEAPF32
                  data 0 5 initial 129 0 Htrack Hflags Hlacing)).
  vm_compute. split; discriminate.
Defined.

(** X6. A frame that decodes to [N] samples, met with the cursor at an
    [offset] that is not negative and room for it in the output buffer, is
    one call to the decoder followed by a copy: the buffer keeps its length,
    holds the first [N] floats of the scratch area at [offset], and is
    unchanged before and after them; the cursor moves to [offset + N]. *)
Theorem frame_appended_at_cursor returns HEAPF32 frame s audio :
  let N := decoded_count returns frame s in
  let c := decode_call frame s in
  let offset := _outputOffset s in
  0 < N ->
  0 <= offset ->
  _audioBuffer s = Some audio ->
  offset + N <= Z.of_nat (length audio) ->
  exists audio',
    ParseFrame returns HEAPF32 frame s
    = Return tt (set_outputOffset (offset + N)
                   (set_audioBuffer (Some audio') (add_call c s)))
    /\ length audio' = length audio
    /\ firstn (Z.to_nat offset) audio' = firstn (Z.to_nat offset) audio
    /\ firstn (Z.to_nat N) (skipn (Z.to_nat offset) audio')
       = scratch HEAPF32 (add_call c s) 0 N
    /\ skipn (Z.to_nat (offset + N)) audio'
       = skipn (Z.to_nat (offset + N)) audio.
Proof.
  intros N c offset HN Hoff Haudio Hfit.
  set (temp := scratch HEAPF32 (add_call c s) 0 N).
  assert (Hlen : length temp = Z.to_nat N)
    by (unfold temp; apply scratch_length).
  exists (firstn (Z.to_nat offset) audio ++ temp
          ++ skipn (Z.to_nat offset + length temp) audio).
  assert (Hfl : length (firstn (Z.to_nat offset) audio) = Z.to_nat offset)
    by (rewrite length_firstn; lia).
  split; [|split; [|split; [|split]]].
  - rewrite ParseFrame_run. fold N c.
    destruct (Z.ltb_spec 0 N); [|lia].
    rewrite WriteOutput_run.
    change (_outputOffset (add_call c s)) with offset.
    change (_audioBuffer (add_call c s)) with (_audioBuffer s).
    rewrite Haudio.
    replace (Z.max 0 (- offset)) with 0 by lia.
    replace (Z.max 0 offset) with offset by lia.
    replace (N - 0) with N by lia. fold temp.
    destruct (Z.ltb_spec 0 (N + offset)); [|lia].
    replace ((offset <? 0) || (0 <=? N)) with true
      by (symmetry; apply orb_true_iff; right; apply Z.leb_le; lia).
    destruct (Z.ltb_spec (Z.of_nat (length audio)) (offset + N));
      [lia | reflexivity].
  - apply length_written. lia.
  - rewrite firstn_app, Hfl, Nat.sub_diag. cbn [firstn].
    rewrite app_nil_r, firstn_firstn. now rewrite Nat.min_id.
  - rewrite skipn_app, Hfl, Nat.sub_diag. cbn [skipn].
    rewrite (skipn_all2 (firstn _ _)) by lia. cbn [app].
    rewrite firstn_app, <- Hlen, Nat.sub_diag, firstn_all. cbn [firstn].
    apply app_nil_r.
  - rewrite app_assoc, skipn_app.
    rewrite (skipn_all2 (_ ++ temp)) by (rewrite length_app; lia).
    cbn [app]. rewrite length_app, Hfl, Hlen.
    replace (Z.to_nat (offset + N) - (Z.to_nat offset + Z.to_nat N))%nat
      with 0%nat by lia.
    cbn [skipn]. f_equal. lia.
Qed.

Lemma frame_appended_at_cursor_witness :
  let s := mkState (Some 1048576) (Some (repeat 0 1000)) (Some 73728)
                   (Some 2048) (Some 65536) 10
                   [_create_decoder 48000 1; _malloc 2048; _malloc 8192] in
  let frame := [x14]%byte in
  decoded_count Stub.returns frame s = 960
  /\ exists audio',
      ParseFrame Stub.returns Stub.HEAPF32 frame s
      = Return tt (set_outputOffset 970
                     (set_audioBuffer (Some audio')
                        (add_call (decode_call frame s) s)))
      /\ length audio' = 1000%nat.
Proof.
  intros s frame. split; [reflexivity|].
  destruct (frame_appended_at_cursor Stub.returns Stub.HEAPF32 frame s
              (repeat 0 1000))
    as (audio' & Hrun & Hlen & _);
    [reflexivity | discriminate | reflexivity | discriminate |].
  exists audio'. split; [exact Hrun | exact Hlen].
Defined.

(** ** The end of a job *)

Lemma ArrayBuffer_slice_nonneg_end (audio : list sample) (c : Z) :
  0 <= c -> ArrayBuffer_slice audio 0 (c * 4) = firstn (Z.to_nat c) audio.
Proof.
  intros Hc. unfold ArrayBuffer_slice, slice_bounds.
  set (L := Z.of_nat (length audio)).
  destruct (Z.ltb_spec 0 0); [lia|].
  destruct (Z.ltb_spec (c * 4) 0); [lia|].
  replace (Z.min 0 (4 * L)) with 0 by lia.
  change (0 / 4) with 0. cbn [Z.to_nat skipn].
  replace (Z.max (Z.min (c * 4) (4 * L) - 0) 0) with (Z.min c L * 4) by lia.
  rewrite Z.div_mul by lia.
  destruct (Z.le_gt_cases c L).
  - now replace (Z.min c L) with c by lia.
  - replace (Z.min c L) with L by lia. unfold L. rewrite Nat2Z.id.
    rewrite firstn_all. symmetry. apply firstn_all2. lia.
Qed.

(** X7. A job whose walk returns with the cursor at [c >= 0] returns the first
    [c] floats of the output buffer (all of it when [c] exceeds its length),
    after one call to [_destroy_decoder] with whatever the decoder variable
    holds; it leaves the decoder and the buffer variables empty and the cursor
    at 0, and keeps the scratch and input areas for the next job. *)
Theorem job_returns_written_prefix returns HEAPF32 fuel data s s1 audio :
  ParseMaster returns HEAPF32 fuel data 0 (DataView.byteLength data) s
  = Return tt s1 ->
  0 <= _outputOffset s1 ->
  _audioBuffer s1 = Some audio ->
  let c := _outputOffset s1 in
  let result := firstn (Z.to_nat c) audio in
  exists s2,
    OpusDecode returns HEAPF32 fuel data s = Return result s2
    /\ byteLength result = 4 * Z.min c (Z.of_nat (length audio))
    /\ calls s2 = _destroy_decoder (_decoder s1) :: calls s1
    /\ _decoder s2 = None
    /\ _audioBuffer s2 = None
    /\ _outputOffset s2 = 0
    /\ _outputPointer s2 = _outputPointer s1
    /\ _inputPointer s2 = _inputPointer s1.
Proof.
  intros Hwalk Hc Haudio c result.
  eexists. split; [|split].
  - unfold OpusDecode.
    rewrite (bind_Return _ _ s s1 tt) by exact Hwalk.
    unfold DestroyDecoder. run.
    cbn [_audioBuffer set_outputOffset set_decoder add_call].
    rewrite Haudio. run.
    rewrite ArrayBuffer_slice_nonneg_end by exact Hc.
    reflexivity.
  - unfold byteLength, result. rewrite length_firstn. lia.
  - repeat split.
Qed.

Lemma job_returns_written_prefix_witness :
  let data :=
    [x44; x89; x84; x00; x00; x00; x00;
     xa3; x85; x81; x00; x00; x00; x14]%byte in
  exists s1 audio s2,
    Stub.ParseMaster 3 data 0 14 initial = Return tt s1
    /\ _outputOffset s1 = 960
    /\ _audioBuffer s1 = Some audio
    /\ Stub.OpusDecode 3 data initial
       = Return (firstn (Z.to_nat 960) audio) s2
    /\ calls s2 = _destroy_decoder (Some 1048576) :: calls s1.
Proof.
  intros data. change 14 with (DataView.byteLength data).
  unfold Stub.ParseMaster, Stub.OpusDecode.
  destruct (ParseMaster Stub.returns Stub.HEAPF32 3 data 0
              (DataView.byteLength data) initial)
    as [[] s1|e s1| |] eqn:Hwalk;
    try (exfalso; vm_compute in Hwalk; discriminate Hwalk).
  assert (Hc : _outputOffset s1 = 960)
    by (vm_compute in Hwalk; injection Hwalk as <-; reflexivity).
  assert (Hd : _decoder s1 = Some 1048576)
    by (vm_compute in Hwalk; injection Hwalk as <-; reflexivity).
  destruct (_audioBuffer s1) as [audio|] eqn:Haudio;
    [|exfalso; vm_compute in Hwalk; injection Hwalk as <-; discriminate Haudio].
  destruct (job_returns_written_prefix Stub.returns Stub.HEAPF32 3 data
              initial s1 audio Hwalk)
    as (s2 & Hjob & _ & Hcalls & _);
    [rewrite Hc; discriminate | exact Haudio |].
  exists s1, audio, s2. rewrite Hc, Hd in *.
  repeat split; try assumption; reflexivity.
Defined.

(** X8. A job whose walk returns without having met a Duration element has no
    output buffer: it fails with the [TypeError] of [_audioBuffer.buffer] on
    [null], after [DestroyDecoder] has run. *)
Theorem job_without_buffer_fails returns HEAPF32 fuel data s s1 :
  ParseMaster returns HEAPF32 fuel data 0 (DataView.byteLength data) s
  = Return tt s1 ->
  _audioBuffer s1 = None ->
  OpusDecode returns HEAPF32 fuel data s
  = Throw TypeError
      (set_outputOffset 0
         (set_decoder None (add_call (_destroy_decoder (_decoder s1)) s1))).
Proof.
  intros Hwalk Haudio. unfold OpusDecode.
  rewrite (bind_Return _ _ s s1 tt) by exact Hwalk.
  unfold DestroyDecoder. run.
  cbn [_audioBuffer set_outputOffset set_decoder add_call].
  rewrite Haudio. reflexivity.
Qed.

Lemma job_without_buffer_fails_witness :
  let data := [xec; x80]%byte in
  Stub.ParseMaster 2 data 0 2 initial = Return tt initial
  /\ Stub.OpusDecode 2 data initial
     = Throw TypeError (add_call (_destroy_decoder None) initial).
Proof.
  intros data.
  assert (Hwalk : Stub.ParseMaster 2 data 0 (DataView.byteLength data) initial
                  = Return tt initial) by reflexivity.
  split; [exact Hwalk|].
  exact (job_without_buffer_fails Stub.returns Stub.HEAPF32 2 data initial
           initial Hwalk eq_refl).
Defined.

(** ** Moves of the cursor *)

(** X9. A DiscardPadding element that [ParseDiscard] accepts has a size of 1,
    2, 3 or 4 bytes, and the value [P] the script reads from it is not
    negative. For the sizes 1, 2 and 4, [P] is the signed big-endian integer
    the payload holds. For the size 3, [P] is what [ReadInt24] makes of the
    first byte [b] of the payload, [(b & 127) * 65536 + b * 256 + b], whatever
    the payload holds. The cursor moves back by [Math.floor(P * 0.000048)]
    samples, which is not negative; nothing else in the state changes. *)
Theorem discard_padding_only_moves_back data position size s s' :
  ParseDiscard data position size s = Return tt s' ->
  exists P k,
    ParseIntTag data position size s = Return P s
    /\ (size = 1 \/ size = 2 \/ size = 3 \/ size = 4)
    /\ (size <> 3 -> spec_signed_BE data position size = Some P)
    /\ (size = 3 ->
        exists b, DataView.getUint8 data position = Some b
                  /\ P = Z.land b 127 * 65536 + b * 256 + b)
    /\ 0 <= P
    /\ frames_of_ns P = Some k
    /\ 0 <= k
    /\ s' = set_outputOffset (_outputOffset s - k) s.
Proof.
  unfold ParseDiscard. intros H.
  apply bind_inv_Return in H as (P & s1 & HP & H).
  assert (Hsize : size = 1 \/ size = 2 \/ size = 3 \/ size = 4).
  { unfold ParseIntTag in HP.
    destruct (Z.eqb_spec size 1); [auto|].
    destruct (Z.eqb_spec size 2); [auto|].
    destruct (Z.eqb_spec size 3); [auto|].
    destruct (Z.eqb_spec size 4); [auto 6 | discriminate]. }
  assert (Hother : size <> 3 -> spec_signed_BE data position size = Some P).
  { intros H3.
    rewrite ParseIntTag_widths_1_2_4 in HP by lia.
    destruct (spec_signed_BE data position size); [|discriminate].
    now injection HP as -> _. }
  assert (Hthree : size = 3 ->
                   exists b, DataView.getUint8 data position = Some b
                             /\ P = Z.land b 127 * 65536 + b * 256 + b).
  { intros ->. unfold ParseIntTag in HP. cbn [Z.eqb Pos.eqb] in HP.
    rewrite ReadInt24_first_byte_only in HP.
    destruct (DataView.getUint8 data position) as [b|]; [|discriminate].
    exists b. split; [reflexivity|]. now injection HP as <- _. }
  assert (s1 = s) as ->.
  { unfold ParseIntTag in HP.
    repeat match type of HP with
           | (if ?b then _ else _) _ = _ => destruct b
           end;
      try discriminate;
      match type of HP with
      | ranged ?o _ = _ => destruct o; [injection HP as _ ->; reflexivity
                                       | discriminate]
      end. }
  destruct (Z.ltb_spec P 0) as [|HP0]; [discriminate|].
  destruct (frames_of_ns P) as [k|] eqn:Ek; [|discriminate].
  revert H. run. intros [= <-].
  exists P, k. repeat split; try assumption.
  now apply (frames_of_ns_nonneg P).
Qed.

Lemma discard_padding_only_moves_back_witness :
  let data := [x00; x98; x96; x80]%byte in
  let s := set_outputOffset 960 initial in
  ParseDiscard data 0 4 s = Return tt (set_outputOffset 480 initial)
  /\ exists P k,
      ParseIntTag data 0 4 s = Return P s
      /\ spec_signed_BE data 0 4 = Some P
      /\ P = 10000000
      /\ 0 <= P
      /\ frames_of_ns P = Some k
      /\ 0 <= k
      /\ set_outputOffset 480 initial = set_outputOffset (_outputOffset s - k) s.
Proof.
  intros data s.
  assert (H : ParseDiscard data 0 4 s = Return tt (set_outputOffset 480 initial))
    by (vm_compute; reflexivity).
  split; [exact H|].
  destruct (discard_padding_only_moves_back data 0 4 s _ H)
    as (P & k & HP & _ & Hspec & _ & HP0 & Hk & Hk0 & Hs).
  specialize (Hspec ltac:(discriminate)).
  exists P, k.
  assert (EP : P = 10000000)
    by (vm_compute in Hspec; now injection Hspec as <-).
  repeat split; assumption.
Defined.

(** X10. A CodecDelay element that [ParseDelay] accepts sets the cursor to
    minus [Math.floor(D * 0.000048)] for the value [D] read from its payload,
    whatever the cursor was: samples written before it are forgotten. The
    cursor is then at most 0 unless [D] is negative. *)
Theorem codec_delay_overwrites_cursor data position size s s' :
  ParseDelay data position size s = Return tt s' ->
  exists D k,
    ReadVInt data position size 255 = Some D
    /\ frames_of_ns D = Some k
    /\ s' = set_outputOffset (- k) s
    /\ (0 <= D -> _outputOffset s' <= 0).
Proof.
  unfold ParseDelay. intros H.
  destruct (ReadVInt data position size 255) as [D|] eqn:ED;
    [|discriminate].
  revert H. run.
  destruct (frames_of_ns D) as [k|] eqn:Ek; [|discriminate].
  run. intros [= <-].
  exists D, k. split; [reflexivity|]. split; [exact Ek|].
  split; [reflexivity|].
  intros HD. pose proof (frames_of_ns_nonneg D k HD Ek).
  cbn. lia.
Qed.

Lemma codec_delay_overwrites_cursor_witness :
  let data := [x63; x2e; xa0]%byte in
  let s := set_outputOffset 960 initial in
  ParseDelay data 0 3 s = Return tt (set_outputOffset (- 312) initial)
  /\ exists D k,
      ReadVInt data 0 3 255 = Some D
      /\ frames_of_ns D = Some k
      /\ set_outputOffset (- 312) initial = set_outputOffset (- k) s
      /\ (0 <= D -> _outputOffset (set_outputOffset (- 312) initial) <= 0).
Proof.
  intros data s.
  assert (H : ParseDelay data 0 3 s
              = Return tt (set_outputOffset (- 312) initial))
    by (vm_compute; reflexivity).
  split; [exact H|].
  exact (codec_delay_overwrites_cursor data 0 3 s _ H).
Defined.

(** ** Elements without a case *)

(** X11. An element whose ID is none of the twelve the switch names is stepped
    over: the iteration returns the position after its payload and leaves the
    state as it was, without a look at the payload, which may lie beyond the
    end of the buffer. *)
Theorem unknown_element_skipped
        returns HEAPF32 recurse data position tagLength id sizeLength size s :
  header_at data position tagLength id sizeLength size ->
  ~ In id known_ids ->
  ParseMaster_body returns HEAPF32 recurse data position s
  = Return (position + tagLength + sizeLength + size) s.
Proof.
  intros Hheader Hid.
  rewrite (body_at_header _ _ _ _ _ _ _ _ _ _ Hheader).
  unfold ParseMaster_switch, is_case. cbn [existsb].
  unfold known_ids in Hid. cbn [In] in Hid.
  repeat match goal with
         | |- context [id =? ?c] =>
             destruct (Z.eqb_spec id c);
               [exfalso; apply Hid; subst id; auto 20|]
         end.
  reflexivity.
Qed.

Lemma unknown_element_skipped_witness :
  let data := [xec; x82; x00; x00]%byte in
  header_at data 0 1 236 1 2
  /\ ~ In 236 known_ids
  /\ ParseMaster_body Stub.returns Stub.HEAPF32 (Stub.ParseMaster 1) data 0
                      initial
     = Return 4 initial.
Proof.
  intros data.
  assert (Hheader : header_at data 0 1 236 1 2).
  { exists 236, 130. vm_compute. repeat split; discriminate. }
  assert (Hid : ~ In 236 known_ids)
    by (cbn; intuition discriminate).
  split; [exact Hheader|]. split; [exact Hid|].
  exact (unknown_element_skipped Stub.returns Stub.HEAPF32
           (Stub.ParseMaster 1) data 0 1 236 1 2 initial Hheader Hid).
Defined.

(** ** A Duration element *)

(** X12. A Duration element that [ParseDuration] accepts leaves the cursor
    where it was, also when an earlier Duration had set up a buffer that
    frames were written to. Its last native call creates a decoder, whose
    handle is not negative and is stored. A scratch area and an input area
    that exist are kept, and with both in place the creation of the decoder
    is the only native call, so that a decoder held before is replaced
    without being destroyed. *)
Theorem ParseDuration_keeps_cursor_and_scratch returns data position size s s' :
  ParseDuration returns data position size s = Return tt s' ->
  _outputOffset s' = _outputOffset s
  /\ (exists d, _decoder s' = Some d /\ 0 <= d
                /\ d = returns (tl (calls s')) (_create_decoder 48000 1))
  /\ hd_error (calls s') = Some (_create_decoder 48000 1)
  /\ (_outputBuffer s <> None ->
      _outputPointer s' = _outputPointer s
      /\ _outputBuffer s' = _outputBuffer s)
  /\ (truthy_number (_inputPointer s) = true ->
      _inputPointer s' = _inputPointer s)
  /\ (_outputBuffer s <> None -> truthy_number (_inputPointer s) = true ->
      calls s' = _create_decoder 48000 1 :: calls s).
Proof.
  unfold ParseDuration. intros H.
  apply bind_inv_Return in H as (duration & s1 & Hread & Hcreate).
  assert (s1 = s) as ->.
  { destruct (size =? 4).
    - destruct (DataView.getFloat32 data position); [|discriminate].
      now injection Hread.
    - destruct (size =? 8); [|discriminate].
      destruct (DataView.getFloat64 data position); [|discriminate].
      now injection Hread. }
  rewrite CreateDecoder_run in Hcreate.
  destruct (JS.ToIndex (buffer_length duration)) as [n|];
    [|discriminate Hcreate].
  cbv zeta in Hcreate.
  destruct (match _decoder _ with Some d => d <? 0 | None => false end) eqn:Ed;
    [discriminate Hcreate|].
  injection Hcreate as <-.
  unfold with_decoder, with_input, with_scratch, with_audio in *.
  cbn [_outputBuffer _inputPointer set_audioBuffer] in *.
  destruct (_outputBuffer s) as [ob|] eqn:Eob;
    cbn [truthy_object _inputPointer set_outputBuffer set_outputPointer
         add_call set_audioBuffer] in Ed |- *;
    destruct (truthy_number (_inputPointer s)) eqn:Eip;
    cbn in Ed |- *;
    (split; [reflexivity|]);
    (split; [eexists; split; [reflexivity|];
             split; [apply Z.ltb_ge in Ed; exact Ed | reflexivity]|]);
    (split; [reflexivity|]);
    repeat split; intros; try congruence; try discriminate.
Qed.

Lemma ParseDuration_keeps_cursor_and_scratch_witness :
  let data := [x00; x00; x00; x00]%byte in
  let s := set_outputOffset 7 initial in
  let s' := mkState (Some 1048576) (Some (repeat 0 (Z.to_nat 5760)))
                    (Some 73728) (Some 2048) (Some 65536) 7
                    [_create_decoder 48000 1; _malloc 2048; _malloc 8192] in
  ParseDuration Stub.returns data 0 4 s = Return tt s'
  /\ _outputOffset s' = _outputOffset s.
Proof.
  intros data s s'.
  assert (H : ParseDuration Stub.returns data 0 4 s = Return tt s')
    by (vm_compute; reflexivity).
  split; [exact H|].
  exact (proj1 (ParseDuration_keeps_cursor_and_scratch Stub.returns data 0 4
                  s s' H)).
Defined.

(** ** Ends of walks *)

Lemma halts_bind {A B} (c : M A) (k : A -> M B) :
  halts c -> (forall a, halts (k a)) -> halts (bind c k).
Proof.
  intros Hc Hk s. unfold bind. specialize (Hc s).
  destruct (c s); try easy. apply Hk.
Qed.

Lemma halts_ret {A} (a : A) : halts (ret a).
Proof. easy. Qed.
Lemma halts_throw {A} e : halts (@throw A e).
Proof. easy. Qed.
Lemma halts_get {A} (f : State -> A) : halts (get f).
Proof. easy. Qed.
Lemma halts_modify f : halts (modify f).
Proof. easy. Qed.
Lemma halts_ranged {A} (o : option A) : halts (ranged o).
Proof. now destruct o. Qed.
Lemma halts_nonnull {A} (o : option A) : halts (nonnull o).
Proof. now destruct o. Qed.
Lemma halts_finite {A} (o : option A) : halts (finite o).
Proof. now destruct o. Qed.
Lemma halts_native returns c : halts (native returns c).
Proof. easy. Qed.

Create HintDb halts.
#[local] Hint Resolve halts_ret halts_throw halts_get halts_modify
  halts_ranged halts_nonnull halts_finite halts_native : halts.

Ltac halts :=
  repeat match goal with
    | |- halts (bind _ _) => apply halts_bind; [|intro]
    | |- halts (if ?b then _ else _) => destruct b
    | |- halts (let _ := _ in _) => cbv zeta
    | |- halts _ => solve [auto with halts nocore]
    end.

Section Halting.

Variable returns : list call -> call -> Z.
Variable HEAPF32 : list call -> Z -> sample.

Lemma halts_TestOpus data position : halts (TestOpus data position).
Proof.
  unfold TestOpus. generalize 0. generalize 6%nat. intros n.
  induction n as [|n IH]; intros i; cbn [TestOpus_loop]; halts.
Qed.

Lemma halts_ParseIntTag data position size :
  halts (ParseIntTag data position size).
Proof. unfold ParseIntTag. halts. Qed.
#[local] Hint Resolve halts_TestOpus halts_ParseIntTag : halts.

Lemma halts_ParseDiscard data position size :
  halts (ParseDiscard data position size).
Proof. unfold ParseDiscard. halts. Qed.

Lemma halts_ParseDelay data position size :
  halts (ParseDelay data position size).
Proof. unfold ParseDelay. halts. Qed.

Lemma halts_CreateDecoder duration : halts (CreateDecoder returns duration).
Proof. unfold CreateDecoder. halts. Qed.
#[local] Hint Resolve halts_CreateDecoder : halts.

Lemma halts_ParseDuration data position size :
  halts (ParseDuration returns data position size).
Proof. unfold ParseDuration. halts. Qed.

Lemma halts_Float32Array_on_heap byteOffset length :
  halts (Float32Array_on_heap HEAPF32 byteOffset length).
Proof. unfold Float32Array_on_heap. now destruct (length <? 0). Qed.
#[local] Hint Resolve halts_Float32Array_on_heap : halts.

Lemma halts_WriteOutput ret_ : halts (WriteOutput HEAPF32 ret_).
Proof. unfold WriteOutput. halts. Qed.
#[local] Hint Resolve halts_WriteOutput : halts.

Lemma halts_ParseFrame frame : halts (ParseFrame returns HEAPF32 frame).
Proof. unfold ParseFrame. halts. Qed.
#[local] Hint Resolve halts_ParseFrame : halts.

Lemma halts_ParseBlock data position size :
  halts (ParseBlock returns HEAPF32 data position size).
Proof. unfold ParseBlock. halts; apply halts_ParseFrame. Qed.

Lemma halts_switch recurse data id position size :
  halts (recurse data position size) ->
  halts (ParseMaster_switch returns HEAPF32 recurse data id position size).
Proof.
  intros H. unfold ParseMaster_switch. halts;
    auto using halts_ParseDuration, halts_ParseDelay, halts_ParseDiscard,
      halts_TestOpus, halts_ParseBlock, halts_ret.
Qed.

Lemma header_at_lengths data position tagLength id sizeLength size :
  header_at data position tagLength id sizeLength size ->
  0 <= position < DataView.byteLength data
  /\ 1 <= tagLength /\ 1 <= sizeLength.
Proof.
  intros (idByte & sizeByte & Hid & _ & Htl & _ & _ & Esl & Hsl & _).
  assert (Hp : 0 <= position < DataView.byteLength data)
    by (apply getUint8_Some_iff; now exists idByte).
  pose proof (index_VINT_SIZES_nonneg sizeByte). lia.
Qed.

Lemma halts_body recurse data position s :
  (forall payload size,
      position + 2 <= payload -> 0 <= position < DataView.byteLength data ->
      halts (recurse data payload size)) ->
  ParseMaster_body returns HEAPF32 recurse data position s <> OutOfFuel.
Proof.
  intros Hrec E.
  assert (H : exists tl id sl size,
             header_at data position tl id sl size
             /\ ParseMaster_switch returns HEAPF32 recurse data id
                  (position + tl + sl) size s = OutOfFuel).
  { revert E. unfold ParseMaster_body.
    destruct (DataView.getUint8 data position) as [idByte|] eqn:Hid;
      cbn [ranged]; run; [|discriminate].
    destruct (_ || _) eqn:Htl; [discriminate|].
    apply orb_false_iff in Htl as [Htl1 Htl2].
    apply Z.ltb_ge in Htl1. apply Z.eqb_neq in Htl2.
    destruct (ReadVInt data position _ 255) as [id|] eqn:Hrid;
      cbn [ranged]; run; [|discriminate].
    destruct (DataView.getUint8 data (position + _)) as [sizeByte|] eqn:Hsz;
      cbn [ranged]; run; [|discriminate].
    destruct (_ =? 0) eqn:Hsl; [discriminate|]. apply Z.eqb_neq in Hsl.
    destruct (ReadVInt data (position + _) _ _) as [size|] eqn:Hrsz;
      cbn [ranged]; run; [|discriminate].
    intros E. exists (index VINT_SIZES idByte), id,
                (index VINT_SIZES sizeByte), size.
    split.
    - exists idByte, sizeByte.
      pose proof (index_VINT_SIZES_nonneg idByte).
      repeat split; trivial; lia.
    - unfold bind in E.
      destruct (ParseMaster_switch _ _ _ _ _ _ _ _) eqn:Es; try discriminate.
      reflexivity. }
  destruct H as (tl & id & sl & size & Hh & Es).
  apply header_at_lengths in Hh as (Hp & Htl & Hsl).
  revert Es. apply halts_switch. apply Hrec; lia.
Qed.

Lemma size_nonneg_at_header data position tagLength id sizeLength size :
  long_sizes_nonneg data ->
  header_at data position tagLength id sizeLength size -> 0 <= size.
Proof.
  intros Hdata (idByte & sizeByte & _ & _ & _ & _ & Hsz & -> & Hsl & Hrsz).
  destruct (Z.le_gt_cases (index VINT_SIZES sizeByte) 4) as [H4|H4].
  - destruct (size_field_value _ _ _ _ Hsz Hsl Hrsz) as [_ H].
    specialize (H H4). lia.
  - apply (Hdata _ _ _ Hsz); [lia | exact Hrsz].
Qed.

Lemma halts_while data (Hdata : long_sizes_nonneg data) recurse first cond n :
  (forall payload size,
      first + 2 <= payload -> first < DataView.byteLength data ->
      halts (recurse data payload size)) ->
  forall position s,
    first <= position ->
    Z.max 0 (DataView.byteLength data - position) + 1 <= Z.of_nat n ->
    while_loop n cond (ParseMaster_body returns HEAPF32 recurse data)
               position s <> OutOfFuel.
Proof.
  intros Hrec. induction n as [|n IH]; intros position s Hp Hn; [lia|].
  cbn [while_loop]. destruct (cond position); [|easy].
  unfold bind.
  destruct (ParseMaster_body _ _ _ _ _ _) as [p' s'| | |] eqn:Eb; try easy.
  - apply body_moves_forward in Eb
      as (tl & id & sl & size & Hh & -> & Hfwd).
    pose proof (header_at_lengths _ _ _ _ _ _ Hh) as (Hpos & _ & _).
    specialize (Hfwd (size_nonneg_at_header _ _ _ _ _ _ Hdata Hh)).
    apply IH; lia.
  - intros _. apply (halts_body recurse data position s); [|exact Eb].
    intros payload size Hpl Hpos. apply Hrec; lia.
Qed.

Lemma halts_ParseMaster data (Hdata : long_sizes_nonneg data) fuel :
  forall position length,
    Z.max 0 (DataView.byteLength data - position) + 2 <= Z.of_nat fuel ->
    halts (ParseMaster returns HEAPF32 fuel data position length).
Proof.
  induction fuel as [|fuel IH]; intros position length Hf s; [lia|].
  cbn [ParseMaster].
  apply (halts_while data Hdata _ position); try lia.
  intros payload size Hpl Hpos. apply IH. lia.
Qed.

End Halting.

(** Data without a byte between [0x01] and [0x0F] has no size field of
    more than 4 bytes. *)
Lemma long_sizes_nonneg_check (data : DataView.t) :
  forallb (fun x => index VINT_SIZES (Z.of_N (Byte.to_N x)) <=? 4) data = true ->
  long_sizes_nonneg data.
Proof.
  intros Hall position sizeByte size Hsz Hlong _. exfalso.
  rewrite forallb_forall in Hall.
  unfold DataView.getUint8 in Hsz.
  destruct (0 <=? position); [|discriminate].
  destruct (nth_error data (Z.to_nat position)) as [x|] eqn:Ex;
    [|discriminate].
  injection Hsz as <-.
  apply nth_error_In, Hall, Z.leb_le in Ex. lia.
Qed.

(** X13. The walk comes to an end on data in which no size field of more than
    4 bytes decodes to a negative number, as on data without a byte between
    [0x01] and [0x0F]: every iteration then moves forward by at least two
    bytes, a walk from a position that is not negative and the job have an
    outcome within two units of fuel more than the data has bytes, and more
    fuel gives the job the same outcome. *)
Theorem walk_ends_without_negative_sizes returns HEAPF32 data fuel s :
  long_sizes_nonneg data ->
  DataView.byteLength data + 2 <= Z.of_nat fuel ->
  (forall position length,
      0 <= position ->
      ParseMaster returns HEAPF32 fuel data position length s <> OutOfFuel)
  /\ OpusDecode returns HEAPF32 fuel data s <> OutOfFuel
  /\ (forall fuel',
         (fuel <= fuel')%nat ->
         OpusDecode returns HEAPF32 fuel' data s
         = OpusDecode returns HEAPF32 fuel data s).
Proof.
  intros Hdata Hf.
  assert (H : forall position length, 0 <= position ->
            halts (ParseMaster returns HEAPF32 fuel data position length))
    by (intros; apply halts_ParseMaster;
        [assumption | unfold DataView.byteLength in *; lia]).
  split; [intros position length Hp; now apply H|]. split.
  - unfold OpusDecode, DestroyDecoder.
    apply halts_bind; [apply H; lia|]. intros _. halts.
  - intros fuel' Hle. apply OpusDecode_mono; [exact Hle|]. apply H. lia.
Qed.

Lemma walk_ends_without_negative_sizes_witness :
  let data :=
    [x44; x89; x84; x00; x00; x00; x00;
     xa3; x85; x81; x00; x00; x00; x14]%byte in
  long_sizes_nonneg data
  /\ Stub.OpusDecode 16 data initial <> OutOfFuel
  /\ Stub.OpusDecode 100 data initial = Stub.OpusDecode 16 data initial.
Proof.
  intros data.
  assert (Hdata : long_sizes_nonneg data)
    by (apply long_sizes_nonneg_check; reflexivity).
  destruct (walk_ends_without_negative_sizes Stub.returns Stub.HEAPF32 data
              16 initial Hdata)
    as (_ & Hends & Hsame); [vm_compute; discriminate|].
  split; [exact Hdata|]. split; [exact Hends|].
  apply Hsame. apply Nat.leb_le. reflexivity.
Defined.

(** ** Steps of a walk *)

Section Steps.

Variable returns : list call -> call -> Z.
Variable HEAPF32 : list call -> Z -> sample.
Variable R : State -> State -> Prop.
Hypothesis R_refl : forall s, R s s.
Hypothesis R_trans : forall s1 s2 s3, R s1 s2 -> R s2 s3 -> R s1 s3.
Hypothesis R_cursor : forall s v, R s (set_outputOffset v s).
Hypothesis R_write :
  forall s audio audio',
    _audioBuffer s = Some audio -> length audio' = length audio ->
    R s (set_audioBuffer (Some audio') s).
Hypothesis R_decode : forall s frame, R s (add_call (decode_call frame s) s).
Hypothesis R_create :
  forall s n,
    R s (with_decoder returns
           (with_input returns (with_scratch returns (with_audio n s)))).

Lemma respects_ret {A} (a : A) : respects R (ret a).
Proof. intros s. apply R_refl. Qed.

Lemma respects_throw {A} (e : error) : respects R (@throw A e).
Proof. intros s. apply R_refl. Qed.

Lemma respects_ranged {A} (o : option A) : respects R (ranged o).
Proof. intros s. destruct o; apply R_refl. Qed.

Lemma respects_finite {A} (o : option A) : respects R (finite o).
Proof. intros s. destruct o; [apply R_refl | exact I]. Qed.

Lemma respects_bind {A B} (c : M A) (k : A -> M B) :
  respects R c -> (forall a, respects R (k a)) -> respects R (bind c k).
Proof.
  intros Hc Hk s. unfold bind. specialize (Hc s).
  destruct (c s) as [a s1|e s1| |]; try exact Hc.
  specialize (Hk a s1).
  destruct (k a s1) as [b s2|e s2| |]; try exact Hk;
    now apply (R_trans s s1 s2).
Qed.

Lemma respects_set_offset (f : State -> Z) :
  respects R (bind (get f) (fun v => modify (set_outputOffset v))).
Proof. intros s. cbn. apply R_cursor. Qed.

Lemma respects_modify_offset v : respects R (modify (set_outputOffset v)).
Proof. intros s. cbn. apply R_cursor. Qed.

Create HintDb steps.
#[local] Hint Resolve respects_ret respects_throw respects_ranged
  respects_finite respects_set_offset respects_modify_offset : steps.

Ltac steps :=
  repeat match goal with
    | |- respects _ (bind (get _) (fun v => modify (set_outputOffset _))) =>
        apply respects_set_offset
    | |- respects _ (bind _ _) => apply respects_bind; [|intro]
    | |- respects _ (if ?b then _ else _) => destruct b
    | |- respects _ (let _ := _ in _) => cbv zeta
    | |- respects _ _ => solve [auto with steps nocore]
    end.

Lemma respects_CreateDecoder duration :
  respects R (CreateDecoder returns duration).
Proof.
  intros s. rewrite CreateDecoder_run.
  destruct (JS.ToIndex (buffer_length duration)) as [n|]; [|apply R_refl].
  cbv zeta.
  destruct (match _decoder _ with Some d => d <? 0 | None => false end);
    apply R_create.
Qed.

Lemma respects_WriteOutput ret_ : respects R (WriteOutput HEAPF32 ret_).
Proof.
  intros s. rewrite WriteOutput_run. cbv zeta.
  destruct (0 <? ret_ + _outputOffset s) eqn:Hpos; [|apply R_cursor].
  destruct ((_outputOffset s <? 0) || (0 <=? ret_)) eqn:Hok; [|apply R_refl].
  destruct (_audioBuffer s) as [audio|] eqn:Ha; [|apply R_refl].
  destruct (Z.of_nat (length audio) <? _outputOffset s + ret_) eqn:Hfit;
    [apply R_refl|].
  eapply R_trans; [|apply R_cursor].
  apply (R_write s audio); [exact Ha|].
  apply length_written. rewrite scratch_length.
  apply Z.ltb_lt in Hpos. apply Z.ltb_ge in Hfit.
  apply orb_true_iff in Hok as [Hok|Hok];
    [apply Z.ltb_lt in Hok | apply Z.leb_le in Hok]; lia.
Qed.

Lemma respects_ParseFrame frame :
  respects R (ParseFrame returns HEAPF32 frame).
Proof.
  intros s. rewrite ParseFrame_run.
  pose proof (R_decode s frame) as Hcall.
  destruct (0 <? decoded_count returns frame s); [|exact Hcall].
  pose proof (respects_WriteOutput (decoded_count returns frame s)
                (add_call (decode_call frame s) s)) as Hw.
  destruct (WriteOutput _ _ _) as [a s1|e s1| |]; try exact Hw;
    now apply (R_trans s _ s1 Hcall).
Qed.

#[local] Hint Resolve respects_CreateDecoder respects_ParseFrame : steps.

Lemma respects_ParseBlock data position size :
  respects R (ParseBlock returns HEAPF32 data position size).
Proof. unfold ParseBlock. steps. Qed.

Lemma respects_ParseDuration data position size :
  respects R (ParseDuration returns data position size).
Proof. unfold ParseDuration. steps. Qed.

Lemma respects_ParseIntTag data position size :
  respects R (ParseIntTag data position size).
Proof. unfold ParseIntTag. steps. Qed.

#[local] Hint Resolve respects_ParseIntTag : steps.

Lemma respects_ParseDiscard data position size :
  respects R (ParseDiscard data position size).
Proof. unfold ParseDiscard. steps. Qed.

Lemma respects_ParseDelay data position size :
  respects R (ParseDelay data position size).
Proof. unfold ParseDelay. steps. Qed.

Lemma respects_TestOpus data position : respects R (TestOpus data position).
Proof.
  unfold TestOpus. generalize 0 at 1. generalize 6%nat.
  induction n as [|n IH]; intros i; cbn [TestOpus_loop]; steps.
Qed.

Lemma respects_while fuel cond (body : Z -> M Z) :
  (forall position, respects R (body position)) ->
  forall position, respects R (while_loop fuel cond body position).
Proof.
  intros Hbody. induction fuel as [|fuel IH]; intros position;
    cbn [while_loop]; (destruct (cond position); [|auto with steps]).
  - intros s. exact I.
  - apply respects_bind; [apply Hbody | exact IH].
Qed.

Lemma respects_switch recurse data id position size :
  respects R (recurse data position size) ->
  respects R (ParseMaster_switch returns HEAPF32 recurse data id
                                 position size).
Proof.
  intros Hrec. unfold ParseMaster_switch.
  steps; auto using respects_ParseDuration, respects_ParseDelay,
           respects_ParseDiscard, respects_TestOpus, respects_ParseBlock.
Qed.

Lemma respects_body recurse data position :
  (forall p n, respects R (recurse data p n)) ->
  respects R (ParseMaster_body returns HEAPF32 recurse data position).
Proof.
  intros Hrec. unfold ParseMaster_body. steps.
  apply respects_switch, Hrec.
Qed.

Lemma respects_ParseMaster fuel data position length :
  respects R (ParseMaster returns HEAPF32 fuel data position length).
Proof.
  revert position length.
  induction fuel as [|fuel IH]; intros position length.
  - intros s. exact I.
  - cbn [ParseMaster]. apply respects_while. intros p.
    apply respects_body. intros p' n. apply IH.
Qed.

End Steps.

Lemma walk_frame_refl s : walk_frame s s.
Proof. exists []. cbn. intuition. Qed.

Lemma walk_frame_trans s1 s2 s3 :
  walk_frame s1 s2 -> walk_frame s2 s3 -> walk_frame s1 s3.
Proof.
  intros (n1 & E1 & O1 & I1 & M1 & K1) (n2 & E2 & O2 & I2 & M2 & K2).
  exists (n2 ++ n1). rewrite E2, E1, app_assoc. split; [reflexivity|].
  split; [|split; [|split]].
  - intros H. destruct (O1 H) as [Ea Eb].
    destruct O2 as [Ec Ed]; [congruence|]. split; congruence.
  - intros H. rewrite <- (I1 H). apply I2. now rewrite (I1 H).
  - intros Ho Hi. rewrite existsb_app, (M1 Ho Hi).
    destruct (O1 Ho) as [Ea _]. rewrite M2; [reflexivity|congruence|].
    now rewrite (I1 Hi).
  - rewrite existsb_app. intros H. apply orb_false_iff in H as [H2 H1].
    destruct (K1 H1) as (? & ? & ? & ? & ?).
    destruct (K2 H2) as (? & ? & ? & ? & ?).
    repeat split; congruence.
Qed.

Lemma walk_frame_cursor s v : walk_frame s (set_outputOffset v s).
Proof. exists []. cbn. intuition. Qed.

Lemma walk_frame_write s audio audio' :
  _audioBuffer s = Some audio -> length audio' = length audio ->
  walk_frame s (set_audioBuffer (Some audio') s).
Proof.
  intros Ha Hl. exists []. cbn. rewrite Ha. cbn. rewrite Hl. intuition.
Qed.

Lemma walk_frame_decode s frame :
  walk_frame s (add_call (decode_call frame s) s).
Proof. exists [decode_call frame s]. cbn. intuition. Qed.

Lemma walk_frame_create returns s n :
  walk_frame s (with_decoder returns
                  (with_input returns
                     (with_scratch returns (with_audio n s)))).
Proof.
  unfold with_decoder, with_input, with_scratch, with_audio.
  destruct (_outputBuffer s) as [b|] eqn:Eb,
           (truthy_number (_inputPointer s)) eqn:Ei;
    cbn; rewrite ?Eb, ?Ei; cbn;
    [ exists [_create_decoder 48000 1]
    | exists [_create_decoder 48000 1; _malloc 2048]
    | exists [_create_decoder 48000 1; _malloc 8192]
    | exists [_create_decoder 48000 1; _malloc 2048; _malloc 8192] ];
    cbn; rewrite ?Eb, ?Ei; intuition congruence.
Qed.

(** X14. Across a walk, whether it returns or throws: the scratch area and the
    input area, once allocated, stay where they are and nothing more is
    allocated; and a walk that creates no decoder leaves the decoder, both
    areas and the length of the output buffer as they were. *)
Theorem walk_keeps_scratch_areas returns HEAPF32 fuel data position length s :
  match ParseMaster returns HEAPF32 fuel data position length s with
  | Return _ s' | Throw _ s' => walk_frame s s'
  | OutOfFuel | NotModelled => True
  end.
Proof.
  apply (respects_ParseMaster returns HEAPF32 walk_frame).
  - apply walk_frame_refl.
  - apply walk_frame_trans.
  - apply walk_frame_cursor.
  - apply walk_frame_write.
  - apply walk_frame_decode.
  - apply walk_frame_create.
Qed.

(** * Properties of the runtime *)

(** ** 32-bit arithmetic *)

Lemma ToInt32_eq_mod (u v : Z) :
  u mod 2 ^ 32 = v mod 2 ^ 32 -> JS.ToInt32 u = JS.ToInt32 v.
Proof.
  intros E. apply ToInt32_congr; [apply ToInt32_range|].
  now rewrite ToInt32_mod.
Qed.

Lemma ToInt32_shift (z : Z) : exists k, JS.ToInt32 z = z + k * 2 ^ 32.
Proof.
  unfold JS.ToInt32. exists (- ((z + 2 ^ 31) / 2 ^ 32)).
  pose proof (Z.div_mod (z + 2 ^ 31) (2 ^ 32) ltac:(lia)). lia.
Qed.

Lemma ToUint32_shift (z : Z) : exists k, ToUint32 z = z + k * 2 ^ 32.
Proof.
  unfold ToUint32. exists (- (z / 2 ^ 32)).
  pose proof (Z.div_mod z (2 ^ 32) ltac:(lia)). lia.
Qed.

Lemma bor_0 (z : Z) : JS.bor z 0 = JS.ToInt32 z.
Proof. unfold JS.bor. change (JS.ToInt32 0) with 0. apply Z.lor_0_r. Qed.

Lemma band_low16 (a : Z) : JS.band a 65535 = ToUint32 a mod 2 ^ 16.
Proof.
  unfold JS.band, ToUint32. change (JS.ToInt32 65535) with (Z.ones 16).
  rewrite Z.land_ones by lia.
  assert (Hd : (2 ^ 16 | 2 ^ 32)) by (exists (2 ^ 16); reflexivity).
  rewrite <- (Z.mod_mod_divide (JS.ToInt32 a) _ _ Hd), ToInt32_mod.
  reflexivity.
Qed.

Lemma ushr_16 (a : Z) : ushr a 16 = ToUint32 a / 2 ^ 16.
Proof. unfold ushr. apply Z.shiftr_div_pow2. lia. Qed.

(** X15. The stand-in for [Math.imul] returns the low 32 bits of the product,
    read as a signed number, for all integers, as [Math.imul] does; so it
    passes the test that decides whether it is installed,
    [Math.imul(4294967295, 5) === -5]. *)
Theorem imul_is_product_mod_2_32 (a b : Z) :
  imul a b = JS.ToInt32 (a * b)
  /\ imul 4294967295 5 = -5.
Proof.
  split; [|reflexivity].
  unfold imul. cbv zeta. rewrite bor_0, !band_low16, !ushr_16.
  unfold JS.shl. rewrite Z.shiftl_mul_pow2 by lia.
  destruct (ToUint32_shift a) as [ka Ha].
  destruct (ToUint32_shift b) as [kb Hb].
  pose proof (Z.div_mod (ToUint32 a) (2 ^ 16) ltac:(lia)) as Da.
  pose proof (Z.div_mod (ToUint32 b) (2 ^ 16) ltac:(lia)) as Db.
  set (ah := ToUint32 a / 2 ^ 16) in *.
  set (al := ToUint32 a mod 2 ^ 16) in *.
  set (bh := ToUint32 b / 2 ^ 16) in *.
  set (bl := ToUint32 b mod 2 ^ 16) in *.
  destruct (ToInt32_shift (ah * bl + al * bh)) as [k1 H1]. rewrite H1.
  destruct (ToInt32_shift ((ah * bl + al * bh + k1 * 2 ^ 32) * 2 ^ 16))
    as [k2 H2]. rewrite H2.
  apply ToInt32_eq_mod.
  assert (Ea : a = 2 ^ 16 * ah + al - ka * 2 ^ 32) by lia.
  assert (Eb : b = 2 ^ 16 * bh + bl - kb * 2 ^ 32) by lia.
  rewrite Ea, Eb.
  replace (al * bl + ((ah * bl + al * bh + k1 * 2 ^ 32) * 2 ^ 16 + k2 * 2 ^ 32))
    with ((2 ^ 16 * ah + al - ka * 2 ^ 32) * (2 ^ 16 * bh + bl - kb * 2 ^ 32)
          + (k1 * 2 ^ 16 + k2 - ah * bh + ka * (2 ^ 16 * bh + bl)
             + kb * (2 ^ 16 * ah + al) - ka * kb * 2 ^ 32) * 2 ^ 32)
    by ring.
  apply Z.mod_add. lia.
Qed.

(** ** Leading zeros *)

Lemma land_pow2 (a k : Z) :
  0 <= k -> Z.land a (2 ^ k) = if Z.testbit a k then 2 ^ k else 0.
Proof.
  intros Hk. apply Z.bits_inj'. intros n Hn.
  rewrite Z.land_spec, Z.pow2_bits_eqb by lia.
  destruct (Z.eqb_spec k n) as [->|Hne].
  - destruct (Z.testbit a n); cbn [andb].
    + rewrite Z.pow2_bits_eqb by lia. symmetry. apply Z.eqb_refl.
    + symmetry. apply Z.bits_0.
  - rewrite andb_false_r. destruct (Z.testbit a k).
    + rewrite Z.pow2_bits_eqb by lia. symmetry. now apply Z.eqb_neq.
    + symmetry. apply Z.bits_0.
Qed.

Lemma testbit_ToInt32 (z k : Z) :
  0 <= k < 32 -> Z.testbit (JS.ToInt32 z) k = Z.testbit z k.
Proof.
  intros Hk.
  rewrite <- (Z.mod_pow2_bits_low (JS.ToInt32 z) 32 k) by lia.
  rewrite ToInt32_mod. apply Z.mod_pow2_bits_low. lia.
Qed.

Lemma land_minus_pow2 (a k : Z) :
  0 <= k -> Z.land a (- 2 ^ k) = 2 ^ k * (a / 2 ^ k).
Proof.
  intros Hk.
  replace (- 2 ^ k) with (Z.lnot (Z.ones k))
    by (unfold Z.lnot; rewrite Z.ones_equiv; lia).
  rewrite <- Z.ldiff_land, Z.ldiff_ones_r by lia.
  rewrite Z.shiftl_mul_pow2, Z.shiftr_div_pow2 by lia. lia.
Qed.

(** Whether the loop of the stand-in returns at bit [k] of [u]. *)
Lemma clz32_test (u k : Z) :
  0 <= u < 2 ^ 32 -> 0 <= k <= 31 ->
  (JS.band u (JS.shl 1 k) =? 0) = negb (Z.testbit u k).
Proof.
  intros Hu Hk. unfold JS.band, JS.shl.
  change (JS.ToInt32 1) with 1. rewrite Z.shiftl_1_l.
  rewrite (ToInt32_small (JS.ToInt32 (2 ^ k))) by apply ToInt32_range.
  rewrite <- (testbit_ToInt32 u k) by lia.
  pose proof (ToInt32_range u) as HA.
  destruct (Z.eq_dec k 31) as [->|Hne].
  - change (JS.ToInt32 (2 ^ 31)) with (- 2 ^ 31).
    rewrite land_minus_pow2 by lia.
    rewrite Z.testbit_eqb by lia.
    assert (Hq : JS.ToInt32 u / 2 ^ 31 = -1 \/ JS.ToInt32 u / 2 ^ 31 = 0).
    { assert (-1 <= JS.ToInt32 u / 2 ^ 31 < 1); [|lia].
      split; [apply Z.div_le_lower_bound | apply Z.div_lt_upper_bound]; lia. }
    destruct Hq as [-> | ->]; reflexivity.
  - assert (H2 : 0 < 2 ^ k < 2 ^ 31).
    { split; [apply Z.pow_pos_nonneg; lia|].
      apply Z.pow_lt_mono_r; lia. }
    rewrite (ToInt32_small (2 ^ k)) by lia.
    rewrite land_pow2 by lia.
    destruct (Z.testbit (JS.ToInt32 u) k); cbn [negb];
      [apply Z.eqb_neq; lia | reflexivity].
Qed.

Lemma clz32_loop_spec (u : Z) (n : nat) (i : Z) :
  0 <= u < 2 ^ 32 ->
  0 <= i -> i + Z.of_nat n = 32 ->
  (forall j, 0 <= j < i -> Z.testbit u (31 - j) = false) ->
  let r := clz32_loop n u i in
  i <= r <= 32
  /\ (forall j, 0 <= j < r -> Z.testbit u (31 - j) = false)
  /\ (r < 32 -> Z.testbit u (31 - r) = true).
Proof.
  intros Hu. revert i. induction n as [|n IH]; intros i Hi Hn Hzero;
    cbn [clz32_loop].
  - split; [lia|]. split; [|lia]. intros j Hj. apply Hzero. lia.
  - rewrite clz32_test by lia. rewrite negb_involutive.
    destruct (Z.testbit u (31 - i)) eqn:Hb.
    + split; [lia|]. split; [exact Hzero | intros _; exact Hb].
    + assert (Hzero' : forall j, 0 <= j < i + 1 ->
                                 Z.testbit u (31 - j) = false).
      { intros j Hj. destruct (Z.eq_dec j i) as [->|];
          [exact Hb | apply Hzero; lia]. }
      destruct (IH (i + 1) ltac:(lia) ltac:(lia) Hzero') as (H1 & H2 & H3).
      split; [lia|]. split; assumption.
Qed.

(** X16. The stand-in for [Math.clz32] counts the leading zero bits of the
    argument taken as an unsigned 32-bit number: 32 for zero, and 31 less the
    position of the highest set bit otherwise. *)
Theorem clz32_counts_leading_zeros (x : Z) :
  clz32 x = if ToUint32 x =? 0 then 32 else 31 - Z.log2 (ToUint32 x).
Proof.
  unfold clz32, ushr. cbv zeta. rewrite Z.shiftr_0_r.
  set (u := ToUint32 x).
  assert (Hu : 0 <= u < 2 ^ 32) by (apply Z.mod_pos_bound; lia).
  destruct (clz32_loop_spec u 32 0 Hu ltac:(lia) ltac:(lia)) as (H1 & H2 & H3);
    [intros j Hj; lia|].
  set (r := clz32_loop 32 u 0) in *.
  destruct (Z.eqb_spec u 0) as [E0|Hne].
  - destruct (Z.eq_dec r 32) as [E|Hr]; [exact E|].
    specialize (H3 ltac:(lia)). rewrite E0, Z.bits_0 in H3. discriminate.
  - assert (Hpos : 0 < u) by lia.
    pose proof (Z.log2_nonneg u) as Hl0.
    assert (Hl : Z.log2 u < 32) by (apply Z.log2_lt_pow2; lia).
    pose proof (Z.bit_log2 u Hpos) as Hbit.
    assert (Hr : r < 32).
    { destruct (Z.eq_dec r 32) as [E|]; [|lia].
      specialize (H2 (31 - Z.log2 u) ltac:(lia)).
      replace (31 - (31 - Z.log2 u)) with (Z.log2 u) in H2 by lia.
      congruence. }
    specialize (H3 Hr).
    destruct (Z.lt_trichotomy (Z.log2 u) (31 - r)) as [Hlt|[E|Hgt]].
    + rewrite Z.bits_above_log2 in H3 by lia. discriminate.
    + lia.
    + specialize (H2 (31 - Z.log2 u) ltac:(lia)).
      replace (31 - (31 - Z.log2 u)) with (Z.log2 u) in H2 by lia.
      congruence.
Qed.

(** ** The bump allocators *)

Lemma band_minus_16 (y : Z) :
  - 2 ^ 31 <= y < 2 ^ 31 -> JS.band y (-16) = 16 * (y / 16).
Proof.
  intros Hy. unfold JS.band. rewrite (ToInt32_small y) by exact Hy.
  change (JS.ToInt32 (-16)) with (- 2 ^ 4).
  now rewrite land_minus_pow2 by lia.
Qed.

(** X17. [Runtime.stackAlloc] and [Runtime.staticAlloc] return the old top and
    move the top past [size] bytes, up to the next multiple of 16, as long as
    that stays below 2^31: a block never reaches the next one. There is no
    check: beyond 2^31 the top wraps to a negative number. *)
Theorem bump_allocators_align (size top : Z) :
  0 <= size -> - 2 ^ 31 <= top -> top + size + 15 < 2 ^ 31 ->
  let '(ret, top') := Runtime.stackAlloc size top in
  ret = top
  /\ top' mod 16 = 0
  /\ ret + size <= top' < ret + size + 16
  /\ Runtime.staticAlloc size top = (ret, top').
Proof.
  intros Hsize Htop Hfit. unfold Runtime.stackAlloc, Runtime.staticAlloc.
  cbv zeta. rewrite bor_0, (ToInt32_small (top + size)) by lia.
  rewrite band_minus_16 by lia.
  pose proof (Z.div_mod (top + size + 15) 16 ltac:(lia)) as Hd.
  pose proof (Z.mod_pos_bound (top + size + 15) 16 ltac:(lia)) as Hm.
  split; [reflexivity|]. split; [|split; [lia | reflexivity]].
  rewrite Z.mul_comm. apply Z.mod_mul. lia.
Qed.

Lemma bump_allocators_align_witness :
  Runtime.stackAlloc 5 1024 = (1024, 1040)
  /\ Runtime.staticAlloc 5 1024 = (1024, 1040).
Proof.
  pose proof (bump_allocators_align 5 1024) as H.
  change (Runtime.stackAlloc 5 1024) with (1024, 1040) in H.
  cbv beta iota in H.
  split; [reflexivity|].
  apply H; lia.
Defined.

Lemma stackAlloc_wraps :
  Runtime.stackAlloc 16 (2 ^ 31 - 16) = (2 ^ 31 - 16, - 2 ^ 31).
Proof. reflexivity. Qed.

(** ** Alignment of sizes *)

(** X18. For a size that is not negative and a positive page size, [alignUp]
    returns the least multiple of the page size that is at least the size. A
    negative size is returned as it is, multiple or not. *)
Theorem alignUp_least_multiple (x multiple : Z) :
  0 < multiple ->
  (0 <= x ->
   (multiple | alignUp x multiple)
   /\ x <= alignUp x multiple < x + multiple
   /\ forall y, x <= y -> (multiple | y) -> alignUp x multiple <= y)
  /\ (x < 0 -> alignUp x multiple = x).
Proof.
  intros Hm. unfold alignUp.
  destruct (Z.eqb_spec multiple 0) as [|_]; [lia|]. split.
  - intros Hx. rewrite Z.rem_mod_nonneg by lia.
    pose proof (Z.div_mod x multiple ltac:(lia)) as Hd.
    pose proof (Z.mod_pos_bound x multiple Hm) as Hb.
    assert (Hgoal :
      forall r, (multiple | r) -> x <= r < x + multiple ->
                (multiple | r) /\ x <= r < x + multiple
                /\ forall y, x <= y -> (multiple | y) -> r <= y).
    { intros r [q ->] Hr. split; [now exists q|]. split; [exact Hr|].
      intros y Hy [p ->]. assert (q <= p) by nia. nia. }
    destruct (Z.ltb_spec 0 (x mod multiple)).
    + apply Hgoal; [|lia]. exists (x / multiple + 1). lia.
    + apply Hgoal; [|lia]. exists (x / multiple). lia.
  - intros Hx.
    destruct (Z.ltb_spec 0 (Z.rem x multiple)) as [Hr|]; [|reflexivity].
    pose proof (Z.rem_nonpos x multiple ltac:(lia) ltac:(lia)). lia.
Qed.

Lemma alignUp_least_multiple_witness :
  (65536 | alignUp 70000 65536)
  /\ alignUp 70000 65536 = 131072
  /\ alignUp (-5) 65536 = -5.
Proof.
  destruct (alignUp_least_multiple 70000 65536) as [H _]; [lia|].
  destruct H as (Hdiv & _ & _); [lia|].
  split; [exact Hdiv|]. split; reflexivity.
Defined.

(** ** UTF-16 *)

Lemma lor_low_bits (a b k : Z) :
  0 <= k -> 0 <= b < 2 ^ k -> Z.lor (a * 2 ^ k) b = a * 2 ^ k + b.
Proof.
  intros Hk Hb.
  assert (H0 : Z.land (a * 2 ^ k) b = 0).
  { apply Z.bits_inj'. intros n Hn. rewrite Z.land_spec, Z.bits_0.
    destruct (Z.lt_ge_cases n k) as [Hlt|Hge].
    - now rewrite Z.mul_pow2_bits_low.
    - rewrite <- (Z.mod_small b (2 ^ k)) by exact Hb.
      rewrite Z.mod_pow2_bits_high by lia. apply andb_false_r. }
  now rewrite <- Z.lxor_lor, <- Z.add_nocarry_lxor.
Qed.

Lemma band_1023 (v : Z) : JS.band v 1023 = v mod 2 ^ 10.
Proof.
  unfold JS.band. change (JS.ToInt32 1023) with (Z.ones 10).
  rewrite Z.land_ones by lia.
  assert (Hd : (2 ^ 10 | 2 ^ 32)) by (exists (2 ^ 22); reflexivity).
  rewrite <- (Z.mod_mod_divide (JS.ToInt32 v) _ _ Hd), ToInt32_mod.
  now rewrite Z.mod_mod_divide.
Qed.


(** X19. [createUTF16Pair] gives a code point below 0x10000 as one code unit,
    and a code point from 0x10000 to 0x10FFFF as a high surrogate followed by
    a low surrogate; [lengthBytesUTF8] makes the code point of the pair again
    and counts 4 bytes for it. *)
Theorem surrogate_pair_round_trip (u : Z) :
  0 <= u <= 1114111 ->
  (u < 65536 -> createUTF16Pair u = [u])
  /\ (65536 <= u ->
      exists hi lo,
        createUTF16Pair u = [hi; lo]
        /\ 55296 <= hi <= 56319
        /\ 56320 <= lo <= 57343
        /\ surrogate_pair_value hi (Some lo) = u
        /\ lengthBytesUTF8 [hi; lo] = 4).
Proof.
  intros Hu. unfold createUTF16Pair, fromCharCode. cbn [map]. split.
  - intros Hlt. destruct (Z.ltb_spec u 65536); [|lia].
    now rewrite Z.mod_small by lia.
  - intros Hge. destruct (Z.ltb_spec u 65536); [lia|].
    set (ch := u - 65536).
    assert (Hch : 0 <= ch < 2 ^ 20) by (unfold ch; lia).
    pose proof (Z.div_mod ch (2 ^ 10) ltac:(lia)) as Hd.
    pose proof (Z.mod_pos_bound ch (2 ^ 10) ltac:(lia)) as Hl.
    assert (Hh : 0 <= ch / 2 ^ 10 < 2 ^ 10).
    { split; [apply Z.div_pos; lia|].
      apply Z.div_lt_upper_bound; lia. }
    assert (Ehi : JS.bor 55296 (JS.sar ch 10) = 55296 + ch / 2 ^ 10).
    { unfold JS.sar, JS.bor. rewrite (ToInt32_small ch) by lia.
      rewrite Z.shiftr_div_pow2 by lia.
      rewrite (ToInt32_small (ch / 2 ^ 10)) by lia.
      change (JS.ToInt32 55296) with (54 * 2 ^ 10).
      now rewrite lor_low_bits by lia. }
    assert (Elo : JS.bor 56320 (JS.band ch 1023) = 56320 + ch mod 2 ^ 10).
    { rewrite band_1023. unfold JS.bor.
      rewrite (ToInt32_small (ch mod 2 ^ 10)) by lia.
      change (JS.ToInt32 56320) with (55 * 2 ^ 10).
      now rewrite lor_low_bits by lia. }
    rewrite Ehi, Elo.
    set (h := ch / 2 ^ 10) in *. set (l := ch mod 2 ^ 10) in *.
    rewrite !Z.mod_small by lia.
    assert (Eback : surrogate_pair_value (55296 + h) (Some (56320 + l)) = u).
    { unfold surrogate_pair_value. rewrite !band_1023.
      replace ((55296 + h) mod 2 ^ 10) with h
        by (replace (55296 + h) with (h + 54 * 2 ^ 10) by lia;
            rewrite Z.mod_add by lia; symmetry; apply Z.mod_small; lia).
      replace ((56320 + l) mod 2 ^ 10) with l
        by (replace (56320 + l) with (l + 55 * 2 ^ 10) by lia;
            rewrite Z.mod_add by lia; symmetry; apply Z.mod_small; lia).
      unfold JS.shl. rewrite (ToInt32_small h) by lia.
      rewrite Z.shiftl_mul_pow2 by lia.
      rewrite (ToInt32_small (h * 2 ^ 10)) by lia.
      unfold JS.bor. rewrite (ToInt32_small (65536 + h * 2 ^ 10)) by lia.
      rewrite (ToInt32_small l) by lia.
      replace (65536 + h * 2 ^ 10) with ((64 + h) * 2 ^ 10) by lia.
      rewrite lor_low_bits by lia. unfold ch in *. lia. }
    exists (55296 + h), (56320 + l).
    split; [reflexivity|]. split; [lia|]. split; [lia|].
    split; [exact Eback|].
    unfold lengthBytesUTF8. cbn [lengthBytesUTF8_loop].
    destruct (Z.leb_spec 55296 (55296 + h)); [|lia].
    destruct (Z.leb_spec (55296 + h) 57343); [|lia].
    cbn [andb]. rewrite Eback.
    destruct (Z.leb_spec u 127); [lia|].
    destruct (Z.leb_spec u 2047); [lia|].
    destruct (Z.leb_spec u 65535); [lia|].
    destruct (Z.leb_spec u 2097151); [reflexivity | lia].
Qed.

Lemma surrogate_pair_round_trip_witness :
  createUTF16Pair 128512 = [55357; 56832]
  /\ surrogate_pair_value 55357 (Some 56832) = 128512
  /\ createUTF16Pair 8364 = [8364].
Proof.
  destruct (surrogate_pair_round_trip 128512) as [_ H]; [lia|].
  destruct H as (hi & lo & Hpair & _ & _ & Hback & _); [lia|].
  change (createUTF16Pair 128512) with [55357; 56832] in Hpair.
  injection Hpair as <- <-.
  split; [reflexivity|]. split; [exact Hback | reflexivity].
Defined.




(** ** UTF-8 *)

Lemma element_app (pre rest : list Z) (i : nat) :
  element (pre ++ rest) (Z.of_nat (length pre) + Z.of_nat i)
  = nth_error rest i.
Proof.
  unfold element. destruct (Z.ltb_spec (Z.of_nat (length pre) + Z.of_nat i) 0);
    [lia|].
  rewrite nth_error_app2 by lia. f_equal. lia.
Qed.

Lemma findStringEnd_loop_app (n : nat) (pre str tail : list Z) (i : nat) :
  Forall (fun b => b <> 0) str ->
  tail = [] \/ hd_error tail = Some 0 ->
  (length str - i <= n)%nat -> (i <= length str)%nat ->
  findStringEnd_loop n (pre ++ str ++ tail)
                     (Z.of_nat (length pre) + Z.of_nat i)
  = Z.of_nat (length pre) + Z.of_nat (length str).
Proof.
  intros Hstr Htail. revert i. induction n as [|n IH]; intros i Hn Hi;
    cbn [findStringEnd_loop].
  - f_equal. lia.
  - rewrite element_app.
    destruct (Nat.eq_dec i (length str)) as [->|Hne].
    + rewrite nth_error_app2, Nat.sub_diag by lia.
      destruct Htail as [-> | H0]; [reflexivity|].
      destruct tail as [|z tail]; [reflexivity|].
      injection H0 as ->. reflexivity.
    + rewrite nth_error_app1 by lia.
      destruct (nth_error str i) as [b|] eqn:Eb.
      * rewrite Forall_forall in Hstr.
        destruct (Z.eqb_spec b 0) as [E0|_];
          [now apply (Hstr b (nth_error_In _ _ Eb)) in E0|].
        replace (Z.of_nat (length pre) + Z.of_nat i + 1)
          with (Z.of_nat (length pre) + Z.of_nat (S i)) by lia.
        apply IH; lia.
      * apply nth_error_None in Eb. lia.
Qed.

Lemma decodeCodePoint_ascii (u8Array : list Z) (b idx : Z) :
  0 <= b <= 127 -> decodeCodePoint u8Array b idx = [b].
Proof.
  intros Hb. unfold decodeCodePoint, JS.band.
  rewrite (ToInt32_small b) by lia.
  change (JS.ToInt32 128) with (2 ^ 7). rewrite land_pow2 by lia.
  replace (Z.testbit b 7) with false.
  - cbn. now rewrite Z.mod_small by lia.
  - symmetry. apply Z.testbit_false; [lia|].
    rewrite Z.div_small by lia. reflexivity.
Qed.

Lemma decodeCodePoint_length (u8Array : list Z) (u0 idx : Z) :
  (1 <= length (decodeCodePoint u8Array u0 idx))%nat.
Proof.
  unfold decodeCodePoint, createUTF16Pair, fromCharCode.
  repeat match goal with
         | |- context [if ?b then _ else _] => destruct b
         end; cbn; lia.
Qed.

Lemma skipn_nth_error {A} (l : list A) (i : nat) (x : A) :
  nth_error l i = Some x -> skipn i l = x :: skipn (S i) l.
Proof.
  revert l. induction i as [|i IH]; intros [|y l]; cbn; try discriminate.
  - now intros [= ->].
  - intros H. now rewrite (IH l H).
Qed.

Lemma decodeUTF8_loop_ascii (n : nat) (pre str tail : list Z) (i : nat)
      (acc : list Z) :
  Forall (fun b => 1 <= b <= 127) str ->
  (i + n <= length str)%nat ->
  decodeUTF8_loop n (pre ++ str ++ tail)
                  (Z.of_nat (length pre) + Z.of_nat i) acc
  = acc ++ firstn n (skipn i str).
Proof.
  intros Hstr. revert i acc. induction n as [|n IH]; intros i acc Hn;
    cbn [decodeUTF8_loop firstn]; [now rewrite app_nil_r|].
  rewrite element_app, nth_error_app1 by lia.
  destruct (nth_error str i) as [b|] eqn:Eb;
    [|apply nth_error_None in Eb; lia].
  rewrite Forall_forall in Hstr.
  pose proof (Hstr b (nth_error_In _ _ Eb)) as Hb.
  destruct (Z.eqb_spec b 0); [lia|].
  rewrite decodeCodePoint_ascii by lia.
  replace (Z.of_nat (length pre) + Z.of_nat i + 1)
    with (Z.of_nat (length pre) + Z.of_nat (S i)) by lia.
  rewrite IH by lia.
  rewrite <- app_assoc. f_equal.
  rewrite (skipn_nth_error str i b Eb). reflexivity.
Qed.

Lemma findStringEnd_loop_spec (u8Array : list Z) (n : nat) (endPtr : Z) :
  endPtr < 0 \/ Z.of_nat (length u8Array) - endPtr <= Z.of_nat n ->
  let r := findStringEnd_loop n u8Array endPtr in
  endPtr <= r
  /\ (element u8Array r = None \/ element u8Array r = Some 0)
  /\ forall i, endPtr <= i < r ->
               exists b, element u8Array i = Some b /\ b <> 0.
Proof.
  revert endPtr. induction n as [|n IH]; intros endPtr Hn;
    cbn [findStringEnd_loop].
  - split; [lia|]. split; [|intros i Hi; lia].
    left. unfold element. destruct (Z.ltb_spec endPtr 0); [reflexivity|].
    apply nth_error_None. lia.
  - destruct (element u8Array endPtr) as [v|] eqn:Ev.
    + destruct (Z.eqb_spec v 0) as [->|Hv].
      * split; [lia|]. split; [now right | intros i Hi; lia].
      * assert (Hn' : endPtr + 1 < 0
                      \/ Z.of_nat (length u8Array) - (endPtr + 1)
                         <= Z.of_nat n).
        { destruct Hn as [Hneg|Hn]; [|right; lia].
          unfold element in Ev. destruct (Z.ltb_spec endPtr 0);
            [discriminate | lia]. }
        destruct (IH (endPtr + 1) Hn') as (H1 & H2 & H3).
        split; [lia|]. split; [exact H2|].
        intros i Hi. destruct (Z.eq_dec i endPtr) as [->|];
          [now exists v | apply H3; lia].
    + split; [lia|]. split; [left; exact Ev | intros i Hi; lia].
Qed.

(** X25.  [findStringEnd] returns the first index from [idx] on at which
    the array holds 0 or ends: every byte before it is there and is not 0,
    and an [idx] outside the array is returned as it is. *)
Theorem findStringEnd_first_zero (u8Array : list Z) (idx : Z) :
  let r := findStringEnd u8Array idx in
  idx <= r
  /\ (element u8Array r = None \/ element u8Array r = Some 0)
  /\ (forall i, idx <= i < r ->
                exists b, element u8Array i = Some b /\ b <> 0)
  /\ (idx < 0 \/ Z.of_nat (length u8Array) <= idx -> r = idx).
Proof.
  unfold findStringEnd.
  destruct (Z.lt_ge_cases idx 0) as [Hneg|Hpos].
  - destruct (findStringEnd_loop_spec u8Array (length u8Array) idx
                (or_introl Hneg)) as (H1 & H2 & H3).
    split; [exact H1|]. split; [exact H2|]. split; [exact H3|].
    intros _. destruct (length u8Array); cbn [findStringEnd_loop];
      [reflexivity|].
    unfold element. now destruct (Z.ltb_spec idx 0); [|lia].
  - destruct (findStringEnd_loop_spec u8Array (length u8Array) idx
                ltac:(right; lia)) as (H1 & H2 & H3).
    split; [exact H1|]. split; [exact H2|]. split; [exact H3|].
    intros [Hlt|Hge]; [lia|].
    destruct (length u8Array) eqn:El; cbn [findStringEnd_loop];
      [reflexivity|].
    unfold element. destruct (Z.ltb_spec idx 0); [lia|].
    replace (nth_error u8Array (Z.to_nat idx)) with (@None Z);
      [reflexivity|].
    symmetry. apply nth_error_None. lia.
Qed.

(** X26.  For a string of ASCII characters in the array, ended by a 0 or by
    the end of the array, [UTF8ArrayToString] returns the characters, when
    the string has at most 16 bytes or the engine has no [TextDecoder];
    so does [decodeUTF8] up to any index within the string. *)
Theorem UTF8ArrayToString_ascii (UTF8Decoder : bool)
        (pre str tail : list Z) :
  Forall (fun b => 1 <= b <= 127) str ->
  tail = [] \/ hd_error tail = Some 0 ->
  let u8Array := pre ++ str ++ tail in
  let idx := Z.of_nat (length pre) in
  findStringEnd u8Array idx = idx + Z.of_nat (length str)
  /\ (forall n, (n <= length str)%nat ->
                decodeUTF8 u8Array idx (idx + Z.of_nat n) = firstn n str)
  /\ (UTF8Decoder = false \/ (length str <= 16)%nat ->
      UTF8ArrayToString UTF8Decoder u8Array idx = Some str).
Proof.
  intros Hstr Htail u8Array idx.
  assert (Hnz : Forall (fun b => b <> 0) str)
    by (eapply Forall_impl; [|exact Hstr]; cbn; intros; lia).
  assert (Hend : findStringEnd u8Array idx = idx + Z.of_nat (length str)).
  { unfold findStringEnd, u8Array, idx.
    replace (Z.of_nat (length pre))
      with (Z.of_nat (length pre) + Z.of_nat 0) at 1 by lia.
    apply findStringEnd_loop_app; try assumption; [|lia].
    rewrite !length_app. lia. }
  assert (Hdec : forall n, (n <= length str)%nat ->
             decodeUTF8 u8Array idx (idx + Z.of_nat n) = firstn n str).
  { intros n Hn. unfold decodeUTF8, u8Array, idx.
    replace (Z.to_nat (Z.of_nat (length pre) + Z.of_nat n
                       - Z.of_nat (length pre))) with n by lia.
    replace (Z.of_nat (length pre))
      with (Z.of_nat (length pre) + Z.of_nat 0) at 1 by lia.
    now rewrite decodeUTF8_loop_ascii by (assumption || lia). }
  split; [exact Hend|]. split; [exact Hdec|].
  intros Hcase. unfold UTF8ArrayToString. cbv zeta. rewrite Hend.
  replace ((16 <? idx + Z.of_nat (length str) - idx) && UTF8Decoder)
    with false.
  - rewrite Hdec by lia. now rewrite firstn_all.
  - symmetry. destruct Hcase as [-> | Hlen]; [apply andb_false_r|].
    apply andb_false_iff. left. apply Z.ltb_ge. lia.
Qed.

Lemma UTF8ArrayToString_ascii_witness :
  let str := [79; 112; 117; 115] in
  Forall (fun b => 1 <= b <= 127) str
  /\ UTF8ArrayToString true ([7; 7] ++ str ++ [0; 9]) 2 = Some str.
Proof.
  intros str.
  assert (Hstr : Forall (fun b => 1 <= b <= 127) str)
    by (repeat constructor; lia).
  split; [exact Hstr|].
  apply (UTF8ArrayToString_ascii true [7; 7] str [0; 9] Hstr);
    [right; reflexivity | right; cbn; lia].
Defined.

Lemma decodeUTF8_loop_length (n : nat) (u8Array : list Z) (idx : Z)
      (acc : list Z) :
  (forall i, idx <= i < idx + Z.of_nat n ->
             exists b, element u8Array i = Some b /\ b <> 0) ->
  (length acc + n <= length (decodeUTF8_loop n u8Array idx acc))%nat.
Proof.
  revert idx acc. induction n as [|n IH]; intros idx acc Hall;
    cbn [decodeUTF8_loop]; [lia|].
  destruct (Hall idx ltac:(lia)) as (b & Eb & Hb). rewrite Eb.
  destruct (Z.eqb_spec b 0); [contradiction|].
  specialize (IH (idx + 1) (acc ++ decodeCodePoint u8Array b (idx + 1))).
  rewrite length_app in IH.
  pose proof (decodeCodePoint_length u8Array b (idx + 1)).
  assert (forall i, idx + 1 <= i < idx + 1 + Z.of_nat n ->
                    exists b, element u8Array i = Some b /\ b <> 0)
    by (intros i Hi; apply Hall; lia).
  specialize (IH H0). lia.
Qed.

(** X27.  [decodeUTF8] moves on by one byte after every code point, since
    [decodeCodePoint] advances a copy of the index: each byte before the
    end, the continuation bytes of a longer sequence included, is decoded
    as the lead byte of a sequence.  So the string returned has at least as
    many code units as there are bytes, where a text with a character
    outside ASCII has fewer characters than bytes. *)
Theorem decodeUTF8_decodes_every_byte (u8Array : list Z) (idx endPtr : Z)
        (u0 : Z) :
  idx < endPtr ->
  element u8Array idx = Some u0 -> u0 <> 0 ->
  decodeUTF8 u8Array idx endPtr
  = decodeCodePoint u8Array u0 (idx + 1) ++ decodeUTF8 u8Array (idx + 1) endPtr
  /\ ((forall i, idx <= i < endPtr ->
                 exists b, element u8Array i = Some b /\ b <> 0) ->
      endPtr - idx <= Z.of_nat (length (decodeUTF8 u8Array idx endPtr))).
Proof.
  intros Hlt Hu0 Hnz. split.
  - unfold decodeUTF8.
    replace (Z.to_nat (endPtr - idx)) with (S (Z.to_nat (endPtr - (idx + 1))))
      by lia.
    cbn [decodeUTF8_loop app]. rewrite Hu0.
    destruct (Z.eqb_spec u0 0); [contradiction|].
    generalize (Z.to_nat (endPtr - (idx + 1))) as m.
    generalize (decodeCodePoint u8Array u0 (idx + 1)) as l.
    generalize (idx + 1) as j.
    intros j l m. revert j l.
    induction m as [|m IH]; intros j l; cbn [decodeUTF8_loop app];
      [symmetry; apply app_nil_r|].
    destruct (element u8Array j) as [v|]; [|symmetry; apply app_nil_r].
    destruct (v =? 0); [symmetry; apply app_nil_r|].
    rewrite (IH (j + 1) (l ++ _)), (IH (j + 1) (decodeCodePoint _ _ _)).
    now rewrite app_assoc.
  - intros Hall. unfold decodeUTF8.
    pose proof (decodeUTF8_loop_length (Z.to_nat (endPtr - idx)) u8Array idx [])
      as H.
    cbn [length] in H. rewrite Z2Nat.id in H by lia.
    assert (forall i, idx <= i < idx + (endPtr - idx) ->
                      exists b, element u8Array i = Some b /\ b <> 0)
      by (intros i Hi; apply Hall; lia).
    specialize (H H0). lia.
Qed.

Lemma decodeUTF8_decodes_every_byte_witness :
  let u8Array := [195; 169] in
  decodeUTF8 u8Array 0 2 = [233] ++ decodeUTF8 u8Array 1 2
  /\ decodeUTF8 u8Array 0 2 = [233; 65472; 56320].
Proof.
  intros u8Array.
  split; [|reflexivity].
  exact (proj1 (decodeUTF8_decodes_every_byte u8Array 0 2 195
                  ltac:(lia) eq_refl ltac:(discriminate))).
Defined.

(** * Properties of the service worker *)

Section ServiceWorkerProperties.

Import Stdlib.Strings.String.
Import ServiceWorker.
Local Open Scope string_scope.

Lemma prefix_append (a b c : string) : prefix (a ++ b) (a ++ c) = prefix b c.
Proof.
  induction a as [|x a IH]; cbn; [reflexivity|].
  destruct (Ascii.ascii_dec x x) as [_|H]; [exact IH | now elim H].
Qed.

Lemma prefix_nil_r (a : string) : prefix a (a ++ "") = true.
Proof.
  induction a as [|x a IH]; cbn; [reflexivity|].
  destruct (Ascii.ascii_dec x x) as [_|H]; [exact IH | now elim H].
Qed.

Lemma prefix_trans (a b c : string) :
  prefix a b = true -> prefix b c = true -> prefix a c = true.
Proof.
  revert b c. induction a as [|x a IH]; intros b c;
    [destruct c; reflexivity|].
  destruct b as [|y b]; [discriminate|].
  destruct c as [|z c]; [discriminate|]. cbn.
  destruct (Ascii.ascii_dec x y) as [->|]; [|discriminate].
  destruct (Ascii.ascii_dec y z) as [->|]; [|discriminate].
  apply IH.
Qed.

Lemma prefix_append_r (a b : string) : prefix a (a ++ b) = true.
Proof.
  induction a as [|x a IH]; cbn; [now destruct b|].
  destruct (Ascii.ascii_dec x x) as [_|H]; [exact IH | now elim H].
Qed.

Lemma append_assoc (a b c : string) : (a ++ b) ++ c = a ++ b ++ c.
Proof. induction a as [|x a IH]; cbn; [reflexivity | now rewrite IH]. Qed.

Lemma append_inj_l (a b c : string) : a ++ b = a ++ c -> b = c.
Proof.
  induction a as [|x a IH]; cbn; [trivial|]. intros [= H]. now apply IH.
Qed.

(** The base name of a scope is a prefix of the name of every cache of a
    scope that it is a prefix of. *)
Lemma base_name_prefix (scope scope' version : string) :
  prefix scope scope' = true ->
  prefix (GetCacheBaseName scope) (GetCacheVersionName scope' version) = true.
Proof.
  intros H. unfold GetCacheVersionName, GetCacheBaseName.
  rewrite !append_assoc, !prefix_append.
  apply (prefix_trans _ scope'); [exact H | apply prefix_append_r].
Qed.

Lemma prefix_refl (a : string) : prefix a a = true.
Proof.
  induction a as [|x a IH]; cbn; [reflexivity|].
  destruct (Ascii.ascii_dec x x) as [_|H]; [exact IH | now elim H].
Qed.

(** X21. A cache that this worker has made for some version is among the
    caches it finds, and two of them for different versions make an update
    pending. So is every cache of a worker whose scope begins with the scope
    of this one, as for a scope nested in it: the filter on the base name does
    not tell them apart. *)
Theorem available_caches (scope : string) (cacheNames : list string) :
  (forall version,
      In (GetCacheVersionName scope version) cacheNames ->
      In (GetCacheVersionName scope version)
         (GetAvailableCacheNames scope cacheNames))
  /\ (forall v1 v2,
         v1 <> v2 ->
         In (GetCacheVersionName scope v1) cacheNames ->
         In (GetCacheVersionName scope v2) cacheNames ->
         IsUpdatePending scope cacheNames = true)
  /\ (forall scope' version,
         prefix scope scope' = true ->
         In (GetCacheVersionName scope' version) cacheNames ->
         In (GetCacheVersionName scope' version)
            (GetAvailableCacheNames scope cacheNames)).
Proof.
  assert (Hnested : forall scope' version,
             prefix scope scope' = true ->
             In (GetCacheVersionName scope' version) cacheNames ->
             In (GetCacheVersionName scope' version)
                (GetAvailableCacheNames scope cacheNames)).
  { intros scope' version Hp Hin. unfold GetAvailableCacheNames.
    apply filter_In. split; [exact Hin | now apply base_name_prefix]. }
  assert (Hown : forall version,
             In (GetCacheVersionName scope version) cacheNames ->
             In (GetCacheVersionName scope version)
                (GetAvailableCacheNames scope cacheNames))
    by (intros version; apply Hnested, prefix_refl).
  split; [exact Hown|]. split; [|exact Hnested].
  intros v1 v2 Hne H1 H2. unfold IsUpdatePending.
  apply Hown in H1. apply Hown in H2.
  assert (Hd : GetCacheVersionName scope v1 <> GetCacheVersionName scope v2).
  { unfold GetCacheVersionName. intros E.
    apply append_inj_l, append_inj_l in E. contradiction. }
  destruct (GetAvailableCacheNames scope cacheNames) as [|a [|b l]];
    [contradiction| |reflexivity].
  destruct H1 as [H1|[]], H2 as [H2|[]]. congruence.
Qed.

(** X22. When [prepareFileList] returns, the list begins with ["./"], or with
    the main page followed by ["./"], and goes on with the files it held
    before; the main page is put in only when it is known and not in the list
    already, so it is never doubled, while ["./"] is put in whether or not it
    was there. *)
Theorem prepareFileList_adds_roots (fileList : list string)
        (mainPageUrl : string) :
  let result := prepareFileList fileList mainPageUrl in
  (result = "./" :: fileList \/ result = mainPageUrl :: "./" :: fileList)
  /\ In "./" result
  /\ (mainPageUrl <> "" -> In mainPageUrl result)
  /\ (result = mainPageUrl :: "./" :: fileList ->
      mainPageUrl <> "" /\ ~ In mainPageUrl ("./" :: fileList))
  /\ count_occ string_dec result "./"
     = S (count_occ string_dec fileList "./").
Proof.
  unfold prepareFileList. cbv zeta.
  destruct (String.eqb_spec mainPageUrl "") as [E|Hne]; cbn [negb andb].
  - split; [now left|]. split; [now left|]. split; [contradiction|].
    split; [|now rewrite count_occ_cons_eq].
    intros H. apply (f_equal (@List.length string)) in H. cbn in H. lia.
  - destruct (existsb (String.eqb mainPageUrl) ("./" :: fileList)) eqn:Hex;
      cbn [negb].
    + apply existsb_exists in Hex as (x & Hin & Hx).
      apply String.eqb_eq in Hx. subst x.
      split; [now left|]. split; [now left|]. split; [intros _; exact Hin|].
      split; [|now rewrite count_occ_cons_eq].
      intros H. apply (f_equal (@List.length string)) in H. cbn in H. lia.
    + assert (Hnot : ~ In mainPageUrl ("./" :: fileList)).
      { intros Hin.
        assert (H : existsb (String.eqb mainPageUrl) ("./" :: fileList) = true)
          by (apply existsb_exists; exists mainPageUrl; split;
              [exact Hin | apply String.eqb_refl]).
        congruence. }
      split; [now right|]. split; [right; now left|].
      split; [intros _; now left|]. split; [intros _; now split|].
      rewrite count_occ_cons_neq, count_occ_cons_eq by
        (try reflexivity; intros E; apply Hnot; left; now symmetry).
      reflexivity.
Qed.

(** X23. [GetMainPageUrl] returns the empty string, or a URL that is neither
    ["/"] nor begins with ["?"]; it returns the empty string exactly when
    every client is at the scope itself, at ["/"] under it, or has the URL
    [""] or ["/"]. *)
Theorem GetMainPageUrl_result (scope : string) (clients : list string) :
  let strip url :=
    if prefix scope url
    then substring (length scope) (length url - length scope) url
    else url in
  let r := GetMainPageUrl scope clients in
  (r = "" \/ (r <> "/" /\ prefix "?" r = false))
  /\ (r = "" <-> forall c, In c clients -> strip c = "" \/ strip c = "/").
Proof.
  intros strip. induction clients as [|c clients IH]; cbn [GetMainPageUrl].
  - split; [now left|]. split; [intros _ c []|reflexivity].
  - fold (strip c). cbv zeta in IH.
    destruct (String.eqb_spec (strip c) "") as [E0|H0]; cbn [negb andb].
    { destruct IH as [IH1 IH2]. split; [exact IH1|]. rewrite IH2.
      split; [intros H x [<-|Hx]; [now left | now apply H]|].
      intros H x Hx. apply H. now right. }
    destruct (String.eqb_spec (strip c) "/") as [E1|H1]; cbn [negb].
    { destruct IH as [IH1 IH2]. split; [exact IH1|]. rewrite IH2.
      split; [intros H x [<-|Hx]; [now right | now apply H]|].
      intros H x Hx. apply H. now right. }
    destruct (prefix "?" (strip c)) eqn:Hq.
    + split.
      * right. split; [|reflexivity].
        destruct (strip c); [contradiction | discriminate].
      * split; [discriminate|].
        intros H. destruct (H c (or_introl eq_refl)); contradiction.
    + split; [right; now split|].
      split; [contradiction|].
      intros H. destruct (H c (or_introl eq_refl)); contradiction.
Qed.

Lemma last_index {A} (l : list A) (x : A) :
  nth_error (l ++ [x])%list (List.length (l ++ [x])%list - 1) = Some x.
Proof.
  rewrite length_app. cbn [List.length].
  replace (List.length l + 1 - 1)%nat with (List.length l) by lia.
  rewrite nth_error_app2 by lia. now rewrite Nat.sub_diag.
Qed.

(** X24. For a list of available caches that is not empty and has no name
    twice, as [caches.keys()] gives it, [resolveCacheName] resolves to one of
    the caches and has not deleted that one. With exactly one cache, with a
    request that is no navigation, or with more than one client, it deletes
    nothing and resolves to the first cache. For a navigation with two or
    more caches and at most one client, it deletes every cache but the last,
    in their order, and resolves to the last. *)
Theorem served_cache_survives (availableCacheNames : list string)
        (isNavigateRequest : bool) (clients : nat) :
  availableCacheNames <> [] ->
  NoDup availableCacheNames ->
  let '(use, deleted) :=
    resolveCacheName availableCacheNames isNavigateRequest clients in
  (exists name,
      use = Some name /\ In name availableCacheNames /\ ~ In name deleted)
  /\ (List.length availableCacheNames = 1%nat \/ isNavigateRequest = false
      \/ (1 < clients)%nat ->
      deleted = [] /\ use = nth_error availableCacheNames 0)
  /\ ((2 <= List.length availableCacheNames)%nat ->
      isNavigateRequest = true -> (clients <= 1)%nat ->
      exists name,
        use = Some name /\ (deleted ++ [name])%list = availableCacheNames).
Proof.
  intros Hne Hnd. unfold resolveCacheName.
  assert (Hfirst : exists name,
             nth_error availableCacheNames 0 = Some name
             /\ In name availableCacheNames).
  { destruct availableCacheNames as [|n l]; [contradiction|].
    exists n. split; [reflexivity | now left]. }
  destruct Hfirst as (first & Hf & Hfin).
  destruct ((List.length availableCacheNames =? 1)%nat || negb isNavigateRequest)
    eqn:Hone.
  { split; [exists first; rewrite Hf; repeat split; auto|].
    split; [auto|].
    intros Hlen Hnav _. exfalso.
    apply orb_true_iff in Hone as [Hone|Hone].
    - apply Nat.eqb_eq in Hone. lia.
    - rewrite Hnav in Hone. discriminate. }
  apply orb_false_iff in Hone as [Hlen Hnav].
  apply Nat.eqb_neq in Hlen. apply negb_false_iff in Hnav.
  destruct (Nat.ltb_spec 1 clients) as [Hc|Hc].
  { split; [exists first; rewrite Hf; repeat split; auto|].
    split; [auto|].
    intros _ _ Hle. lia. }
  cbv zeta. unfold deleteOldCaches.
  destruct (exists_last Hne) as (l & x & E). subst availableCacheNames.
  rewrite removelast_last, last_index.
  split; [|split].
  - exists x. split; [reflexivity|].
    split; [apply in_or_app; right; now left|].
    apply NoDup_remove_2 in Hnd. now rewrite app_nil_r in Hnd.
  - intros [H|[H|H]]; [contradiction | congruence | lia].
  - intros _ _ _. exists x. split; reflexivity.
Qed.

Lemma served_cache_survives_witness :
  resolveCacheName ["c-v1"; "c-v2"; "c-v3"] true 1
  = (Some "c-v3", ["c-v1"; "c-v2"])
  /\ exists name,
      Some "c-v3" = Some name
      /\ (["c-v1"; "c-v2"] ++ [name])%list = ["c-v1"; "c-v2"; "c-v3"]
      /\ In name ["c-v1"; "c-v2"; "c-v3"]
      /\ ~ In name ["c-v1"; "c-v2"].
Proof.
  split; [reflexivity|].
  assert (Hnd : NoDup ["c-v1"; "c-v2"; "c-v3"]).
  { repeat constructor; cbn; intuition discriminate. }
  pose proof (served_cache_survives ["c-v1"; "c-v2"; "c-v3"] true 1
                ltac:(discriminate) Hnd) as H.
  change (resolveCacheName ["c-v1"; "c-v2"; "c-v3"] true 1)
    with (Some "c-v3", ["c-v1"; "c-v2"]) in H.
  cbv beta iota in H.
  destruct H as ((name & H1 & H2 & H3) & _ & Hdel).
  destruct (Hdel ltac:(cbn; lia) eq_refl ltac:(lia)) as (last & Hlast & Happ).
  exists last.
  assert (name = last) by congruence. subst name.
  auto.
Defined.

End ServiceWorkerProperties.
